(** * Smart merge strategy (src/setup/merge-strategy.ts)

    A shallow embedding of the three merge functions of the module
    ([mergeMarkdown], [mergeYaml], [mergeJson]) and of the helpers they
    are built from, followed by the properties of the merge engine.

    Modelling conventions.
    - A JavaScript string is a [string]; every character is one code unit
      below 256 (the Latin-1 part of UTF-16).  The white space class of
      [trim] and of the regular expression atom [\s] and the case mapping
      of [toLowerCase] are the ones ECMAScript gives to these code units.
    - A plain JavaScript object is the list of its own properties in the
      order [Object.keys] reports them: array-index keys first, in
      ascending numeric order, then the other keys in insertion order
      (OrdinaryOwnPropertyKeys).
    - Every object also inherits the properties of [Object.prototype].
      The JSON merge is modelled with them: [key in obj] holds for their
      names, and an assignment to [__proto__] stores no property.  The
      YAML parser and the YAML merge are modelled on own properties,
      which is what they compute on documents that have no key of such
      a name; their properties are stated for these documents.
    - The arrays [preserved] and [added] that the source mutates in place
      are threaded through the functions as explicit state.
    - The host functions [JSON.parse], [JSON.stringify], [Number], [isNaN]
      and [String] on numbers are parameters of the model; a reference
      instance on integers is given to run the code on concrete texts. *)

From Stdlib Require Import Ascii NArith ZArith Lia.
From stdpp Require Import gmap strings list pretty.

(** ** Strings *)

Definition LF : ascii := "010"%char.
Definition CR : ascii := "013"%char.
Definition DQUOTE : ascii := "034"%char.
Definition SQUOTE : ascii := "039"%char.
Definition BACKSLASH : ascii := "092"%char.

Definition str1 (c : ascii) : string := String c EmptyString.

(** White space and line terminators: the class [\s], also stripped by [trim]. *)
Definition is_ws (c : ascii) : bool :=
  let n := N_of_ascii c in
  ((9 <=? n) && (n <=? 13) || (n =? 32) || (n =? 160))%N.

(** The atom [.] matches everything but a line terminator. *)
Definition is_line_terminator (c : ascii) : bool :=
  let n := N_of_ascii c in ((n =? 10) || (n =? 13))%N.

Definition lower_char (c : ascii) : ascii :=
  let n := N_of_ascii c in
  if ((65 <=? n) && (n <=? 90))%N then ascii_of_N (n + 32)
  else if ((192 <=? n) && (n <=? 222) && negb (n =? 215))%N then ascii_of_N (n + 32)
  else c.

Definition is_lower_alnum (c : ascii) : bool :=
  let n := N_of_ascii c in
  ((97 <=? n) && (n <=? 122) || (48 <=? n) && (n <=? 57))%N.

Fixpoint str_map (f : ascii → ascii) (s : string) : string :=
  match s with
  | EmptyString => EmptyString
  | String c s' => String (f c) (str_map f s')
  end.

Fixpoint str_filter (p : ascii → bool) (s : string) : string :=
  match s with
  | EmptyString => EmptyString
  | String c s' => if p c then String c (str_filter p s') else str_filter p s'
  end.

Fixpoint str_forallb (p : ascii → bool) (s : string) : bool :=
  match s with
  | EmptyString => true
  | String c s' => p c && str_forallb p s'
  end.

Definition str_existsb (p : ascii → bool) (s : string) : bool :=
  negb (str_forallb (λ c, negb (p c)) s).

(** [drop_while p s]: [s] without its longest prefix of [p]-characters. *)
Fixpoint drop_while (p : ascii → bool) (s : string) : string :=
  match s with
  | EmptyString => EmptyString
  | String c s' => if p c then drop_while p s' else s
  end.

Fixpoint take_while (p : ascii → bool) (s : string) : string :=
  match s with
  | EmptyString => EmptyString
  | String c s' => if p c then String c (take_while p s') else EmptyString
  end.

Definition toLowerCase (s : string) : string := str_map lower_char s.

Definition trimStart (s : string) : string := drop_while is_ws s.
Definition trimEnd (s : string) : string :=
  String.rev (drop_while is_ws (String.rev s)).
Definition trim (s : string) : string := trimEnd (trimStart s).

(** [s.trim() === ""], which also covers the falsy empty string. *)
Definition is_blank (s : string) : bool := bool_decide (trim s = "").

Definition nonempty (s : string) : bool :=
  match s with EmptyString => false | String _ _ => true end.

Fixpoint str_take (n : nat) (s : string) : string :=
  match n, s with
  | S n', String c s' => String c (str_take n' s')
  | _, _ => EmptyString
  end.

Fixpoint str_drop (n : nat) (s : string) : string :=
  match n, s with
  | S n', String _ s' => str_drop n' s'
  | _, _ => s
  end.

Definition startsWith (p s : string) : bool := String.prefix p s.
Fixpoint endsWith (p s : string) : bool :=
  bool_decide (s = p)
  || match s with
     | EmptyString => false
     | String _ s' => endsWith p s'
     end.

(** [s.indexOf(p)]; [None] stands for the result [-1]. *)
Fixpoint indexOf (p s : string) : option nat :=
  if String.prefix p s then Some 0
  else match s with
       | EmptyString => None
       | String _ s' => S <$> indexOf p s'
       end.

(** [s.split(sep)] for a separator of one character. *)
Fixpoint split (sep : ascii) (s : string) : list string :=
  match s with
  | EmptyString => [EmptyString]
  | String c s' =>
      if ascii_dec c sep then EmptyString :: split sep s'
      else match split sep s' with
           | [] => [str1 c]
           | l :: ls => String c l :: ls
           end
  end.

(** [parts.join(sep)] *)
Fixpoint join (sep : string) (parts : list string) : string :=
  match parts with
  | [] => ""
  | [p] => p
  | p :: rest => p +:+ sep +:+ join sep rest
  end.

Fixpoint str_repeat (s : string) (n : nat) : string :=
  match n with
  | O => ""
  | S n' => s +:+ str_repeat s n'
  end.

(** ** Result of a merge operation *)

Record MergeResult := {
  content : string;
  preserved : list string;
  added : list string;
}.

(** ** Markdown merge *)

Module MarkdownSection.
Record t := {
  header : string;
  level : nat;
  rawHeader : string;
  content : string;
  fullText : string;
}.
End MarkdownSection.
Abbreviation MarkdownSection := MarkdownSection.t.

Definition PREAMBLE : string := "__preamble__".

(** The header pattern, anchored at both ends:
    one to six [#], then [\s+], then [(.+)].  The result is the number
    of [#] and the text captured by the second group.  Both quantifiers
    are greedy; the only way back that can succeed is for [\s+] to give
    its last character to [(.+)] when nothing follows the white space. *)
Definition headerRegex (line : string) : option (nat * string) :=
  let hashes := take_while (Ascii.eqb "#"%char) line in
  let rest := drop_while (Ascii.eqb "#"%char) line in
  let k := String.length hashes in
  if (1 <=? k)%nat && (k <=? 6)%nat then
    let ws := take_while is_ws rest in
    let tail := drop_while is_ws rest in
    match ws, tail with
    | EmptyString, _ => None
    | String _ _, String _ _ =>
        if str_forallb (λ c, negb (is_line_terminator c)) tail
        then Some (k, tail) else None
    | String _ _, EmptyString =>
        match String.rev ws with
        | String c (String _ _) =>
            if is_line_terminator c then None else Some (k, str1 c)
        | _ => None
        end
    end
  else None.

Definition close_section (s : MarkdownSection) (contentLines : list string)
  : MarkdownSection :=
  let c := join (str1 LF) contentLines in
  {| MarkdownSection.header := MarkdownSection.header s;
     MarkdownSection.level := MarkdownSection.level s;
     MarkdownSection.rawHeader := MarkdownSection.rawHeader s;
     MarkdownSection.content := c;
     MarkdownSection.fullText :=
       MarkdownSection.rawHeader s +:+ (if nonempty c then str1 LF +:+ c else "") |}.

(** The state of the scanning loop of [parseMarkdownSections]. *)
Record scan := {
  sections : list MarkdownSection;
  currentSection : option MarkdownSection;
  contentLines : list string;
}.

Definition scan_line (st : scan) (line : string) : scan :=
  match headerRegex line with
  | Some (lvl, text) =>
      {| sections :=
           match currentSection st with
           | Some cur => sections st ++ [close_section cur (contentLines st)]
           | None => sections st
           end;
         currentSection :=
           Some {| MarkdownSection.header := trim text;
                   MarkdownSection.level := lvl;
                   MarkdownSection.rawHeader := line;
                   MarkdownSection.content := "";
                   MarkdownSection.fullText := "" |};
         contentLines := [] |}
  | None =>
      {| sections := sections st;
         currentSection := currentSection st;
         contentLines := contentLines st ++ [line] |}
  end.

Definition preamble_section (text : string) : MarkdownSection :=
  {| MarkdownSection.header := PREAMBLE;
     MarkdownSection.level := 0;
     MarkdownSection.rawHeader := "";
     MarkdownSection.content := text;
     MarkdownSection.fullText := text |}.

Definition parseMarkdownSections (text : string) : list MarkdownSection :=
  let lines := split LF text in
  let st := fold_left scan_line lines
              {| sections := []; currentSection := None; contentLines := [] |} in
  let secs :=
    match currentSection st with
    | Some cur => sections st ++ [close_section cur (contentLines st)]
    | None => sections st
    end in
  match secs with
  | [] =>
      if (0 <? length (contentLines st))%nat
      then [preamble_section (join (str1 LF) (contentLines st))]
      else []
  | first :: _ =>
      match indexOf (MarkdownSection.rawHeader first) text with
      | Some (S n) =>
          let preamble := trim (str_take (S n) text) in
          if nonempty preamble then preamble_section preamble :: secs else secs
      | _ => secs
      end
  end.

Definition normalizeHeader (h : string) : string :=
  trim (str_filter (λ c, is_lower_alnum c || is_ws c) (toLowerCase h)).

Definition headersMatch (h1 h2 : string) : bool :=
  bool_decide (normalizeHeader h1 = normalizeHeader h2).

Definition is_preamble (s : MarkdownSection) : bool :=
  bool_decide (MarkdownSection.header s = PREAMBLE).

(** Headers of the sections that are not the preamble sentinel, in order. *)
Definition titled_headers (secs : list MarkdownSection) : list string :=
  MarkdownSection.header <$> filter (λ s, MarkdownSection.header s ≠ PREAMBLE) secs.

Definition section_key (s : MarkdownSection) : string :=
  normalizeHeader (MarkdownSection.header s).

(** [existingByHeader]: a later section replaces an earlier one of the same key. *)
Definition index_sections (secs : list MarkdownSection)
  : gmap string MarkdownSection :=
  fold_left (λ m s, <[section_key s := s]> m) secs ∅.

(** The state shared by the two loops of [mergeMarkdown]. *)
Record merge_state := {
  mergedSections : list string;
  ms_preserved : list string;
  ms_added : list string;
  usedExistingHeaders : gset string;
}.

Definition merge_generated (existingByHeader : gmap string MarkdownSection)
    (st : merge_state) (genSection : MarkdownSection) : merge_state :=
  let normalizedHeader := section_key genSection in
  match existingByHeader !! normalizedHeader with
  | Some existingSection =>
      {| mergedSections := mergedSections st ++ [MarkdownSection.fullText existingSection];
         ms_preserved :=
           if is_preamble existingSection then ms_preserved st
           else ms_preserved st ++ [MarkdownSection.header existingSection];
         ms_added := ms_added st;
         usedExistingHeaders := {[normalizedHeader]} ∪ usedExistingHeaders st |}
  | None =>
      {| mergedSections := mergedSections st ++ [MarkdownSection.fullText genSection];
         ms_preserved := ms_preserved st;
         ms_added :=
           if is_preamble genSection then ms_added st
           else ms_added st ++ [MarkdownSection.header genSection];
         usedExistingHeaders := usedExistingHeaders st |}
  end.

Definition merge_leftover (st : merge_state) (existSection : MarkdownSection)
  : merge_state :=
  let normalizedHeader := section_key existSection in
  if bool_decide (normalizedHeader ∉ usedExistingHeaders st)
     && negb (is_preamble existSection)
  then {| mergedSections := mergedSections st ++ [MarkdownSection.fullText existSection];
          ms_preserved := ms_preserved st ++ [MarkdownSection.header existSection];
          ms_added := ms_added st;
          usedExistingHeaders := usedExistingHeaders st |}
  else st.

(** The two loops of [mergeMarkdown] over parsed documents. *)
Definition merge_sections (existingSections generatedSections : list MarkdownSection)
  : merge_state :=
  let existingByHeader := index_sections existingSections in
  let st0 := {| mergedSections := []; ms_preserved := []; ms_added := [];
                usedExistingHeaders := ∅ |} in
  let st1 := fold_left (merge_generated existingByHeader) generatedSections st0 in
  fold_left merge_leftover existingSections st1.

Definition mergeMarkdown (existing generated : string) : MergeResult :=
  if is_blank existing then
    {| content := generated; preserved := [];
       added := titled_headers (parseMarkdownSections generated) |}
  else if is_blank generated then
    {| content := existing;
       preserved := titled_headers (parseMarkdownSections existing);
       added := [] |}
  else
    let st := merge_sections (parseMarkdownSections existing)
                             (parseMarkdownSections generated) in
    {| content := trim (join (str1 LF +:+ str1 LF) (mergedSections st)) +:+ str1 LF;
       preserved := ms_preserved st;
       added := ms_added st |}.

(** [nl s] replaces every [|] of [s] by a line feed, to write documents
    of several lines on one line. *)
Definition nl (s : string) : string :=
  str_map (λ c, if Ascii.eqb c "|"%char then LF else c) s.


(** ** Values of the structured formats *)

(** An array index is the decimal numeral, without a leading zero, of
    an integer below 2^32 - 1; [Object.keys] lists such keys first. *)
Definition digit_value (c : ascii) : option N :=
  let n := N_of_ascii c in
  if ((48 <=? n) && (n <=? 57))%N then Some (n - 48)%N else None.

Fixpoint decimal_value (acc : N) (s : string) : option N :=
  match s with
  | EmptyString => Some acc
  | String c s' =>
      match digit_value c with
      | Some d => decimal_value (acc * 10 + d)%N s'
      | None => None
      end
  end.

Definition array_index (k : string) : option N :=
  match k with
  | EmptyString => None
  | String c rest =>
      if Ascii.eqb c "0"%char && nonempty rest then None
      else match decimal_value 0 k with
           | Some n => if (n <? 4294967295)%N then Some n else None
           | None => None
           end
  end.

(** [key_precedes k k']: a property [k] created now is listed by
    [Object.keys] in front of the property [k'] that exists already. *)
Definition key_precedes (k k' : string) : bool :=
  match array_index k, array_index k' with
  | Some a, Some b => (a <? b)%N
  | Some _, None => true
  | None, _ => false
  end.

(** The property names of [Object.prototype].  Every object the merges
    handle inherits them: [key in obj] holds for each of them whether
    or not [obj] has the key itself. *)
Definition prototype_names : list string :=
  ["constructor"; "__defineGetter__"; "__defineSetter__"; "hasOwnProperty";
   "__lookupGetter__"; "__lookupSetter__"; "isPrototypeOf";
   "propertyIsEnumerable"; "toString"; "valueOf"; "__proto__"; "toLocaleString"].

Definition inherited (k : string) : bool := bool_decide (k ∈ prototype_names).

(** The one accessor among them: assigning to it stores no property. *)
Definition PROTO : string := "__proto__".

Section Engine.

(** Host numbers and the host functions used by the module. *)
Context {number : Type}.
Variable Number : string → number.
Variable isNaN : number → bool.
Variable String_of_number : number → string.

#[local] Unset Elimination Schemes.
Inductive value : Type :=
| VNull
| VBool (b : bool)
| VNum (n : number)
| VStr (s : string)
| VArr (items : list value)
| VObj (props : list (string * value)).
#[local] Set Elimination Schemes.

(** [Record<string, unknown>]: the own properties in [Object.keys] order. *)
#[local] Abbreviation obj := (list (string * value)).

(** [typeof v === "object" && v !== null && !Array.isArray(v)] *)
Definition is_mapping (v : value) : bool :=
  match v with VObj _ => true | _ => false end.

(** [o[k]] for a property that [o] has itself. *)
Fixpoint obj_get (o : obj) (k : string) : option value :=
  match o with
  | [] => None
  | (k', v) :: o' => if decide (k = k') then Some v else obj_get o' k
  end.

(** [o] has the property [k] itself.  For a key that is not a property
    name of [Object.prototype] this is [k in o]. *)
Definition obj_has (o : obj) (k : string) : bool :=
  match obj_get o k with Some _ => true | None => false end.

Fixpoint obj_replace (k : string) (v : value) (o : obj) : obj :=
  match o with
  | [] => []
  | (k', v') :: o' =>
      if decide (k = k') then (k', v) :: o' else (k', v') :: obj_replace k v o'
  end.

Fixpoint obj_insert (k : string) (v : value) (o : obj) : obj :=
  match o with
  | [] => [(k, v)]
  | (k', v') :: o' =>
      if key_precedes k k' then (k, v) :: o else (k', v') :: obj_insert k v o'
  end.

(** [o[k] = v] for a key other than [__proto__]: an existing property
    keeps its place, a new one is created at the place [Object.keys]
    gives it. *)
Definition obj_set (o : obj) (k : string) (v : value) : obj :=
  if obj_has o k then obj_replace k v o else obj_insert k v o.

(** [Object.keys(o)] *)
Definition keys (o : obj) : list string := o.*1.

(** [path ? `${path}.${key}` : key] *)
Definition fullPath (path key : string) : string :=
  if nonempty path then path +:+ "." +:+ key else key.

(** *** YAML subset: scalars *)

(** [value.slice(1, -1)] *)
Definition slice_1_m1 (s : string) : string :=
  match s with
  | EmptyString => EmptyString
  | String _ s' => str_take (String.length s' - 1) s'
  end.

Definition is_quoted (v : string) : bool :=
  (startsWith (str1 DQUOTE) v && endsWith (str1 DQUOTE) v)
  || (startsWith (str1 SQUOTE) v && endsWith (str1 SQUOTE) v).

Definition parseYamlValue (v : string) : value :=
  if is_quoted v then VStr (slice_1_m1 v)
  else if bool_decide (v = "true") || bool_decide (v = "True")
          || bool_decide (v = "TRUE") then VBool true
  else if bool_decide (v = "false") || bool_decide (v = "False")
          || bool_decide (v = "FALSE") then VBool false
  else if bool_decide (v = "null") || bool_decide (v = "~")
          || bool_decide (v = "") then VNull
  else
    let num := Number v in
    if negb (isNaN num) && negb (bool_decide (v = "")) then VNum num
    else VStr v.

(** *** YAML subset: documents

    An assignment [obj[key] = v] is read as storing the property: the
    parser is modelled for texts without the key [__proto__]. *)

(** A frame of the parser's stack.  The object of a frame is never
    detached from the result while the frame is on the stack, so the
    frame holds the path of keys that leads from the root to it. *)
Record frame := {
  f_indent : Z;
  f_path : list string;
  f_key : option string;
}.

(** Apply [f] to the object reached from [o] through [path]. *)
Fixpoint update_at (o : obj) (path : list string) (f : obj → obj) : obj :=
  match path with
  | [] => f o
  | k :: path' =>
      match obj_get o k with
      | Some (VObj o') => obj_set o k (VObj (update_at o' path' f))
      | _ => o
      end
  end.

(** [while (stack.length > 1 && top.indent >= indent) stack.pop()];
    the stack is kept with its top first. *)
Fixpoint pop_frames (indent : Z) (stack : list frame) : list frame :=
  match stack with
  | top :: (_ :: _) as below =>
      if (indent <=? f_indent top)%Z then pop_frames indent below else stack
  | _ => stack
  end.

(** [if (!Array.isArray(o[k])) o[k] = []; o[k].push(v)] *)
Definition push_item (k : string) (v : value) (o : obj) : obj :=
  match obj_get o k with
  | Some (VArr items) => obj_set o k (VArr (items ++ [v]))
  | _ => obj_set o k (VArr [v])
  end.

Definition yaml_line (st : obj * list frame) (line : string) : obj * list frame :=
  let '(result, stack) := st in
  if is_blank line || startsWith "#" (trim line) then st
  else
    let indent := Z.of_nat (String.length (take_while is_ws line)) in
    let trimmedLine := trim line in
    if startsWith "- " trimmedLine then
      let v := trim (str_drop 2 trimmedLine) in
      let stack := pop_frames indent stack in
      match stack with
      | {| f_path := p; f_key := Some k |} :: _ =>
          (update_at result p (push_item k (parseYamlValue v)), stack)
      | _ => (result, stack)
      end
    else
      match indexOf ":" trimmedLine with
      | Some (S n) =>
          let colonIndex := S n in
          let key := trim (str_take colonIndex trimmedLine) in
          let valueStr := trim (str_drop (S colonIndex) trimmedLine) in
          let stack := pop_frames indent stack in
          match stack with
          | top :: _ =>
              if bool_decide (valueStr = "") || bool_decide (valueStr = "|")
                 || bool_decide (valueStr = ">")
              then (update_at result (f_path top) (λ o, obj_set o key (VObj [])),
                    {| f_indent := indent; f_path := f_path top ++ [key];
                       f_key := Some key |} :: stack)
              else (update_at result (f_path top)
                      (λ o, obj_set o key (parseYamlValue valueStr)), stack)
          | [] => (result, stack)
          end
      | _ => st
      end.

Definition parseSimpleYaml (text : string) : obj :=
  fst (fold_left yaml_line (split LF text)
         ([], [{| f_indent := -1; f_path := []; f_key := None |}])).

(** *** YAML subset: serializer *)

(** [String(v)] *)
Fixpoint js_String (v : value) : string :=
  match v with
  | VNull => "null"
  | VBool b => if b then "true" else "false"
  | VNum n => String_of_number n
  | VStr s => s
  | VArr items =>
      join "," ((λ i, match i with VNull => "" | _ => js_String i end) <$> items)
  | VObj _ => "[object Object]"
  end.

Definition includes (c : ascii) (s : string) : bool :=
  str_existsb (Ascii.eqb c) s.

(** [s.replace(/"/g, '\\"')] *)
Fixpoint escape_quotes (s : string) : string :=
  match s with
  | EmptyString => EmptyString
  | String c s' =>
      if Ascii.eqb c DQUOTE then String BACKSLASH (String DQUOTE (escape_quotes s'))
      else String c (escape_quotes s')
  end.

Definition formatYamlValue (v : value) : string :=
  match v with
  | VNull => "null"
  | VBool b => if b then "true" else "false"
  | VNum n => String_of_number n
  | VStr s =>
      if includes ":" s || includes "#" s || includes LF s
         || startsWith " " s || endsWith " " s || bool_decide (s = "")
         || startsWith "{" s || startsWith "[" s
      then str1 DQUOTE +:+ escape_quotes s +:+ str1 DQUOTE
      else s
  | _ => js_String v
  end.

(** The lines of one array item. *)
Definition yaml_item_lines (spaces : string) (item : value) : list string :=
  match item with
  | VObj [] => [spaces +:+ "- {}"]
  | VObj ((k0, v0) :: entries) =>
      (spaces +:+ "- " +:+ k0 +:+ ": " +:+ formatYamlValue v0)
      :: ((λ e : string * value,
             spaces +:+ "  " +:+ e.1 +:+ ": " +:+ formatYamlValue e.2) <$> entries)
  | _ => [spaces +:+ "- " +:+ formatYamlValue item]
  end.

Fixpoint stringifyYaml (v : value) (indent : nat) : string :=
  let spaces := str_repeat "  " indent in
  match v with
  | VNull => "null"
  | VBool _ | VNum _ | VStr _ => formatYamlValue v
  | VArr [] => "[]"
  | VArr items => join (str1 LF) (items ≫= yaml_item_lines spaces)
  | VObj record =>
      join (str1 LF)
        (record ≫= λ e : string * value,
           match e.2 with
           | VArr [] => [spaces +:+ e.1 +:+ ": []"]
           | VArr _ => [spaces +:+ e.1 +:+ ":"; stringifyYaml e.2 (S indent)]
           | VObj props =>
               let nested := stringifyYaml e.2 (S indent) in
               if includes LF nested || (0 <? length props)%nat
               then [spaces +:+ e.1 +:+ ":"; nested]
               else [spaces +:+ e.1 +:+ ": {}"]
           | _ => [spaces +:+ e.1 +:+ ": " +:+ formatYamlValue e.2]
           end)
  end.

(** *** Deep merge, YAML path

    [key in existing], [key in generated] and the assignments to
    [result] are read on own properties: the function is modelled for
    mappings without a key that is a property name of
    [Object.prototype]. *)

#[local] Abbreviation merge_out := (obj * list string * list string)%type.

(** First loop of [deepMergePreserveExisting], over [Object.keys(generated)];
    [rec] is the function itself, called on the two nested objects. *)
Fixpoint merge_generated_keys
    (rec : value → obj → string → list string → list string → merge_out)
    (existing : obj) (path : string) (gs : obj)
    (result : obj) (preserved added : list string) : merge_out :=
  match gs with
  | [] => (result, preserved, added)
  | (key, vg) :: gs' =>
      let fp := fullPath path key in
      match obj_get existing key with
      | None =>
          merge_generated_keys rec existing path gs'
            (obj_set result key vg) preserved (added ++ [fp])
      | Some ve =>
          match ve with
          | VObj eo =>
              if is_mapping vg then
                let '(r, p, a) := rec vg eo fp preserved added in
                merge_generated_keys rec existing path gs'
                  (obj_set result key (VObj r)) p a
              else
                merge_generated_keys rec existing path gs'
                  (obj_set result key ve) (preserved ++ [fp]) added
          | _ =>
              merge_generated_keys rec existing path gs'
                (obj_set result key ve) (preserved ++ [fp]) added
          end
      end
  end.

(** Second loop: the keys of [existing] that [generated] does not have. *)
Definition mark_remaining (existing generated : obj) (path : string)
    (preserved : list string) : list string :=
  fold_left (λ pres key,
               if obj_has generated key then pres else pres ++ [fullPath path key])
            (keys existing) preserved.

(** The function on the generated object as a value, the form in which
    the recursion is structural. *)
Fixpoint deepMergePreserveExisting_rec (g : value) (existing : obj) (path : string)
    (preserved added : list string) {struct g} : merge_out :=
  match g with
  | VObj generated =>
      let '(result, preserved, added) :=
        merge_generated_keys deepMergePreserveExisting_rec existing path
          generated existing preserved added in
      (result, mark_remaining existing generated path preserved, added)
  | _ => (existing, preserved, added)
  end.

Definition deepMergePreserveExisting (existing generated : obj) (path : string)
    (preserved added : list string) : merge_out :=
  deepMergePreserveExisting_rec (VObj generated) existing path preserved added.

(** *** Key collection *)

Fixpoint collect_props (rec : value → string → list string → list string)
    (path : string) (props : obj) (ks : list string) : list string :=
  match props with
  | [] => ks
  | (key, v) :: props' =>
      let fp := fullPath path key in
      let ks := ks ++ [fp] in
      collect_props rec path props' (if is_mapping v then rec v fp ks else ks)
  end.

(** [Object.entries] of an array: its items under their indices,
    written in decimal, from [i] on. *)
Fixpoint indexed (i : N) (items : list value) : obj :=
  match items with
  | [] => []
  | v :: items' => (pretty i, v) :: indexed (N.succ i) items'
  end.

(** The same loop over the items of an array, which [Object.keys]
    lists by index. *)
Fixpoint collect_items (rec : value → string → list string → list string)
    (path : string) (i : N) (items : list value) (ks : list string) : list string :=
  match items with
  | [] => ks
  | v :: items' =>
      let fp := fullPath path (pretty i) in
      let ks := ks ++ [fp] in
      collect_items rec path (N.succ i) items'
        (if is_mapping v then rec v fp ks else ks)
  end.

(** Only [null] and the values that are not objects are turned away:
    an array at the root is walked by index; the recursion enters
    plain objects only. *)
Fixpoint collectKeys (v : value) (path : string) (ks : list string) : list string :=
  match v with
  | VObj record => collect_props collectKeys path record ks
  | VArr items => collect_items collectKeys path 0 items ks
  | _ => ks
  end.

(** [[...new Set(l)]]: the first occurrence of every element, in order. *)
Definition unique (l : list string) : list string :=
  fold_left (λ seen x, if bool_decide (x ∈ seen) then seen else seen ++ [x]) l [].

Definition mergeYaml (existing generated : string) : MergeResult :=
  if is_blank existing then
    {| content := trim generated +:+ str1 LF; preserved := [];
       added := collectKeys (VObj (parseSimpleYaml generated)) "" [] |}
  else if is_blank generated then
    {| content := trim existing +:+ str1 LF;
       preserved := collectKeys (VObj (parseSimpleYaml existing)) "" [];
       added := [] |}
  else
    let '(merged, pres, add) :=
      deepMergePreserveExisting (parseSimpleYaml existing)
        (parseSimpleYaml generated) "" [] [] in
    {| content := stringifyYaml (VObj merged) 0 +:+ str1 LF;
       preserved := unique pres;
       added := unique add |}.

(** *** Deep merge, JSON path *)

(** [key in o] for an object whose prototype is [Object.prototype], as
    every object that [JSON.parse] builds: the keys it has itself and
    the property names it inherits. *)
Definition parsed_has (o : obj) (k : string) : bool := obj_has o k || inherited k.

(** What [deepMergeJson] is handed as [generated]: an object that
    [JSON.parse] built, or [Object.prototype] itself, which is what
    [generated["__proto__"]] reads on an object without that key. *)
Inductive target : Type :=
| Parsed (props : obj)
| ObjectPrototype.

(** [Object.keys(generated)] with the values; no property of
    [Object.prototype] is enumerable. *)
Definition target_props (t : target) : obj :=
  match t with Parsed props => props | ObjectPrototype => [] end.

(** [key in generated] *)
Definition target_has (t : target) (k : string) : bool :=
  match t with
  | Parsed props => parsed_has props k
  | ObjectPrototype => inherited k
  end.

(** [generated[key]] when it passes the test
    [typeof v === "object" && v !== null && !Array.isArray(v)].  A key
    that [generated] has itself passes with a plain object.  Of the
    inherited properties only [__proto__] passes, on a parsed object:
    its getter returns the prototype, [Object.prototype]; the others
    are functions, and [Object.prototype.__proto__] is [null]. *)
Definition target_mapping (t : target) (k : string) : option target :=
  match t with
  | Parsed props =>
      match obj_get props k with
      | Some (VObj go) => Some (Parsed go)
      | Some _ => None
      | None => if decide (k = PROTO) then Some ObjectPrototype else None
      end
  | ObjectPrototype => None
  end.

(** [result[key] = v] on the object that [deepMergeJson] builds.  It
    starts as [{}] and never has a property [__proto__] of its own, so
    for this key the assignment runs the setter inherited from
    [Object.prototype]: no property is stored (an object [v] becomes the
    prototype of [result], which [Object.keys] and [JSON.stringify] do
    not read).  Every other key becomes, or stays, an own property. *)
Definition result_set (result : obj) (key : string) (v : value) : obj :=
  if decide (key = PROTO) then result else obj_set result key v.

(** First loop of [deepMergeJson], over [Object.keys(existing)]. *)
Fixpoint merge_existing_keys
    (rec : value → target → string → list string → list string → merge_out)
    (generated : target) (path : string) (es : obj)
    (result : obj) (preserved added : list string) : merge_out :=
  match es with
  | [] => (result, preserved, added)
  | (key, ve) :: es' =>
      let fp := fullPath path key in
      if negb (target_has generated key) then
        merge_existing_keys rec generated path es'
          (result_set result key ve) (preserved ++ [fp]) added
      else
        match target_mapping generated key with
        | Some go =>
            if is_mapping ve then
              let '(r, p, a) := rec ve go fp preserved added in
              merge_existing_keys rec generated path es'
                (result_set result key (VObj r)) p a
            else
              merge_existing_keys rec generated path es'
                (result_set result key ve) (preserved ++ [fp]) added
        | None =>
            merge_existing_keys rec generated path es'
              (result_set result key ve) (preserved ++ [fp]) added
        end
  end.

(** Second loop: the keys of [generated] that are not [in existing]. *)
Definition add_new_keys (existing : obj) (generated : target) (path : string)
    (result : obj) (added : list string) : obj * list string :=
  fold_left (λ (st : obj * list string) (e : string * value),
               if parsed_has existing e.1 then st
               else (result_set st.1 e.1 e.2, st.2 ++ [fullPath path e.1]))
            (target_props generated) (result, added).

Fixpoint deepMergeJson_rec (e : value) (generated : target) (path : string)
    (preserved added : list string) {struct e} : merge_out :=
  match e with
  | VObj existing =>
      let '(result, preserved, added) :=
        merge_existing_keys deepMergeJson_rec generated path
          existing [] preserved added in
      let '(result, added) := add_new_keys existing generated path result added in
      (result, preserved, added)
  | _ => ([], preserved, added)
  end.

(** [mergeJson] calls the function on two parsed objects. *)
Definition deepMergeJson (existing generated : obj) (path : string)
    (preserved added : list string) : merge_out :=
  deepMergeJson_rec (VObj existing) (Parsed generated) path preserved added.

(** *** JSON merge *)

(** [JSON.parse], [None] when it throws, and [JSON.stringify(v, null, 2)].
    Every [try] of [mergeJson] has its [catch], so the function returns
    a result on every input. *)
Variable JSON_parse : string → option value.
Variable JSON_stringify : value → string.

Definition PARSE_ERROR : string := "(parse error - kept existing)".
Definition ROOT : string := "(root)".

Definition mergeJson (existing generated : string) : MergeResult :=
  if is_blank existing then
    match JSON_parse generated with
    | Some genObj =>
        {| content := JSON_stringify genObj +:+ str1 LF; preserved := [];
           added := collectKeys genObj "" [] |}
    | None => {| content := generated; preserved := []; added := [] |}
    end
  else if is_blank generated then
    match JSON_parse existing with
    | Some existObj =>
        {| content := JSON_stringify existObj +:+ str1 LF;
           preserved := collectKeys existObj "" []; added := [] |}
    | None => {| content := existing; preserved := []; added := [] |}
    end
  else
    match JSON_parse existing, JSON_parse generated with
    | Some existingObj, Some generatedObj =>
        match existingObj, generatedObj with
        | VObj eo, VObj go =>
            let '(merged, pres, add) := deepMergeJson eo go "" [] [] in
            {| content := JSON_stringify (VObj merged) +:+ str1 LF;
               preserved := pres; added := add |}
        | VObj _, _ =>
            {| content := JSON_stringify existingObj +:+ str1 LF;
               preserved := collectKeys existingObj "" []; added := [] |}
        | _, _ =>
            {| content := JSON_stringify existingObj +:+ str1 LF;
               preserved := [ROOT]; added := [] |}
        end
    | _, _ => {| content := existing; preserved := [PARSE_ERROR]; added := [] |}
    end.

End Engine.

Arguments value : clear implicits.
Arguments target : clear implicits.

Abbreviation obj number := (list (string * value number)).
Abbreviation merge_out number := (obj number * list string * list string)%type.

(** ** A reference host

    Numbers are integers ([None] is NaN).  [Number] reads an optionally
    signed decimal numeral; the JSON functions cover [null], the
    booleans, integers, strings without escape sequences, arrays and
    objects.  On the texts they accept they agree with the host; other
    texts are rejected. *)
Module Ref.

Definition number : Type := option Z.

Definition isNaN (n : number) : bool :=
  match n with None => true | Some _ => false end.

Definition digits (s : string) : option Z :=
  if nonempty s then Z.of_N <$> decimal_value 0 s else None.

Definition Number (s : string) : number :=
  match trim s with
  | EmptyString => Some 0%Z
  | String c rest as t =>
      if Ascii.eqb c "-"%char then Z.opp <$> digits rest
      else if Ascii.eqb c "+"%char then digits rest
      else digits t
  end.

Fixpoint digits_of (fuel : nat) (n : N) (acc : string) : string :=
  match fuel with
  | O => acc
  | S fuel' =>
      let acc := String (ascii_of_N (48 + n mod 10)) acc in
      if (n <? 10)%N then acc else digits_of fuel' (n / 10) acc
  end.

Definition String_of_number (n : number) : string :=
  match n with
  | None => "NaN"
  | Some z =>
      let a := Z.to_N (Z.abs z) in
      let d := digits_of (S (N.to_nat (N.log2 a))) a "" in
      if (z <? 0)%Z then String "-"%char d else d
  end.

Definition json_ws (c : ascii) : bool :=
  let n := N_of_ascii c in ((n =? 32) || (n =? 9) || (n =? 10) || (n =? 13))%N.

Definition is_digit (c : ascii) : bool :=
  match digit_value c with Some _ => true | None => false end.

(** A JSON integer: an optional [-], then [0] or a numeral without leading zero. *)
Definition parse_int (s : string) : option (Z * string) :=
  let neg := startsWith "-" s in
  let s1 := if neg then str_drop 1 s else s in
  let ds := take_while is_digit s1 in
  let rest := drop_while is_digit s1 in
  match ds with
  | EmptyString => None
  | String c more =>
      if Ascii.eqb c "0"%char && nonempty more then None
      else match rest with
           | String c' _ =>
               if Ascii.eqb c' "."%char || Ascii.eqb c' "e"%char
                  || Ascii.eqb c' "E"%char then None
               else (λ n, ((if neg then - Z.of_N n else Z.of_N n)%Z, rest))
                      <$> decimal_value 0 ds
           | EmptyString =>
               (λ n, ((if neg then - Z.of_N n else Z.of_N n)%Z, rest))
                 <$> decimal_value 0 ds
           end
  end.

Definition plain_char (c : ascii) : bool :=
  let n := N_of_ascii c in
  (32 <=? n)%N && negb (Ascii.eqb c DQUOTE) && negb (Ascii.eqb c BACKSLASH).

(** A string literal without escape sequences, after its opening quote. *)
Definition parse_string (s : string) : option (string * string) :=
  match drop_while plain_char s with
  | String c rest =>
      if Ascii.eqb c DQUOTE then Some (take_while plain_char s, rest) else None
  | EmptyString => None
  end.

Definition skip (s : string) : string := drop_while json_ws s.

Fixpoint parse_value (fuel : nat) (s : string) : option (value number * string) :=
  match fuel with
  | O => None
  | S fuel' =>
      match skip s with
      | EmptyString => None
      | String c rest as t =>
          if Ascii.eqb c "{"%char then
            match skip rest with
            | String c' rest' =>
                if Ascii.eqb c' "}"%char then Some (VObj [], rest')
                else parse_members fuel' (skip rest) []
            | EmptyString => None
            end
          else if Ascii.eqb c "["%char then
            match skip rest with
            | String c' rest' =>
                if Ascii.eqb c' "]"%char then Some (VArr [], rest')
                else parse_elements fuel' rest []
            | EmptyString => None
            end
          else if Ascii.eqb c DQUOTE then
            (λ r : string * string, (VStr r.1, r.2)) <$> parse_string rest
          else if startsWith "null" t then Some (VNull, str_drop 4 t)
          else if startsWith "true" t then Some (VBool true, str_drop 4 t)
          else if startsWith "false" t then Some (VBool false, str_drop 5 t)
          else (λ r : Z * string, (VNum (Some r.1), r.2)) <$> parse_int t
      end
  end
with parse_elements (fuel : nat) (s : string) (acc : list (value number))
  : option (value number * string) :=
  match fuel with
  | O => None
  | S fuel' =>
      match parse_value fuel' s with
      | Some (v, rest) =>
          match skip rest with
          | String c rest' =>
              if Ascii.eqb c ","%char then parse_elements fuel' rest' (acc ++ [v])
              else if Ascii.eqb c "]"%char then Some (VArr (acc ++ [v]), rest')
              else None
          | EmptyString => None
          end
      | None => None
      end
  end
with parse_members (fuel : nat) (s : string) (acc : obj number)
  : option (value number * string) :=
  match fuel with
  | O => None
  | S fuel' =>
      match s with
      | String q rest =>
          if Ascii.eqb q DQUOTE then
            match parse_string rest with
            | Some (key, rest1) =>
                match skip rest1 with
                | String c rest2 =>
                    if Ascii.eqb c ":"%char then
                      match parse_value fuel' rest2 with
                      | Some (v, rest3) =>
                          match skip rest3 with
                          | String c' rest4 =>
                              if Ascii.eqb c' ","%char then
                                parse_members fuel' (skip rest4) (obj_set acc key v)
                              else if Ascii.eqb c' "}"%char then
                                Some (VObj (obj_set acc key v), rest4)
                              else None
                          | EmptyString => None
                          end
                      | None => None
                      end
                    else None
                | EmptyString => None
                end
            | None => None
            end
          else None
      | EmptyString => None
      end
  end.

Definition JSON_parse (s : string) : option (value number) :=
  match parse_value (S (String.length s)) s with
  | Some (v, rest) => if nonempty (skip rest) then None else Some v
  | None => None
  end.

Definition quote (s : string) : string :=
  str1 DQUOTE +:+ s +:+ str1 DQUOTE.

(** [JSON.stringify(v, null, 2)] *)
Fixpoint stringify_at (indent : nat) (v : value number) : string :=
  let inner := str_repeat "  " (S indent) in
  let sep := "," +:+ str1 LF in
  match v with
  | VNull => "null"
  | VBool b => if b then "true" else "false"
  | VNum None => "null"
  | VNum n => String_of_number n
  | VStr s => quote s
  | VArr [] => "[]"
  | VArr items =>
      "[" +:+ str1 LF
      +:+ join sep ((λ i, inner +:+ stringify_at (S indent) i) <$> items)
      +:+ str1 LF +:+ str_repeat "  " indent +:+ "]"
  | VObj [] => "{}"
  | VObj props =>
      "{" +:+ str1 LF
      +:+ join sep ((λ e : string * value number,
                       inner +:+ quote e.1 +:+ ": " +:+ stringify_at (S indent) e.2)
                    <$> props)
      +:+ str1 LF +:+ str_repeat "  " indent +:+ "}"
  end.

Definition JSON_stringify (v : value number) : string := stringify_at 0 v.

Definition parseYamlValue := parseYamlValue Number isNaN.
Definition parseSimpleYaml := parseSimpleYaml Number isNaN.
Definition mergeYaml := mergeYaml Number isNaN String_of_number.
Definition mergeJson := mergeJson JSON_parse JSON_stringify.

(** [js s] is [s] with every ['] replaced by a double quote. *)
Definition js (s : string) : string :=
  str_map (λ c, if Ascii.eqb c SQUOTE then DQUOTE else c) s.

End Ref.

(** * Notions used in the statements *)

(** ** Sectioned documents *)

(** The section the index holds for a key: the last one of that key. *)
Definition find_section (es : list MarkdownSection) (k : string)
  : option MarkdownSection :=
  last (filter (λ e, section_key e = k) es).

(** What a generated section contributes to the output: the text of
    the existing section of its key, or its own text. *)
Definition emitted (es : list MarkdownSection) (g : MarkdownSection) : string :=
  match find_section es (section_key g) with
  | Some e => MarkdownSection.fullText e
  | None => MarkdownSection.fullText g
  end.

(** The section order of the specification: the generated sections in
    order, each replaced by its match, then the existing sections whose
    key no generated section has, as far as [appendable] admits them. *)
Definition spec_section_order (appendable : MarkdownSection → Prop)
    `{!∀ e, Decision (appendable e)} (es gs : list MarkdownSection) : list string :=
  (emitted es <$> gs)
  ++ (MarkdownSection.fullText
        <$> filter (λ e, (section_key e ∉ section_key <$> gs) ∧ appendable e) es).

Definition titled (e : MarkdownSection) : Prop := MarkdownSection.header e ≠ PREAMBLE.

Global Instance titled_dec e : Decision (titled e).
Proof. unfold titled; apply _. Defined.

(** The first loop, in closed form. *)
Definition preserved_of (es : list MarkdownSection) (g : MarkdownSection) : list string :=
  match find_section es (section_key g) with
  | Some e => if is_preamble e then [] else [MarkdownSection.header e]
  | None => []
  end.

Definition added_of (es : list MarkdownSection) (g : MarkdownSection) : list string :=
  match find_section es (section_key g) with
  | Some _ => []
  | None => if is_preamble g then [] else [MarkdownSection.header g]
  end.


(** The lines that follow a header line up to the next header line. *)
Fixpoint body_lines (lines : list string) : list string :=
  match lines with
  | [] => []
  | l :: ls =>
      match headerRegex l with
      | Some _ => []
      | None => l :: body_lines ls
      end
  end.

(** The spans of the headed sections of a document: every header line
    with the lines that follow it up to the next header line. *)
Fixpoint header_groups (lines : list string) : list (string * list string) :=
  match lines with
  | [] => []
  | l :: ls =>
      match headerRegex l with
      | Some _ => (l, body_lines ls) :: header_groups ls
      | None => header_groups ls
      end
  end.


Definition section_of_group (g : string * list string) : MarkdownSection :=
  close_section
    {| MarkdownSection.header :=
         match headerRegex g.1 with Some (_, text) => trim text | None => "" end;
       MarkdownSection.level :=
         match headerRegex g.1 with Some (lvl, _) => lvl | None => 0 end;
       MarkdownSection.rawHeader := g.1;
       MarkdownSection.content := "";
       MarkdownSection.fullText := "" |}
    g.2.

Definition finish (st : scan) : list MarkdownSection :=
  match currentSection st with
  | Some cur => sections st ++ [close_section cur (contentLines st)]
  | None => sections st
  end.





(** ** Provenance lists, keys and paths *)

Definition yaml_keywords : list string :=
  ["true"; "True"; "TRUE"; "false"; "False"; "FALSE"; "null"; "~"; ""].

(** The first occurrence of every element of a list, in order. *)
Fixpoint first_occurrences (l : list string) : list string :=
  match l with
  | [] => []
  | x :: l' => x :: filter (λ y, y ≠ x) (first_occurrences l')
  end.


(** A list of keys is in the order of [Object.keys]: no key would be
    listed in front of a key that stands before it. *)
Fixpoint own_order (ks : list string) : bool :=
  match ks with
  | [] => true
  | k :: ks' => forallb (λ k', negb (key_precedes k' k)) ks' && own_order ks'
  end.

(** A key that can be told apart inside a dotted path: it is not empty
    and has no dot. *)
Definition clean_key (k : string) : bool := nonempty k && negb (includes "." k).

(** The text [fullPath] puts in front of a key. *)
Definition path_prefix (path : string) : string :=
  if nonempty path then path +:+ "." else "".

(** [s] is the path of the key [k] under [path], or of something below it. *)
Definition below (path k s : string) : Prop :=
  s = fullPath path k ∨ ∃ r, s = fullPath path k +:+ "." +:+ r.

Definition under (path s : string) : Prop := ∃ k, below path k s.

(** ** Values and the deep merges *)

Section Notions.
Context {number : Type}.

(** Induction on values, through arrays and objects. *)
Fixpoint value_ind' (P : value number → Prop)
    (Hnull : P VNull) (Hbool : ∀ b, P (VBool b)) (Hnum : ∀ n, P (VNum n))
    (Hstr : ∀ s, P (VStr s))
    (Harr : ∀ items, Forall P items → P (VArr items))
    (Hobj : ∀ props, Forall (λ x, P x.2) props → P (VObj props))
    (v : value number) {struct v} : P v :=
  match v with
  | VNull => Hnull
  | VBool b => Hbool b
  | VNum n => Hnum n
  | VStr s => Hstr s
  | VArr items =>
      Harr items
        ((fix go (l : list (value number)) : Forall P l :=
            match l with
            | [] => List.Forall_nil P
            | x :: l' =>
                List.Forall_cons P x l'
                  (value_ind' P Hnull Hbool Hnum Hstr Harr Hobj x) (go l')
            end) items)
  | VObj props =>
      Hobj props
        ((fix go (l : list (string * value number)) : Forall (λ x, P x.2) l :=
            match l with
            | [] => List.Forall_nil _
            | x :: l' =>
                List.Forall_cons (λ x, P x.2) x l'
                  (value_ind' P Hnull Hbool Hnum Hstr Harr Hobj x.2) (go l')
            end) props)
  end.

(** *** The JSON merge read with own properties only

    The two loops of [deepMergeJson] with [key in obj] read as "[obj]
    has the key itself" and every assignment storing a property.  This
    is what the function computes when it meets no inherited property
    name; the YAML merge is compared with it. *)

Fixpoint own_existing_keys
    (rec : value number → obj number → string → list string → list string
           → merge_out number)
    (generated : obj number) (path : string) (es : obj number)
    (result : obj number) (preserved added : list string) : merge_out number :=
  match es with
  | [] => (result, preserved, added)
  | (key, ve) :: es' =>
      let fp := fullPath path key in
      match obj_get generated key with
      | None =>
          own_existing_keys rec generated path es'
            (obj_set result key ve) (preserved ++ [fp]) added
      | Some vg =>
          match vg with
          | VObj go =>
              if is_mapping ve then
                let '(r, p, a) := rec ve go fp preserved added in
                own_existing_keys rec generated path es'
                  (obj_set result key (VObj r)) p a
              else
                own_existing_keys rec generated path es'
                  (obj_set result key ve) (preserved ++ [fp]) added
          | _ =>
              own_existing_keys rec generated path es'
                (obj_set result key ve) (preserved ++ [fp]) added
          end
      end
  end.

Definition own_new_keys (existing generated : obj number) (path : string)
    (result : obj number) (added : list string) : obj number * list string :=
  fold_left (λ (st : obj number * list string) (e : string * value number),
               if obj_has existing e.1 then st
               else (obj_set st.1 e.1 e.2, st.2 ++ [fullPath path e.1]))
            generated (result, added).

Fixpoint ownMergeJson_rec (e : value number) (generated : obj number) (path : string)
    (preserved added : list string) {struct e} : merge_out number :=
  match e with
  | VObj existing =>
      let '(result, preserved, added) :=
        own_existing_keys ownMergeJson_rec generated path
          existing [] preserved added in
      let '(result, added) := own_new_keys existing generated path result added in
      (result, preserved, added)
  | _ => ([], preserved, added)
  end.

Definition ownMergeJson (existing generated : obj number) (path : string)
    (preserved added : list string) : merge_out number :=
  ownMergeJson_rec (VObj existing) generated path preserved added.

Definition recursor : Type :=
  value number → obj number → string → list string → list string → merge_out number.

(** [rec] only appends to the two lists it is given. *)
Definition writer (rec : recursor) (x : value number) : Prop :=
  ∀ o path p a,
    rec x o path p a =
      ((rec x o path [] []).1.1,
       p ++ (rec x o path [] []).1.2,
       a ++ (rec x o path [] []).2).

(** What the first loop of [ownMergeJson] does for one property of
    [existing]: the value it stores, and what it records. *)
Definition json_entry (rec : recursor) (g : obj number) (path : string)
    (x : string * value number) : value number * list string * list string :=
  match obj_get g x.1 with
  | Some (VObj go) =>
      if is_mapping x.2 then
        (VObj (rec x.2 go (fullPath path x.1) [] []).1.1,
         (rec x.2 go (fullPath path x.1) [] []).1.2,
         (rec x.2 go (fullPath path x.1) [] []).2)
      else (x.2, [fullPath path x.1], [])
  | _ => (x.2, [fullPath path x.1], [])
  end.

(** The same for the recursion of [deepMergeJson]. *)
Definition target_recursor : Type :=
  value number → target number → string → list string → list string
  → merge_out number.

Definition target_writer (rec : target_recursor) (x : value number) : Prop :=
  ∀ t path p a,
    rec x t path p a =
      ((rec x t path [] []).1.1,
       p ++ (rec x t path [] []).1.2,
       a ++ (rec x t path [] []).2).

(** What the first loop of [deepMergeJson] does for one property of
    [existing]: the value it assigns, and what it records. *)
Definition merge_entry (rec : target_recursor) (g : target number) (path : string)
    (x : string * value number) : value number * list string * list string :=
  if target_has g x.1 then
    match target_mapping g x.1 with
    | Some go =>
        if is_mapping x.2 then
          (VObj (rec x.2 go (fullPath path x.1) [] []).1.1,
           (rec x.2 go (fullPath path x.1) [] []).1.2,
           (rec x.2 go (fullPath path x.1) [] []).2)
        else (x.2, [fullPath path x.1], [])
    | None => (x.2, [fullPath path x.1], [])
    end
  else (x.2, [fullPath path x.1], []).

(** The properties the second loop of [deepMergeJson] takes from
    [generated]: those whose key is not [in existing]. *)
Definition fresh_entries (e : obj number) (g : target number) : obj number :=
  filter (λ x, parsed_has e x.1 = false) (target_props g).

(** No key, at any depth, is a property name of [Object.prototype]. *)
Fixpoint plain_value (x : value number) : bool :=
  match x with
  | VArr items => forallb plain_value items
  | VObj props => forallb (λ y, negb (inherited y.1) && plain_value y.2) props
  | _ => true
  end.

(** At no level that the merge reaches does the existing object have a
    key [__proto__], or the generated object a key that the existing
    object lacks and that is a property name of [Object.prototype]. *)
Fixpoint own_reading (x : value number) (g : obj number) : bool :=
  match x with
  | VObj e =>
      negb (obj_has e PROTO)
      && forallb (λ y, obj_has e y.1 || negb (inherited y.1)) g
      && forallb (λ y, match obj_get g y.1 with
                       | Some (VObj go) =>
                           if is_mapping y.2 then own_reading y.2 go else true
                       | _ => true
                       end) e
  | _ => true
  end.

(** The keys that only [generated] has. *)
Definition new_entries (e g : obj number) : obj number :=
  filter (λ x, obj_has e x.1 = false) g.

(** What the first loop of [deepMergePreserveExisting] does for one
    property of [generated]. *)
Definition yaml_entry (rec : recursor) (e : obj number) (path : string)
    (x : string * value number) : value number * list string * list string :=
  match obj_get e x.1 with
  | None => (x.2, [], [fullPath path x.1])
  | Some (VObj eo) =>
      if is_mapping x.2 then
        (VObj (rec x.2 eo (fullPath path x.1) [] []).1.1,
         (rec x.2 eo (fullPath path x.1) [] []).1.2,
         (rec x.2 eo (fullPath path x.1) [] []).2)
      else (VObj eo, [fullPath path x.1], [])
  | Some ve => (ve, [fullPath path x.1], [])
  end.

(** The keys that only [existing] has. *)
Definition old_keys (e g : obj number) : list string :=
  filter (λ k, obj_has g k = false) (keys e).

Definition both_mappings (ve vg : value number) : bool :=
  is_mapping ve && is_mapping vg.

(** The values that [JSON.parse] and the YAML parser build: in every
    object the keys are pairwise distinct and in [Object.keys] order. *)
Fixpoint wf_value (x : value number) : bool :=
  match x with
  | VArr items => forallb wf_value items
  | VObj props =>
      bool_decide (NoDup (keys props)) && own_order (keys props)
      && forallb (λ y, wf_value y.2) props
  | _ => true
  end.




(** Every key of every object of the value is clean. *)
Fixpoint clean_value (x : value number) : bool :=
  match x with
  | VArr items => forallb clean_value items
  | VObj props => forallb (λ y, clean_key y.1 && clean_value y.2) props
  | _ => true
  end.

Definition ck_writer (rec : value number → string → list string → list string)
    (x : value number) : Prop :=
  ∀ path ks, rec x path ks = ks ++ rec x path [].

Definition collected (rec : value number → string → list string → list string)
    (path : string) (y : string * value number) : list string :=
  fullPath path y.1
  :: (if is_mapping y.2 then rec y.2 (fullPath path y.1) [] else []).

End Notions.

(** ** Two concrete trees *)

Definition num (z : Z) : value Ref.number := VNum (Some z).

Definition existing_tree : obj Ref.number :=
  [("a", num 1); ("b", VObj [("c", num 2)])].

Definition generated_tree : obj Ref.number :=
  [("a", num 99); ("b", VObj [("c", num 100); ("d", num 3)]); ("e", num 5)].

(** ** Sectioned documents: shape of the parser's result *)

(** A section that a header line opened: its raw header matches the
    header pattern, its level is the number of [#] in front, between 1
    and 6, and its header is the trimmed capture. *)
Definition headed (s : MarkdownSection) : Prop :=
  ∃ text,
    headerRegex (MarkdownSection.rawHeader s) = Some (MarkdownSection.level s, text)
    ∧ MarkdownSection.header s = trim text
    ∧ (1 ≤ MarkdownSection.level s ≤ 6)%nat
    ∧ MarkdownSection.level s
      = String.length (take_while (Ascii.eqb "#"%char) (MarkdownSection.rawHeader s)).

(** No line of the document is a header line. *)
Definition no_header_line (text : string) : Prop :=
  Forall (λ l, headerRegex l = None) (split LF text).

(** A line of a document with CRLF line ends: it ends with a carriage
    return, or it is the empty line after the last line feed. *)
Definition cr_line (l : string) : Prop := l = "" ∨ ∃ l', l = l' +:+ str1 CR.

(** ** Key lists *)

(** [Object.keys] after a property [k] that the object does not have
    is created: it is listed in front of the first key it precedes. *)
Fixpoint key_insert (k : string) (ks : list string) : list string :=
  match ks with
  | [] => [k]
  | k' :: ks' => if key_precedes k k' then k :: ks else k' :: key_insert k ks'
  end.

(** [Object.keys] after the assignment [o[k] = v]. *)
Definition key_set (ks : list string) (k : string) : list string :=
  if bool_decide (k ∈ ks) then ks else key_insert k ks.

(** ** YAML subset: texts that are read back as written *)

(** A line the YAML parser skips: a blank line or a comment. *)
Definition skipped (line : string) : bool :=
  is_blank line || startsWith "#" (trim line).

(** The strings that [formatYamlValue] puts between double quotes. *)
Definition needs_quotes (s : string) : bool :=
  includes ":" s || includes "#" s || includes LF s
  || startsWith " " s || endsWith " " s || bool_decide (s = "")
  || startsWith "{" s || startsWith "[" s.

(** A key that a line [key: value] gives back: it starts with a
    character that is neither white space nor [#] nor [-], it has no
    colon and no line feed, it does not end with white space, and it is
    not [__proto__], under which an assignment stores no property. *)
Definition safe_key (k : string) : bool :=
  match k with
  | EmptyString => false
  | String c _ =>
      negb (is_ws c) && negb (Ascii.eqb c "#"%char) && negb (Ascii.eqb c "-"%char)
  end
  && negb (includes ":" k) && negb (includes LF k) && bool_decide (trimEnd k = k)
  && negb (bool_decide (k = PROTO)).

(** A value text that stands on one line and that [trim] leaves alone. *)
Definition plain_text (t : string) : bool :=
  nonempty t && negb (includes LF t) && bool_decide (trim t = t).

Section YamlNotions.
Context {number : Type}.
Variable Number : string → number.
Variable isNaN : number → bool.
Variable String_of_number : number → string.

(** A scalar whose formatted text is plain and is parsed as the scalar. *)
Definition stable_scalar (v : value number) : Prop :=
  match v with
  | VArr _ | VObj _ => False
  | _ =>
      plain_text (formatYamlValue String_of_number v) = true
      ∧ parseYamlValue Number isNaN (formatYamlValue String_of_number v) = v
  end.

(** The mappings the serializer writes line by line: every key is
    safe, every value is a non-empty mapping of the same kind or a
    stable scalar whose text is not one of the block markers. *)
Definition tree_entry (rec : value number → Prop) (x : string * value number) : Prop :=
  safe_key x.1 = true
  ∧ match x.2 with
    | VObj [] => False
    | VObj _ => rec x.2
    | v =>
        stable_scalar v
        ∧ formatYamlValue String_of_number v ≠ "|"
        ∧ formatYamlValue String_of_number v ≠ ">"
    end.

Fixpoint tree_entries (rec : value number → Prop) (l : obj number) : Prop :=
  match l with
  | [] => True
  | x :: l' => tree_entry rec x ∧ tree_entries rec l'
  end.

Fixpoint yaml_tree (v : value number) : Prop :=
  match v with
  | VObj props => tree_entries yaml_tree props
  | _ => False
  end.

(** The lines [stringifyYaml] writes for such a mapping at depth [n]. *)
Definition entry_lines (rec : nat → value number → list string) (n : nat)
    (x : string * value number) : list string :=
  match x.2 with
  | VObj _ => (str_repeat "  " n +:+ x.1 +:+ ":") :: rec (S n) x.2
  | v => [str_repeat "  " n +:+ x.1 +:+ ": " +:+ formatYamlValue String_of_number v]
  end.

Fixpoint tree_lines (n : nat) (v : value number) : list string :=
  match v with
  | VObj props => props ≫= entry_lines tree_lines n
  | _ => []
  end.

End YamlNotions.

(** * Properties *)

(** ** Strings *)

Lemma prefix_empty s : String.prefix "" s = true.
Proof. by destruct s. Qed.

Lemma startsWith_cons c s : startsWith (str1 c) (String c s) = true.
Proof.
  unfold startsWith, str1; simpl.
  destruct (ascii_dec c c); [apply prefix_empty | done].
Qed.

Lemma endsWith_snoc c a s : endsWith (str1 c) (String a (s +:+ str1 c)) = true.
Proof.
  revert a; induction s as [|b s IH]; intros a; simpl.
  - apply orb_true_iff; right. by rewrite bool_decide_eq_true_2.
  - apply orb_true_iff; right. apply IH.
Qed.

Lemma str_take_app s t : str_take (String.length s) (s +:+ t) = s.
Proof. induction s as [|a s IH]; simpl; [by destruct t | by rewrite IH]. Qed.

Lemma length_snoc s c : String.length (s +:+ str1 c) = S (String.length s).
Proof. induction s as [|a s IH]; simpl; [done | by rewrite IH]. Qed.

Lemma slice_quoted q s : slice_1_m1 (String q (s +:+ str1 q)) = s.
Proof.
  unfold slice_1_m1. rewrite length_snoc. simpl. rewrite Nat.sub_0_r.
  apply str_take_app.
Qed.

(** ** JSON merge: failures and roots that are not objects *)

Section JsonTop.
Context {number : Type}.
Variable JSON_parse : string → option (value number).
Variable JSON_stringify : value number → string.

(** C2 (as amended): when both texts are non-blank and either of them
    fails to parse as JSON, the merge returns the existing text
    unchanged, with the parse-error sentinel as the only preserved
    identifier and nothing added. *)
Theorem mergeJson_parse_failure (existing generated : string) :
  is_blank existing = false →
  is_blank generated = false →
  JSON_parse existing = None ∨ JSON_parse generated = None →
  mergeJson JSON_parse JSON_stringify existing generated =
    {| content := existing;
       preserved := ["(parse error - kept existing)"];
       added := [] |}.
Proof.
  intros He Hg Hfail. unfold mergeJson.
  rewrite He, Hg.
  destruct Hfail as [-> | Hgen]; [done|].
  rewrite Hgen. by destruct (JSON_parse existing).
Qed.

(** C3 (as amended): when both texts parse and a root is not a plain
    object, the content is the serialized existing root and nothing is
    added; [preserved] is the sentinel ["(root)"] when the existing
    root is not an object, and the key paths of the existing root when
    only the generated root is not an object. *)
Theorem mergeJson_non_object_root (existing generated : string)
    (existingObj generatedObj : value number) :
  is_blank existing = false →
  is_blank generated = false →
  JSON_parse existing = Some existingObj →
  JSON_parse generated = Some generatedObj →
  is_mapping existingObj = false ∨ is_mapping generatedObj = false →
  mergeJson JSON_parse JSON_stringify existing generated =
    {| content := JSON_stringify existingObj +:+ str1 LF;
       preserved := if is_mapping existingObj
                    then collectKeys existingObj "" []
                    else ["(root)"];
       added := [] |}.
Proof.
  intros He Hg Hpe Hpg Hroot. unfold mergeJson.
  rewrite He, Hg, Hpe, Hpg.
  destruct existingObj, generatedObj; simpl in *; try done;
    by destruct Hroot.
Qed.

End JsonTop.

(** The concrete failure of the specification: a text that is not JSON
    against a JSON object. *)
Lemma mergeJson_parse_failure_example :
  Ref.mergeJson "{not json" (Ref.js "{'a':1}") =
    {| content := "{not json";
       preserved := ["(parse error - kept existing)"];
       added := [] |}.
Proof.
  apply (mergeJson_parse_failure Ref.JSON_parse Ref.JSON_stringify);
    [vm_compute; reflexivity | vm_compute; reflexivity | left; vm_compute; reflexivity].
Defined.

(** C2 as stated fails when the existing text is empty: it does not
    parse, yet the generated document is returned and no sentinel is
    recorded. *)
Lemma mergeJson_blank_existing_not_fallback :
  Ref.JSON_parse "" = None ∧
  Ref.mergeJson "" (Ref.js "{'a':1}") ≠
    {| content := ""; preserved := ["(parse error - kept existing)"]; added := [] |}.
Proof. split; [reflexivity | vm_compute; discriminate]. Qed.

Lemma mergeJson_non_object_root_example :
  Ref.mergeJson (Ref.js "[1,2]") (Ref.js "{'a':1}") =
    {| content := Ref.JSON_stringify (VArr [VNum (Some 1%Z); VNum (Some 2%Z)]) +:+ str1 LF;
       preserved := ["(root)"];
       added := [] |}.
Proof.
  apply (mergeJson_non_object_root Ref.JSON_parse Ref.JSON_stringify
           (Ref.js "[1,2]") (Ref.js "{'a':1}")
           (VArr [VNum (Some 1%Z); VNum (Some 2%Z)])
           (VObj [("a", VNum (Some 1%Z))]));
    [vm_compute; reflexivity | vm_compute; reflexivity | vm_compute; reflexivity
    | vm_compute; reflexivity | left; reflexivity].
Defined.

(** C3 as stated fails when the existing root is an object and the
    generated root is an array: both parse, yet [preserved] lists the
    keys of the existing object and not the root sentinel. *)
Lemma mergeJson_array_against_object_not_root :
  Ref.JSON_parse (Ref.js "{'a':1}") = Some (VObj [("a", VNum (Some 1%Z))]) ∧
  Ref.JSON_parse "[1]" = Some (VArr [VNum (Some 1%Z)]) ∧
  preserved (Ref.mergeJson (Ref.js "{'a':1}") "[1]") = ["a"] ∧
  preserved (Ref.mergeJson (Ref.js "{'a':1}") "[1]") ≠ ["(root)"].
Proof. repeat split; try reflexivity. vm_compute; discriminate. Qed.

(** ** Section merge *)

Lemma list_filter_iff_elem {A} (P1 P2 : A → Prop)
    `{!∀ x, Decision (P1 x), !∀ x, Decision (P2 x)} (l : list A) :
  (∀ x, x ∈ l → P1 x ↔ P2 x) → filter P1 l = filter P2 l.
Proof.
  induction l as [|a l IH]; intros Hiff; [done|].
  rewrite !filter_cons.
  assert (P1 a ↔ P2 a) as Ha by (apply Hiff; left).
  rewrite IH by (intros x Hx; apply Hiff; by right).
  destruct (decide (P1 a)), (decide (P2 a)); tauto.
Qed.

Lemma is_preamble_titled e : is_preamble e = bool_decide (¬ titled e).
Proof.
  unfold is_preamble, titled. apply bool_decide_ext. split; [tauto|].
  intros H. by destruct (decide (MarkdownSection.header e = PREAMBLE)).
Qed.

Lemma index_sections_go es (m : gmap string MarkdownSection) k :
  fold_left (λ m s, <[section_key s := s]> m) es m !! k =
    match find_section es k with Some e => Some e | None => m !! k end.
Proof.
  revert m. induction es as [|e es IH]; intros m; simpl; [done|].
  rewrite IH. unfold find_section. rewrite filter_cons.
  destruct (decide (section_key e = k)) as [Hk|Hk].
  - rewrite last_cons. destruct (last _); [done|].
    by rewrite Hk, lookup_insert_eq.
  - destruct (last _); [done|]. by rewrite lookup_insert_ne.
Qed.

Lemma index_sections_lookup es k : index_sections es !! k = find_section es k.
Proof.
  unfold index_sections. rewrite index_sections_go, lookup_empty.
  by destruct (find_section es k).
Qed.

Lemma find_section_key es k e : find_section es k = Some e → section_key e = k ∧ e ∈ es.
Proof.
  unfold find_section. intros H%last_Some_elem_of.
  by apply list_elem_of_filter in H.
Qed.

Lemma find_section_elem es e : e ∈ es → is_Some (find_section es (section_key e)).
Proof.
  intros He. unfold find_section. apply last_is_Some.
  intros Hnil. by apply (filter_nil_not_elem_of _ _ e) in Hnil.
Qed.


Lemma merge_generated_step es st g :
  let st' := merge_generated (index_sections es) st g in
  mergedSections st' = mergedSections st ++ [emitted es g]
  ∧ ms_preserved st' = ms_preserved st ++ preserved_of es g
  ∧ ms_added st' = ms_added st ++ added_of es g
  ∧ usedExistingHeaders st' =
      match find_section es (section_key g) with
      | Some _ => {[section_key g]} ∪ usedExistingHeaders st
      | None => usedExistingHeaders st
      end.
Proof.
  unfold merge_generated, emitted, preserved_of, added_of.
  rewrite index_sections_lookup.
  destruct (find_section es (section_key g)) as [e|]; simpl.
  - destruct (is_preamble e); by rewrite ?app_nil_r.
  - destruct (is_preamble g); by rewrite ?app_nil_r.
Qed.

Lemma merge_generated_loop es gs st :
  let st' := fold_left (merge_generated (index_sections es)) gs st in
  mergedSections st' = mergedSections st ++ (emitted es <$> gs)
  ∧ ms_preserved st' = ms_preserved st ++ (gs ≫= preserved_of es)
  ∧ ms_added st' = ms_added st ++ (gs ≫= added_of es)
  ∧ ∀ k, k ∈ usedExistingHeaders st' ↔
         k ∈ usedExistingHeaders st
         ∨ (k ∈ section_key <$> gs ∧ is_Some (find_section es k)).
Proof.
  revert st. induction gs as [|g gs IH]; intros st; simpl.
  - rewrite !app_nil_r. split; [done|]. split; [done|]. split; [done|].
    intros k. split; [by left|]. intros [?|[H _]]; [done|by inv H].
  - specialize (IH (merge_generated (index_sections es) st g)).
    simpl in IH. destruct IH as (Hm & Hp & Ha & Hu).
    destruct (merge_generated_step es st g) as (Sm & Sp & Sa & Su).
    rewrite Hm, Hp, Ha, Sm, Sp, Sa, <- !app_assoc.
    split; [done|]. split; [done|]. split; [done|].
    intros k. rewrite Hu, Su, elem_of_cons.
    destruct (find_section es (section_key g)) as [e|] eqn:Hfind.
    + rewrite elem_of_union, elem_of_singleton. split.
      * intros [[->|?]|[? ?]]; [|tauto..]. right. split; [by left|]. by rewrite Hfind.
      * intros [?|[[->|?] ?]]; tauto.
    + split.
      * intros [?|[? ?]]; tauto.
      * intros [?|[[->|?] Hs]]; [tauto| |tauto]. rewrite Hfind in Hs. by destruct Hs.
Qed.

(** The second loop, in closed form. *)
Lemma merge_leftover_step st e :
  let st' := merge_leftover st e in
  let keep := filter (λ e, (section_key e ∉ usedExistingHeaders st) ∧ titled e) [e] in
  mergedSections st' = mergedSections st ++ (MarkdownSection.fullText <$> keep)
  ∧ ms_preserved st' = ms_preserved st ++ (MarkdownSection.header <$> keep)
  ∧ ms_added st' = ms_added st
  ∧ usedExistingHeaders st' = usedExistingHeaders st.
Proof.
  simpl. unfold merge_leftover. rewrite is_preamble_titled, filter_cons, filter_nil.
  destruct (decide ((section_key e ∉ usedExistingHeaders st) ∧ titled e)) as [[H1 H2]|Hn].
  - rewrite (bool_decide_eq_true_2 _ H1).
    rewrite (bool_decide_eq_false_2 (¬ titled e)) by tauto. done.
  - destruct (bool_decide (section_key e ∉ usedExistingHeaders st)) eqn:E1;
      destruct (bool_decide (¬ titled e)) eqn:E2; simpl; rewrite ?app_nil_r; try done.
    apply bool_decide_eq_true in E1. apply bool_decide_eq_false in E2.
    exfalso. apply Hn. split; [done|]. by destruct (decide (titled e)).
Qed.

Lemma merge_leftover_loop es st :
  let keep := filter (λ e, (section_key e ∉ usedExistingHeaders st) ∧ titled e) es in
  let st' := fold_left merge_leftover es st in
  mergedSections st' = mergedSections st ++ (MarkdownSection.fullText <$> keep)
  ∧ ms_preserved st' = ms_preserved st ++ (MarkdownSection.header <$> keep)
  ∧ ms_added st' = ms_added st.
Proof.
  revert st. induction es as [|e es IH]; intros st; simpl.
  - by rewrite !app_nil_r.
  - specialize (IH (merge_leftover st e)). simpl in IH.
    destruct IH as (Hm & Hp & Ha).
    destruct (merge_leftover_step st e) as (Sm & Sp & Sa & Su).
    rewrite Hm, Hp, Ha, Sm, Sp, Sa, Su, <- !app_assoc, <- !fmap_app.
    change (e :: es) with ([e] ++ es). by rewrite filter_app.
Qed.

(** Both loops together. *)
Lemma merge_sections_closed es gs :
  mergedSections (merge_sections es gs) = spec_section_order titled es gs
  ∧ ms_preserved (merge_sections es gs) =
      (gs ≫= preserved_of es)
      ++ (MarkdownSection.header
            <$> filter (λ e, (section_key e ∉ section_key <$> gs) ∧ titled e) es)
  ∧ ms_added (merge_sections es gs) = gs ≫= added_of es.
Proof.
  unfold merge_sections.
  set (st0 := {| mergedSections := []; ms_preserved := []; ms_added := [];
                 usedExistingHeaders := ∅ |}).
  destruct (merge_generated_loop es gs st0) as (Hm1 & Hp1 & Ha1 & Hu1).
  destruct (merge_leftover_loop es
              (fold_left (merge_generated (index_sections es)) gs st0))
    as (Hm2 & Hp2 & Ha2).
  rewrite Hm2, Hp2, Ha2, Hm1, Hp1, Ha1. unfold spec_section_order. simpl.
  rewrite (list_filter_iff_elem _
             (λ e, (section_key e ∉ section_key <$> gs) ∧ titled e)); [done|].
  intros e He. rewrite Hu1. split; intros [Hk Ht]; (split; [|done]).
  - intros Hin. apply Hk. right. split; [done|]. by apply find_section_elem.
  - intros [Hin|[Hin _]]; [set_solver | done].
Qed.

Lemma filter_none {A} (P : A → Prop) `{!∀ x, Decision (P x)} (l : list A) :
  (∀ x, x ∈ l → ¬ P x) → filter P l = [].
Proof.
  induction l as [|a l IH]; intros Hn; [done|].
  rewrite filter_cons_False by (apply Hn; left).
  apply IH. intros x Hx. apply Hn. by right.
Qed.

Lemma filter_all {A} (P : A → Prop) `{!∀ x, Decision (P x)} (l : list A) :
  (∀ x, x ∈ l → P x) → filter P l = l.
Proof.
  induction l as [|x l IH]; intros HP; [done|].
  rewrite filter_cons_True by (apply HP; left). f_equal.
  apply IH. intros y Hy. apply HP. by right.
Qed.


Lemma bind_none {A B} (F : A → list B) (l : list A) :
  (∀ x, x ∈ l → F x = []) → l ≫= F = [].
Proof.
  induction l as [|a l IH]; intros HF; [done|].
  rewrite bind_cons, HF by left. apply IH. intros x Hx. apply HF. by right.
Qed.




(** C6: a generated preamble is matched with a titled section of the
    existing document.  The preamble sentinel and the header
    [# Preamble] have the same normalized key, so the generated preamble
    [intro] is replaced by the section [# Preamble] of the existing
    document, which is recorded as preserved. *)
Lemma generated_preamble_matches_titled_section :
  normalizeHeader PREAMBLE = normalizeHeader "Preamble"
  ∧ MarkdownSection.header <$> parseMarkdownSections (nl "intro||# A|x")
    = [PREAMBLE; "A"]
  ∧ MarkdownSection.header <$> parseMarkdownSections (nl "# Preamble|user text")
    = ["Preamble"]
  ∧ mergeMarkdown (nl "# Preamble|user text") (nl "intro||# A|x")
    = {| content := nl "# Preamble|user text||# A|x|";
         preserved := ["Preamble"];
         added := ["A"] |}.
Proof. repeat split; vm_compute; reflexivity. Qed.

(** ** YAML scalars *)

Section Scalars.
Context {number : Type}.
Variable Number : string → number.
Variable isNaN : number → bool.

(** C9 (as amended): a text between two double quotes or two single
    quotes yields the text between them, verbatim; [true], [True],
    [TRUE] and [false], [False], [FALSE] yield the booleans; [null], [~]
    and the empty text yield null; any other unquoted text yields the
    number the host reads in it, or, when the host reads none, the text
    itself. *)
Theorem parseYamlValue_coercion :
  (∀ q s, q = DQUOTE ∨ q = SQUOTE →
     parseYamlValue Number isNaN (String q (s +:+ str1 q)) = VStr s)
  ∧ (∀ v, v ∈ ["true"; "True"; "TRUE"] → parseYamlValue Number isNaN v = VBool true)
  ∧ (∀ v, v ∈ ["false"; "False"; "FALSE"] → parseYamlValue Number isNaN v = VBool false)
  ∧ (∀ v, v ∈ ["null"; "~"; ""] → parseYamlValue Number isNaN v = VNull)
  ∧ (∀ v, is_quoted v = false → v ∉ yaml_keywords →
       parseYamlValue Number isNaN v =
         if isNaN (Number v) then VStr v else VNum (Number v)).
Proof.
  split; [|split; [|split; [|split]]].
  - intros q s Hq. unfold parseYamlValue.
    assert (is_quoted (String q (s +:+ str1 q)) = true) as ->.
    { unfold is_quoted.
      destruct Hq as [-> | ->]; rewrite startsWith_cons, endsWith_snoc; simpl;
        by rewrite ?orb_true_r. }
    by rewrite slice_quoted.
  - intros v Hv. repeat (apply elem_of_cons in Hv as [->|Hv]; [reflexivity|]).
    by inv Hv.
  - intros v Hv. repeat (apply elem_of_cons in Hv as [->|Hv]; [reflexivity|]).
    by inv Hv.
  - intros v Hv. repeat (apply elem_of_cons in Hv as [->|Hv]; [reflexivity|]).
    by inv Hv.
  - intros v Hq Hk. unfold parseYamlValue. rewrite Hq.
    unfold yaml_keywords in Hk.
    rewrite !bool_decide_eq_false_2 by (intros ->; apply Hk; set_solver).
    simpl. by destruct (isNaN (Number v)).
Qed.

End Scalars.

(** C9 as stated fails twice: a boolean word in mixed case stays a
    string, and an escaped quote inside a quoted string keeps its
    backslash. *)
Lemma parseYamlValue_mixed_case_and_escape :
  Ref.parseYamlValue "tRuE" = VStr "tRuE"
  ∧ Ref.parseYamlValue (Ref.js "'a\'b'") = VStr (Ref.js "a\'b")
  ∧ Ref.parseYamlValue (Ref.js "'a\'b'") ≠ VStr (Ref.js "a'b").
Proof. repeat split; try (vm_compute; reflexivity). vm_compute; discriminate. Qed.

(** ** Section parser *)

Lemma append_cons a s t : String a s +:+ t = String a (s +:+ t).
Proof. reflexivity. Qed.

Lemma append_nil_r s : s +:+ "" = s.
Proof. induction s as [|a s IH]; [done | by rewrite append_cons, IH]. Qed.


Lemma join_cons sep l ls : ls ≠ [] → join sep (l :: ls) = l +:+ sep +:+ join sep ls.
Proof. by destruct ls. Qed.


Lemma join_split c s : join (str1 c) (split c s) = s.
Proof.
  induction s as [|a s IH]; [done|]. simpl.
  destruct (ascii_dec a c) as [->|Hne].
  - destruct (split c s) as [|l ls] eqn:Hs; [by destruct s; simplify_eq/=; repeat case_match|].
    rewrite join_cons by done. by rewrite IH.
  - destruct (split c s) as [|l ls] eqn:Hs.
    + by destruct s; simplify_eq/=; repeat case_match.
    + destruct ls as [|l' ls']; simpl in *; by rewrite <- IH.
Qed.

Lemma scan_line_header st l lvl text :
  headerRegex l = Some (lvl, text) →
  scan_line st l =
    {| sections := finish st;
       currentSection :=
         Some {| MarkdownSection.header := trim text;
                 MarkdownSection.level := lvl;
                 MarkdownSection.rawHeader := l;
                 MarkdownSection.content := "";
                 MarkdownSection.fullText := "" |};
       contentLines := [] |}.
Proof. intros H. unfold scan_line. by rewrite H. Qed.

Lemma scan_line_body st l :
  headerRegex l = None →
  scan_line st l =
    {| sections := sections st; currentSection := currentSection st;
       contentLines := contentLines st ++ [l] |}.
Proof. intros H. unfold scan_line. by rewrite H. Qed.

Lemma scan_from_section lines st cur :
  currentSection st = Some cur →
  finish (fold_left scan_line lines st) =
    sections st ++ [close_section cur (contentLines st ++ body_lines lines)]
    ++ (section_of_group <$> header_groups lines).
Proof.
  revert st cur. induction lines as [|l ls IH]; intros st cur Hcur.
  - simpl. unfold finish. by rewrite Hcur, !app_nil_r.
  - cbn [fold_left body_lines header_groups].
    destruct (headerRegex l) as [[lvl text]|] eqn:Hl.
    + rewrite (scan_line_header _ _ _ _ Hl). erewrite IH by done.
      unfold finish. rewrite Hcur. cbn [sections contentLines fmap list_fmap].
      rewrite app_nil_r, <- app_assoc. unfold section_of_group at 2.
      cbn [fst snd]. by rewrite Hl.
    + rewrite (scan_line_body _ _ Hl). erewrite IH by done.
      cbn [sections contentLines]. by rewrite <- app_assoc.
Qed.

Lemma scan_from_start lines st :
  currentSection st = None →
  finish (fold_left scan_line lines st) =
    sections st ++ (section_of_group <$> header_groups lines)
  ∧ (header_groups lines = [] →
     fold_left scan_line lines st =
       {| sections := sections st; currentSection := None;
          contentLines := contentLines st ++ lines |}).
Proof.
  revert st. induction lines as [|l ls IH]; intros st Hcur.
  - simpl. unfold finish. rewrite Hcur, !app_nil_r. split; [done|]. intros _.
    destruct st; simpl in *; by subst.
  - cbn [fold_left header_groups].
    destruct (headerRegex l) as [[lvl text]|] eqn:Hl.
    + split; [|intros ?; discriminate].
      rewrite (scan_line_header _ _ _ _ Hl). erewrite scan_from_section by done.
      cbn [sections contentLines fmap list_fmap].
      assert (finish st = sections st) as -> by (unfold finish; by rewrite Hcur).
      unfold section_of_group at 2. cbn [fst snd]. by rewrite Hl.
    + rewrite (scan_line_body _ _ Hl).
      destruct (IH {| sections := sections st; currentSection := currentSection st;
                      contentLines := contentLines st ++ [l] |} Hcur) as [H1 H2].
      split; [done|]. intros Hg. rewrite (H2 Hg). cbn [sections contentLines].
      by rewrite <- app_assoc.
Qed.




(** ** Objects *)

Section Objects.
Context {number : Type}.
Implicit Types (o e g : obj number) (v : value number) (k key path : string).

Lemma obj_get_None o k : obj_get o k = None ↔ k ∉ keys o.
Proof.
  unfold keys. induction o as [|[k' v'] o IH]; simpl.
  - split; [intros _ H; by inv H | done].
  - rewrite not_elem_of_cons. destruct (decide (k = k')); [|tauto].
    split; [done | tauto].
Qed.

Lemma obj_has_false o k : obj_has o k = false ↔ k ∉ keys o.
Proof. unfold obj_has. rewrite <- obj_get_None. by destruct (obj_get o k). Qed.

Lemma obj_get_elem o k v : NoDup (keys o) → (k, v) ∈ o → obj_get o k = Some v.
Proof.
  unfold keys. induction o as [|[k' v'] o IH]; intros Hnd Hin; [by inv Hin|].
  rewrite fmap_cons in Hnd. apply NoDup_cons in Hnd as [Hk' Hnd]. simpl.
  apply elem_of_cons in Hin as [Heq|Hin].
  - simplify_eq. by rewrite decide_True.
  - rewrite decide_False; [by apply IH|]. intros ->. apply Hk'.
    by apply (list_elem_of_fmap_2 fst) in Hin.
Qed.

Lemma obj_get_replace o k v k' :
  obj_get (obj_replace k v o) k' =
    if decide (k' = k) then (λ _, v) <$> obj_get o k else obj_get o k'.
Proof.
  induction o as [|[k1 v1] o IH]; simpl; [by case_decide|].
  destruct (decide (k = k1)) as [->|Hk]; simpl.
  - destruct (decide (k' = k1)) as [->|?]; simpl; [|done].
    by rewrite ?decide_True.
  - rewrite IH. destruct (decide (k' = k1)) as [->|?]; simpl; [|done].
    by rewrite ?decide_False by done.
Qed.

Lemma obj_get_insert o k v k' :
  obj_get o k = None →
  obj_get (obj_insert k v o) k' = if decide (k' = k) then Some v else obj_get o k'.
Proof.
  induction o as [|[k1 v1] o IH]; simpl; intros Hk.
  - by destruct (decide (k' = k)).
  - destruct (decide (k = k1)) as [->|Hne]; [done|].
    destruct (key_precedes k k1); simpl.
    + by destruct (decide (k' = k)).
    + rewrite IH by done.
      destruct (decide (k' = k1)) as [->|?]; [by rewrite ?decide_False | done].
Qed.

Lemma obj_get_set o k v k' :
  obj_get (obj_set o k v) k' = if decide (k' = k) then Some v else obj_get o k'.
Proof.
  unfold obj_set, obj_has. destruct (obj_get o k) as [v0|] eqn:Hk.
  - rewrite obj_get_replace, Hk. by destruct (decide (k' = k)).
  - by apply obj_get_insert.
Qed.



Lemma obj_set_middle o1 o2 k v0 v :
  k ∉ keys o1 → obj_set (o1 ++ (k, v0) :: o2) k v = o1 ++ (k, v) :: o2.
Proof.
  intros Hk. unfold obj_set, obj_has.
  assert (obj_get (o1 ++ (k, v0) :: o2) k = Some v0) as ->.
  { induction o1 as [|[k1 v1] o1 IH]; simpl; [by rewrite decide_True|].
    unfold keys in Hk. rewrite fmap_cons, not_elem_of_cons in Hk.
    destruct Hk as [Hne Hk]. rewrite decide_False by done. by apply IH. }
  induction o1 as [|[k1 v1] o1 IH]; simpl; [by rewrite decide_True|].
  unfold keys in Hk. rewrite fmap_cons, not_elem_of_cons in Hk.
  destruct Hk as [Hne Hk]. rewrite decide_False by done. by rewrite IH.
Qed.

(** *** The loops of the JSON merge in closed form *)

Lemma json_entry_eq (rec : recursor) g path k ve :
  json_entry rec g path (k, ve) =
    match obj_get g k with
    | Some (VObj go) =>
        if is_mapping ve then
          (VObj (rec ve go (fullPath path k) [] []).1.1,
           (rec ve go (fullPath path k) [] []).1.2,
           (rec ve go (fullPath path k) [] []).2)
        else (ve, [fullPath path k], [])
    | _ => (ve, [fullPath path k], [])
    end.
Proof. reflexivity. Qed.

Lemma own_existing_keys_closed (rec : recursor) g path es :
  Forall (λ x, writer rec x.2) es →
  ∀ result p a,
    own_existing_keys rec g path es result p a =
      (fold_left (λ r x, obj_set r x.1 (json_entry rec g path x).1.1) es result,
       p ++ (es ≫= λ x, (json_entry rec g path x).1.2),
       a ++ (es ≫= λ x, (json_entry rec g path x).2)).
Proof.
  induction 1 as [|[k ve] es Hw _ IH]; intros result p a.
  - simpl. by rewrite !app_nil_r.
  - unfold writer in Hw. cbn [snd] in Hw.
    rewrite !bind_cons. cbn [own_existing_keys fold_left].
    rewrite !(json_entry_eq rec g path k ve). cbn [fst snd].
    destruct (obj_get g k) as [[| | | | |go]|];
      try (rewrite IH; cbn [fst snd]; by rewrite <- !app_assoc).
    destruct (is_mapping ve).
    + rewrite (Hw go (fullPath path k) p a). rewrite IH. cbn [fst snd].
      by rewrite <- !app_assoc.
    + rewrite IH. cbn [fst snd]. by rewrite <- !app_assoc.
Qed.

Lemma own_new_keys_closed e g path result a :
  own_new_keys e g path result a =
    (fold_left (λ r x, obj_set r x.1 x.2) (new_entries e g) result,
     a ++ (fullPath path <$> keys (new_entries e g))).
Proof.
  unfold own_new_keys, new_entries, keys.
  revert result a. induction g as [|[k v] g IH]; intros result a.
  - simpl. by rewrite app_nil_r.
  - rewrite filter_cons. cbn [fold_left fst snd].
    destruct (obj_has e k) eqn:Hk.
    + rewrite decide_False by done. apply IH.
    + rewrite decide_True by done. rewrite IH. cbn [fold_left fst snd].
      by rewrite !fmap_cons, <- app_assoc.
Qed.

Lemma ownMergeJson_rec_closed (x : value number) :
  writer ownMergeJson_rec x
  ∧ ∀ es, x = VObj es → ∀ g path p a,
      ownMergeJson_rec x g path p a =
        (fold_left (λ r x, obj_set r x.1 x.2) (new_entries es g)
           (fold_left (λ r x, obj_set r x.1 (json_entry ownMergeJson_rec g path x).1.1)
              es []),
         p ++ (es ≫= λ x, (json_entry ownMergeJson_rec g path x).1.2),
         a ++ (es ≫= λ x, (json_entry ownMergeJson_rec g path x).2)
           ++ (fullPath path <$> keys (new_entries es g))).
Proof.
  induction x as [| | | | |es IH] using value_ind';
    try (split; [intros o path p a; simpl; by rewrite !app_nil_r | done]).
  assert (Forall (λ x, writer ownMergeJson_rec x.2) es) as Hw.
  { eapply Forall_impl; [exact IH|]. by intros y [Hy _]. }
  assert (∀ g path p a,
            ownMergeJson_rec (VObj es) g path p a =
              (fold_left (λ r x, obj_set r x.1 x.2) (new_entries es g)
                 (fold_left (λ r x, obj_set r x.1
                               (json_entry ownMergeJson_rec g path x).1.1) es []),
               p ++ (es ≫= λ x, (json_entry ownMergeJson_rec g path x).1.2),
               a ++ (es ≫= λ x, (json_entry ownMergeJson_rec g path x).2)
                 ++ (fullPath path <$> keys (new_entries es g)))) as Hclosed.
  { intros g path p a. cbn [ownMergeJson_rec].
    rewrite (own_existing_keys_closed _ _ _ _ Hw), own_new_keys_closed.
    by rewrite <- app_assoc. }
  split.
  - intros o path p a. rewrite !Hclosed. cbn [fst snd]. by rewrite !app_nil_l.
  - intros es' [= <-]. exact Hclosed.
Qed.

Lemma ownMergeJson_closed e g path p a :
  ownMergeJson e g path p a =
    (fold_left (λ r x, obj_set r x.1 x.2) (new_entries e g)
       (fold_left (λ r x, obj_set r x.1 (json_entry ownMergeJson_rec g path x).1.1)
          e []),
     p ++ (e ≫= λ x, (json_entry ownMergeJson_rec g path x).1.2),
     a ++ (e ≫= λ x, (json_entry ownMergeJson_rec g path x).2)
       ++ (fullPath path <$> keys (new_entries e g))).
Proof. unfold ownMergeJson. by apply ownMergeJson_rec_closed. Qed.

(** *** The loops of the YAML merge in closed form *)

Lemma yaml_entry_eq (rec : recursor) e path k vg :
  yaml_entry rec e path (k, vg) =
    match obj_get e k with
    | None => (vg, [], [fullPath path k])
    | Some (VObj eo) =>
        if is_mapping vg then
          (VObj (rec vg eo (fullPath path k) [] []).1.1,
           (rec vg eo (fullPath path k) [] []).1.2,
           (rec vg eo (fullPath path k) [] []).2)
        else (VObj eo, [fullPath path k], [])
    | Some ve => (ve, [fullPath path k], [])
    end.
Proof. reflexivity. Qed.

Lemma merge_generated_keys_closed (rec : recursor) e path gs :
  Forall (λ x, writer rec x.2) gs →
  ∀ result p a,
    merge_generated_keys rec e path gs result p a =
      (fold_left (λ r x, obj_set r x.1 (yaml_entry rec e path x).1.1) gs result,
       p ++ (gs ≫= λ x, (yaml_entry rec e path x).1.2),
       a ++ (gs ≫= λ x, (yaml_entry rec e path x).2)).
Proof.
  induction 1 as [|[k vg] gs Hw _ IH]; intros result p a.
  - simpl. by rewrite !app_nil_r.
  - unfold writer in Hw. cbn [snd] in Hw.
    rewrite !bind_cons. cbn [merge_generated_keys fold_left].
    rewrite !(yaml_entry_eq rec e path k vg). cbn [fst snd].
    destruct (obj_get e k) as [[| | | | |eo]|];
      try (rewrite IH; cbn [fst snd]; by rewrite ?app_nil_l, <- ?app_assoc).
    destruct (is_mapping vg).
    + rewrite (Hw eo (fullPath path k) p a). rewrite IH. cbn [fst snd].
      by rewrite <- !app_assoc.
    + rewrite IH. cbn [fst snd]. by rewrite ?app_nil_l, <- ?app_assoc.
Qed.

Lemma mark_remaining_closed e g path p :
  mark_remaining e g path p = p ++ (fullPath path <$> old_keys e g).
Proof.
  unfold mark_remaining, old_keys. generalize (keys e). intros ks.
  revert p. induction ks as [|k ks IH]; intros p; simpl.
  - by rewrite app_nil_r.
  - rewrite filter_cons. destruct (obj_has g k) eqn:Hk.
    + rewrite decide_False by done. apply IH.
    + rewrite decide_True by done. rewrite IH.
      by rewrite fmap_cons, <- app_assoc.
Qed.

Lemma deepMergePreserveExisting_rec_closed (x : value number) :
  writer deepMergePreserveExisting_rec x
  ∧ ∀ gs, x = VObj gs → ∀ e path p a,
      deepMergePreserveExisting_rec x e path p a =
        (fold_left
           (λ r x, obj_set r x.1 (yaml_entry deepMergePreserveExisting_rec e path x).1.1)
           gs e,
         p ++ (gs ≫= λ x, (yaml_entry deepMergePreserveExisting_rec e path x).1.2)
           ++ (fullPath path <$> old_keys e gs),
         a ++ (gs ≫= λ x, (yaml_entry deepMergePreserveExisting_rec e path x).2)).
Proof.
  induction x as [| | | | |gs IH] using value_ind';
    try (split; [intros o path p a; simpl; by rewrite !app_nil_r | done]).
  assert (Forall (λ x, writer deepMergePreserveExisting_rec x.2) gs) as Hw.
  { eapply Forall_impl; [exact IH|]. by intros y [Hy _]. }
  assert (∀ e path p a,
            deepMergePreserveExisting_rec (VObj gs) e path p a =
              (fold_left
                 (λ r x, obj_set r x.1
                           (yaml_entry deepMergePreserveExisting_rec e path x).1.1)
                 gs e,
               p ++ (gs ≫= λ x, (yaml_entry deepMergePreserveExisting_rec e path x).1.2)
                 ++ (fullPath path <$> old_keys e gs),
               a ++ (gs ≫= λ x, (yaml_entry deepMergePreserveExisting_rec e path x).2)))
    as Hclosed.
  { intros e path p a. cbn [deepMergePreserveExisting_rec].
    rewrite (merge_generated_keys_closed _ _ _ _ Hw), mark_remaining_closed.
    by rewrite <- app_assoc. }
  split.
  - intros o path p a. rewrite !Hclosed. cbn [fst snd]. by rewrite !app_nil_l.
  - intros gs' [= <-]. exact Hclosed.
Qed.

Lemma deepMergePreserveExisting_closed e g path p a :
  deepMergePreserveExisting e g path p a =
    (fold_left
       (λ r x, obj_set r x.1 (yaml_entry deepMergePreserveExisting_rec e path x).1.1)
       g e,
     p ++ (g ≫= λ x, (yaml_entry deepMergePreserveExisting_rec e path x).1.2)
       ++ (fullPath path <$> old_keys e g),
     a ++ (g ≫= λ x, (yaml_entry deepMergePreserveExisting_rec e path x).2)).
Proof. unfold deepMergePreserveExisting. by apply deepMergePreserveExisting_rec_closed. Qed.

(** *** Folds of property assignments *)



Lemma obj_get_fold (f : string * value number → value number) l r k :
  NoDup (keys l) →
  obj_get (fold_left (λ r x, obj_set r x.1 (f x)) l r) k =
    match obj_get l k with
    | Some v => Some (f (k, v))
    | None => obj_get r k
    end.
Proof.
  unfold keys. revert r. induction l as [|[k1 v1] l IH]; intros r Hnd; [done|].
  rewrite fmap_cons in Hnd. apply NoDup_cons in Hnd as [Hk1 Hnd].
  cbn [fst] in Hk1.
  cbn [fold_left fst snd obj_get]. rewrite IH by done.
  destruct (decide (k = k1)) as [->|Hne].
  - apply obj_get_None in Hk1. rewrite Hk1. rewrite obj_get_set.
    by rewrite decide_True.
  - destruct (obj_get l k); [done|]. rewrite obj_get_set.
    by rewrite decide_False.
Qed.

Lemma obj_ext o1 o2 :
  keys o1 = keys o2 → NoDup (keys o1) →
  (∀ k, obj_get o1 k = obj_get o2 k) → o1 = o2.
Proof.
  unfold keys. revert o2.
  induction o1 as [|[k1 v1] o1 IH]; intros [|[k2 v2] o2] Hk Hnd Hget;
    try done.
  rewrite !fmap_cons in Hk. injection Hk as Hk12 Hk. simpl in Hk12. subst k2.
  rewrite fmap_cons in Hnd. apply NoDup_cons in Hnd as [Hk1 Hnd].
  pose proof (Hget k1) as H1. simpl in H1. rewrite !decide_True in H1 by done.
  injection H1 as ->. f_equal. apply IH; [done..|].
  intros k. specialize (Hget k). simpl in Hget.
  destruct (decide (k = k1)) as [->|?]; [|done].
  cbn [fst] in Hk1. pose proof Hk1 as Hk1'. rewrite Hk in Hk1'.
  apply obj_get_None in Hk1. apply obj_get_None in Hk1'. congruence.
Qed.

(** *** Existing wins *)

Lemma obj_get_In o k v : obj_get o k = Some v → (k, v) ∈ o.
Proof.
  induction o as [|[k1 v1] o IH]; simpl; [done|].
  destruct (decide (k = k1)) as [->|?].
  - intros [= ->]. left.
  - intros H. right. by apply IH.
Qed.

Lemma keys_new_entries e g :
  keys (new_entries e g) = filter (λ k, obj_has e k = false) (keys g).
Proof.
  unfold keys, new_entries. induction g as [|[k1 v1] g IH]; [done|].
  rewrite fmap_cons, !filter_cons. cbn [fst].
  destruct (decide (obj_has e k1 = false)); by rewrite ?fmap_cons, IH.
Qed.

Lemma NoDup_new_entries e g : NoDup (keys g) → NoDup (keys (new_entries e g)).
Proof.
  intros Hnd. rewrite keys_new_entries.
  eapply sublist_NoDup; [exact Hnd | apply sublist_filter].
Qed.

Lemma obj_get_new_entries e g k :
  obj_get (new_entries e g) k = if obj_has e k then None else obj_get g k.
Proof.
  unfold new_entries. induction g as [|[k1 v1] g IH]; simpl.
  - by destruct (obj_has e k).
  - rewrite filter_cons. cbn [fst].
    destruct (decide (obj_has e k1 = false)) as [Hk1|Hk1]; simpl.
    + destruct (decide (k = k1)) as [->|?]; [by rewrite Hk1 | done].
    + destruct (decide (k = k1)) as [->|?]; [|done].
      rewrite IH. by destruct (obj_has e k1).
Qed.

Lemma json_entry_conflict (rec : recursor) g path k ve vg :
  obj_get g k = Some vg → both_mappings ve vg = false →
  json_entry rec g path (k, ve) = (ve, [fullPath path k], []).
Proof.
  intros Hg Hb. rewrite json_entry_eq, Hg.
  destruct vg; try done. destruct ve; try done.
Qed.





Lemma fold_set_ext (f f' : string * value number → value number) l r :
  (∀ x, x ∈ l → f x = f' x) →
  fold_left (λ r x, obj_set r x.1 (f x)) l r
  = fold_left (λ r x, obj_set r x.1 (f' x)) l r.
Proof.
  revert r. induction l as [|x l IH]; intros r Hf; [done|]. simpl.
  rewrite Hf by left. apply IH. intros y Hy. apply Hf. by right.
Qed.

Lemma bind_ext_elem {A B} (f f' : A → list B) (l : list A) :
  (∀ x, x ∈ l → f x = f' x) → l ≫= f = l ≫= f'.
Proof.
  induction l as [|x l IH]; intros Hf; [done|].
  rewrite !bind_cons, Hf by left. f_equal. apply IH. intros y Hy. apply Hf. by right.
Qed.

(** *** The loops of [deepMergeJson] in closed form *)

Lemma inherited_PROTO : inherited PROTO = true.
Proof. reflexivity. Qed.

Lemma parsed_has_false e k :
  parsed_has e k = false ↔ obj_has e k = false ∧ inherited k = false.
Proof. unfold parsed_has. apply orb_false_iff. Qed.

Lemma parsed_has_PROTO e : parsed_has e PROTO = true.
Proof. unfold parsed_has. by rewrite inherited_PROTO, orb_true_r. Qed.

Lemma result_set_other o k v : k ≠ PROTO → result_set o k v = obj_set o k v.
Proof. intros Hk. unfold result_set. by rewrite decide_False. Qed.

Lemma result_set_fold (f : string * value number → value number) l r :
  fold_left (λ r x, result_set r x.1 (f x)) l r
  = fold_left (λ r x, obj_set r x.1 (f x)) (filter (λ x, x.1 ≠ PROTO) l) r.
Proof.
  revert r. induction l as [|[k v] l IH]; intros r; [done|].
  rewrite filter_cons. cbn [fold_left fst]. unfold result_set at 2. cbn [fst].
  destruct (decide (k = PROTO)) as [->|Hk].
  - rewrite decide_False by (by intros H; apply H). apply IH.
  - rewrite decide_True by done. cbn [fold_left fst]. apply IH.
Qed.

Lemma obj_get_plain o k :
  obj_get (filter (λ x : string * value number, x.1 ≠ PROTO) o) k
  = if decide (k = PROTO) then None else obj_get o k.
Proof.
  induction o as [|[k1 v1] o IH]; [by destruct (decide (k = PROTO))|].
  rewrite filter_cons. cbn [fst].
  destruct (decide (k1 ≠ PROTO)) as [Hk1|Hk1]; cbn [obj_get]; rewrite IH.
  - destruct (decide (k = k1)) as [->|?]; [by rewrite decide_False | done].
  - apply dec_stable in Hk1 as ->. by destruct (decide (k = PROTO)).
Qed.

Lemma NoDup_keys_filter (P : string * value number → Prop)
    `{!∀ x, Decision (P x)} o :
  NoDup (keys o) → NoDup (keys (filter P o)).
Proof.
  unfold keys. intros Hnd. eapply sublist_NoDup; [exact Hnd|].
  induction o as [|x o IH]; [done|]. rewrite filter_cons.
  destruct (decide (P x)); rewrite !fmap_cons.
  - apply sublist_skip, IH. rewrite fmap_cons in Hnd. by apply NoDup_cons in Hnd as [_ ?].
  - apply sublist_cons, IH. rewrite fmap_cons in Hnd. by apply NoDup_cons in Hnd as [_ ?].
Qed.

Lemma merge_entry_eq (rec : target_recursor) (g : target number) path k ve :
  merge_entry rec g path (k, ve) =
    if target_has g k then
      match target_mapping g k with
      | Some go =>
          if is_mapping ve then
            (VObj (rec ve go (fullPath path k) [] []).1.1,
             (rec ve go (fullPath path k) [] []).1.2,
             (rec ve go (fullPath path k) [] []).2)
          else (ve, [fullPath path k], [])
      | None => (ve, [fullPath path k], [])
      end
    else (ve, [fullPath path k], []).
Proof. reflexivity. Qed.

Lemma merge_existing_keys_closed (rec : target_recursor) (g : target number) path es :
  Forall (λ x, target_writer rec x.2) es →
  ∀ result p a,
    merge_existing_keys rec g path es result p a =
      (fold_left (λ r x, result_set r x.1 (merge_entry rec g path x).1.1) es result,
       p ++ (es ≫= λ x, (merge_entry rec g path x).1.2),
       a ++ (es ≫= λ x, (merge_entry rec g path x).2)).
Proof.
  induction 1 as [|[k ve] es Hw _ IH]; intros result p a.
  - simpl. by rewrite !app_nil_r.
  - unfold target_writer in Hw. cbn [snd] in Hw.
    rewrite !bind_cons. cbn [merge_existing_keys fold_left].
    rewrite !(merge_entry_eq rec g path k ve). cbn [fst snd].
    destruct (target_has g k); cbn [negb];
      [|rewrite IH; cbn [fst snd]; by rewrite <- !app_assoc].
    destruct (target_mapping g k) as [go|];
      [|rewrite IH; cbn [fst snd]; by rewrite <- !app_assoc].
    destruct (is_mapping ve).
    + rewrite (Hw go (fullPath path k) p a). rewrite IH. cbn [fst snd].
      by rewrite <- !app_assoc.
    + rewrite IH. cbn [fst snd]. by rewrite <- !app_assoc.
Qed.

Lemma add_new_keys_closed e (g : target number) path result a :
  add_new_keys e g path result a =
    (fold_left (λ r x, result_set r x.1 x.2) (fresh_entries e g) result,
     a ++ (fullPath path <$> keys (fresh_entries e g))).
Proof.
  unfold add_new_keys, fresh_entries, keys.
  generalize (target_props g). intros gs.
  revert result a. induction gs as [|[k v] gs IH]; intros result a.
  - simpl. by rewrite app_nil_r.
  - rewrite filter_cons. cbn [fold_left fst snd].
    destruct (parsed_has e k) eqn:Hk.
    + rewrite decide_False by done. apply IH.
    + rewrite decide_True by done. rewrite IH. cbn [fold_left fst snd].
      by rewrite !fmap_cons, <- app_assoc.
Qed.

Lemma deepMergeJson_rec_closed (x : value number) :
  target_writer deepMergeJson_rec x
  ∧ ∀ es, x = VObj es → ∀ (g : target number) path p a,
      deepMergeJson_rec x g path p a =
        (fold_left (λ r x, result_set r x.1 x.2) (fresh_entries es g)
           (fold_left
              (λ r x, result_set r x.1 (merge_entry deepMergeJson_rec g path x).1.1)
              es []),
         p ++ (es ≫= λ x, (merge_entry deepMergeJson_rec g path x).1.2),
         a ++ (es ≫= λ x, (merge_entry deepMergeJson_rec g path x).2)
           ++ (fullPath path <$> keys (fresh_entries es g))).
Proof.
  induction x as [| | | | |es IH] using value_ind';
    try (split; [intros o path p a; simpl; by rewrite !app_nil_r | done]).
  assert (Forall (λ x, target_writer deepMergeJson_rec x.2) es) as Hw.
  { eapply Forall_impl; [exact IH|]. by intros y [Hy _]. }
  assert (∀ (g : target number) path p a,
            deepMergeJson_rec (VObj es) g path p a =
              (fold_left (λ r x, result_set r x.1 x.2) (fresh_entries es g)
                 (fold_left
                    (λ r x, result_set r x.1
                              (merge_entry deepMergeJson_rec g path x).1.1) es []),
               p ++ (es ≫= λ x, (merge_entry deepMergeJson_rec g path x).1.2),
               a ++ (es ≫= λ x, (merge_entry deepMergeJson_rec g path x).2)
                 ++ (fullPath path <$> keys (fresh_entries es g)))) as Hclosed.
  { intros g path p a. cbn [deepMergeJson_rec].
    rewrite (merge_existing_keys_closed _ _ _ _ Hw), add_new_keys_closed.
    by rewrite <- app_assoc. }
  split.
  - intros o path p a. rewrite !Hclosed. cbn [fst snd]. by rewrite !app_nil_l.
  - intros es' [= <-]. exact Hclosed.
Qed.

Lemma deepMergeJson_closed e g path p a :
  deepMergeJson e g path p a =
    (fold_left (λ r x, result_set r x.1 x.2) (fresh_entries e (Parsed g))
       (fold_left
          (λ r x, result_set r x.1
                    (merge_entry deepMergeJson_rec (Parsed g) path x).1.1)
          e []),
     p ++ (e ≫= λ x, (merge_entry deepMergeJson_rec (Parsed g) path x).1.2),
     a ++ (e ≫= λ x, (merge_entry deepMergeJson_rec (Parsed g) path x).2)
       ++ (fullPath path <$> keys (fresh_entries e (Parsed g)))).
Proof. unfold deepMergeJson. by apply deepMergeJson_rec_closed. Qed.

Lemma keys_fresh_entries e (g : target number) :
  keys (fresh_entries e g)
  = filter (λ k, parsed_has e k = false) (keys (target_props g)).
Proof.
  unfold keys, fresh_entries. induction (target_props g) as [|[k1 v1] gs IH]; [done|].
  rewrite fmap_cons, !filter_cons. cbn [fst].
  destruct (decide (parsed_has e k1 = false)); by rewrite ?fmap_cons, IH.
Qed.

Lemma fresh_entries_plain e (g : target number) :
  filter (λ x, x.1 ≠ PROTO) (fresh_entries e g) = fresh_entries e g.
Proof.
  apply filter_all. intros [k v] Hx. cbn [fst]. intros ->.
  apply list_elem_of_filter in Hx as [Hx _]. cbn [fst] in Hx.
  by rewrite parsed_has_PROTO in Hx.
Qed.

Lemma obj_get_fresh_entries e g k :
  obj_get (fresh_entries e (Parsed g)) k
  = if parsed_has e k then None else obj_get g k.
Proof.
  unfold fresh_entries. cbn [target_props].
  induction g as [|[k1 v1] g IH]; simpl.
  - by destruct (parsed_has e k).
  - rewrite filter_cons. cbn [fst].
    destruct (decide (parsed_has e k1 = false)) as [Hk1|Hk1]; simpl.
    + destruct (decide (k = k1)) as [->|?]; [by rewrite Hk1 | done].
    + destruct (decide (k = k1)) as [->|?]; [|done].
      rewrite IH. by destruct (parsed_has e k1).
Qed.


Lemma deepMergeJson_get e g path p a k :
  NoDup (keys e) → NoDup (keys g) →
  obj_get (deepMergeJson e g path p a).1.1 k =
    if decide (k = PROTO) then None
    else match obj_get e k with
         | Some ve => Some (merge_entry deepMergeJson_rec (Parsed g) path (k, ve)).1.1
         | None => if inherited k then None else obj_get g k
         end.
Proof.
  intros Hne Hng. rewrite deepMergeJson_closed. cbn [fst snd].
  rewrite !result_set_fold, fresh_entries_plain.
  rewrite obj_get_fold.
  2:{ rewrite keys_fresh_entries. eapply sublist_NoDup; [exact Hng|].
      apply sublist_filter. }
  rewrite obj_get_fresh_entries. unfold parsed_has, obj_has.
  rewrite obj_get_fold by by apply NoDup_keys_filter.
  rewrite obj_get_plain.
  destruct (decide (k = PROTO)) as [->|Hk].
  - rewrite inherited_PROTO, orb_true_r. done.
  - destruct (obj_get e k) as [ve|]; [done|]. cbn [orb].
    destruct (inherited k); [done|]. by destruct (obj_get g k).
Qed.


Lemma ownMergeJson_replace_conflict e g path p a k ve vg vg' :
  NoDup (keys e) →
  obj_get e k = Some ve → obj_get g k = Some vg →
  both_mappings ve vg = false → both_mappings ve vg' = false →
  ownMergeJson e (obj_replace k vg' g) path p a = ownMergeJson e g path p a.
Proof.
  intros Hnd He Hg Hb Hb'. rewrite !ownMergeJson_closed.
  assert (new_entries e (obj_replace k vg' g) = new_entries e g) as ->.
  { unfold new_entries. clear Hg. induction g as [|[k1 v1] g IH]; [done|]. simpl.
    destruct (decide (k = k1)) as [->|?].
    - rewrite !filter_cons. cbn [fst]. unfold obj_has. rewrite He.
      by rewrite !decide_False.
    - rewrite !filter_cons. cbn [fst]. by rewrite IH. }
  assert (∀ x, x ∈ e →
            json_entry ownMergeJson_rec (obj_replace k vg' g) path x
            = json_entry ownMergeJson_rec g path x) as Hent.
  { intros [k1 v1] Hx. destruct (decide (k1 = k)) as [->|Hne].
    - assert (v1 = ve) as ->.
      { apply (obj_get_elem _ _ _ Hnd) in Hx. congruence. }
      rewrite (json_entry_conflict _ _ _ _ _ vg') by
        (by rewrite ?obj_get_replace, ?decide_True, ?Hg).
      by rewrite (json_entry_conflict _ _ _ _ _ vg).
    - rewrite !json_entry_eq, obj_get_replace. by rewrite decide_False. }
  f_equal; [f_equal|].
  - f_equal. apply fold_set_ext. intros x Hx. by rewrite Hent.
  - f_equal. apply bind_ext_elem. intros x Hx. by rewrite Hent.
  - do 2 f_equal. apply bind_ext_elem. intros x Hx. by rewrite Hent.
Qed.


(** *** When the JSON merge meets own properties only *)

Lemma own_reading_obj e g :
  own_reading (VObj e) g = true →
  obj_has e PROTO = false
  ∧ (∀ k, k ∈ keys g → parsed_has e k = obj_has e k)
  ∧ ∀ k ve go, (k, ve) ∈ e → obj_get g k = Some (VObj go) → is_mapping ve = true →
      own_reading ve go = true.
Proof.
  cbn [own_reading]. intros H.
  apply andb_true_iff in H as [H H3]. apply andb_true_iff in H as [H1 H2].
  apply negb_true_iff in H1. rewrite forallb_forall in H2. rewrite forallb_forall in H3.
  split; [done|]. split.
  - intros k ([k' v] & -> & Hin)%list_elem_of_fmap. cbn [fst].
    apply list_elem_of_In, H2 in Hin. cbn [fst] in Hin. unfold parsed_has.
    destruct (obj_has e k'); [done|]. cbn [orb] in *. by apply negb_true_iff in Hin.
  - intros k ve go Hin Hgk Hm. apply list_elem_of_In, H3 in Hin. cbn [fst snd] in Hin.
    by rewrite Hgk, Hm in Hin.
Qed.

Lemma plain_value_obj e k v :
  plain_value (VObj e) = true → (k, v) ∈ e →
  inherited k = false ∧ plain_value v = true.
Proof.
  cbn [plain_value]. rewrite forallb_forall. intros H Hin.
  apply list_elem_of_In, H in Hin. cbn [fst snd] in Hin.
  apply andb_true_iff in Hin as [Hk Hv]. by apply negb_true_iff in Hk.
Qed.

Lemma plain_value_intro e :
  (∀ k v, (k, v) ∈ e → inherited k = false ∧ plain_value v = true) →
  plain_value (VObj e) = true.
Proof.
  intros H. cbn [plain_value]. apply forallb_forall. intros [k v] Hin.
  apply list_elem_of_In, H in Hin as [Hk Hv]. cbn [fst snd]. by rewrite Hk, Hv.
Qed.

Lemma plain_value_own_reading (x : value number) :
  ∀ g, plain_value x = true → plain_value (VObj g) = true → own_reading x g = true.
Proof.
  induction x as [| | | | |es IH] using value_ind'; intros g Hx Hg; try done.
  cbn [own_reading]. rewrite Forall_forall in IH. apply andb_true_iff. split.
  - apply andb_true_iff. split.
    + apply negb_true_iff. unfold obj_has.
      destruct (obj_get es PROTO) as [v|] eqn:Hp; [|done].
      apply obj_get_In in Hp. by destruct (plain_value_obj _ _ _ Hx Hp).
    + apply forallb_forall. intros [k v] Hin. apply list_elem_of_In in Hin.
      destruct (plain_value_obj _ _ _ Hg Hin) as [Hk _]. cbn [fst].
      rewrite Hk. apply orb_true_r.
  - apply forallb_forall. intros [k ve] Hin. apply list_elem_of_In in Hin.
    cbn [fst snd].
    destruct (obj_get g k) as [[| | | | |go]|] eqn:Hgk; try done.
    destruct (is_mapping ve) eqn:Hm; [|done].
    apply (IH (k, ve) Hin).
    + by destruct (plain_value_obj _ _ _ Hx Hin).
    + apply obj_get_In in Hgk. by destruct (plain_value_obj _ _ _ Hg Hgk).
Qed.

Lemma deepMergeJson_rec_own (x : value number) :
  ∀ g path p a, own_reading x g = true →
    deepMergeJson_rec x (Parsed g) path p a = ownMergeJson_rec x g path p a.
Proof.
  induction x as [| | | | |es IH] using value_ind'; intros g path p a Hr; try done.
  destruct (own_reading_obj _ _ Hr) as (Hproto & Hnew & Hnested).
  rewrite (proj2 (deepMergeJson_rec_closed (VObj es)) es eq_refl).
  rewrite (proj2 (ownMergeJson_rec_closed (VObj es)) es eq_refl).
  rewrite Forall_forall in IH.
  assert (fresh_entries es (Parsed g) = new_entries es g) as Hfresh.
  { unfold fresh_entries, new_entries. cbn [target_props].
    apply list_filter_iff_elem. intros [k v] Hin. cbn [fst].
    rewrite Hnew; [done|]. by apply (list_elem_of_fmap_2 fst) in Hin. }
  assert (∀ y, y ∈ es → y.1 ≠ PROTO) as Hkeys.
  { intros [k v] Hin. cbn [fst]. intros ->. apply obj_has_false in Hproto.
    apply Hproto. by apply (list_elem_of_fmap_2 fst) in Hin. }
  assert (∀ y, y ∈ es →
            merge_entry deepMergeJson_rec (Parsed g) path y
            = json_entry ownMergeJson_rec g path y) as Hent.
  { intros [k ve] Hin. rewrite merge_entry_eq, json_entry_eq.
    cbn [target_has target_mapping]. unfold parsed_has, obj_has.
    destruct (obj_get g k) as [[| | | | |go]|] eqn:Hgk; cbn [orb];
      try by destruct (inherited k).
    - destruct (is_mapping ve) eqn:Hm; [|done].
      by rewrite (IH (k, ve) Hin go _ [] [] (Hnested k ve go Hin Hgk Hm)).
    - rewrite decide_False by (by apply (Hkeys (k, ve))).
      by destruct (inherited k). }
  rewrite Hfresh. rewrite !result_set_fold.
  rewrite (filter_all _ (new_entries es g)).
  2:{ rewrite <- Hfresh. intros [k v] Hin. cbn [fst]. intros ->.
      apply list_elem_of_filter in Hin as [Hin _]. cbn [fst] in Hin.
      by rewrite parsed_has_PROTO in Hin. }
  rewrite (filter_all _ es) by done.
  f_equal; [f_equal|].
  - f_equal. apply fold_set_ext. intros y Hy. by rewrite Hent.
  - f_equal. apply bind_ext_elem. intros y Hy. by rewrite Hent.
  - do 2 f_equal. apply bind_ext_elem. intros y Hy. by rewrite Hent.
Qed.

Lemma deepMergeJson_own e g path p a :
  own_reading (VObj e) g = true →
  deepMergeJson e g path p a = ownMergeJson e g path p a.
Proof. intros H. by apply deepMergeJson_rec_own. Qed.

Lemma deepMergeJson_plain e g path p a :
  plain_value (VObj e) = true → plain_value (VObj g) = true →
  deepMergeJson e g path p a = ownMergeJson e g path p a.
Proof. intros He Hg. by apply deepMergeJson_own, plain_value_own_reading. Qed.


(** *** Key order *)

Lemma keys_replace o k v : keys (obj_replace k v o) = keys o.
Proof.
  unfold keys. induction o as [|[k1 v1] o IH]; [done|]. cbn [obj_replace].
  destruct (decide (k = k1)); rewrite !fmap_cons; cbn [fst]; by rewrite ?IH.
Qed.


Lemma own_order_app ks1 k ks2 k' :
  own_order (ks1 ++ k :: ks2) = true → k' ∈ ks1 → key_precedes k k' = false.
Proof.
  induction ks1 as [|a ks1 IH]; intros Hord Hin; [by inv Hin|].
  simpl in Hord. apply andb_true_iff in Hord as [Ha Hord].
  apply elem_of_cons in Hin as [->|Hin]; [|by apply IH].
  rewrite forallb_forall in Ha. apply negb_true_iff, Ha, list_elem_of_In.
  apply elem_of_app. right. left.
Qed.







Lemma wf_value_obj e :
  wf_value (VObj e) = true →
  NoDup (keys e) ∧ ∀ k v, obj_get e k = Some v → wf_value v = true.
Proof.
  cbn [wf_value]. intros H.
  apply andb_true_iff in H as [H Hall]. apply andb_true_iff in H as [Hnd _].
  apply bool_decide_eq_true in Hnd. split; [done|]. intros k v Hget.
  rewrite forallb_forall in Hall.
  exact (Hall _ (proj1 (list_elem_of_In _ _) (obj_get_In _ _ _ Hget))).
Qed.





Lemma json_result_get (f : string * value number → value number) e g k :
  NoDup (keys e) → NoDup (keys g) →
  obj_get (fold_left (λ r x, obj_set r x.1 x.2) (new_entries e g)
             (fold_left (λ r x, obj_set r x.1 (f x)) e [])) k
  = match obj_get e k with
    | Some ve => Some (f (k, ve))
    | None => obj_get g k
    end.
Proof.
  intros He Hg. rewrite obj_get_fold by by apply NoDup_new_entries.
  rewrite obj_get_new_entries, obj_get_fold by done. unfold obj_has.
  destruct (obj_get e k); [done|]. by destruct (obj_get g k).
Qed.




End Objects.

(** ** Duplicate-free provenance *)

Lemma unique_go l seen :
  fold_left (λ seen x, if bool_decide (x ∈ seen) then seen else seen ++ [x]) l seen
  = seen ++ filter (λ y, y ∉ seen) (first_occurrences l).
Proof.
  revert seen. induction l as [|x l IH]; intros seen.
  - simpl. by rewrite app_nil_r.
  - cbn [fold_left first_occurrences]. rewrite IH, filter_cons, list_filter_filter.
    destruct (decide (x ∈ seen)) as [Hin|Hout].
    + rewrite bool_decide_eq_true_2, decide_False by tauto. f_equal.
      apply list_filter_iff. intros y. split; [|tauto].
      intros Hy. split; [done|]. by intros ->.
    + rewrite bool_decide_eq_false_2, decide_True by done.
      rewrite <- app_assoc. cbn [app]. do 2 f_equal.
      apply list_filter_iff. intros y.
      rewrite elem_of_app, list_elem_of_singleton. tauto.
Qed.

Lemma unique_first_occurrences l : unique l = first_occurrences l.
Proof.
  unfold unique. rewrite unique_go. cbn [app].
  apply filter_all. intros y _ Hy. by inv Hy.
Qed.

Lemma NoDup_first_occurrences l : NoDup (first_occurrences l).
Proof.
  induction l as [|x l IH]; [constructor|]. simpl. apply NoDup_cons. split.
  - intros Hx. by apply list_elem_of_filter in Hx as [? _].
  - by apply NoDup_filter.
Qed.

Lemma NoDup_fmap_elem {A B} (f : A → B) (l : list A) x y :
  NoDup (f <$> l) → x ∈ l → y ∈ l → f x = f y → x = y.
Proof.
  induction l as [|a l IH]; intros Hnd Hx Hy Hf; [by inv Hx|].
  rewrite fmap_cons in Hnd. apply NoDup_cons in Hnd as [Ha Hnd].
  apply elem_of_cons in Hx as [->|Hx]; apply elem_of_cons in Hy as [->|Hy].
  - done.
  - exfalso. apply Ha. rewrite Hf. by apply list_elem_of_fmap_2.
  - exfalso. apply Ha. rewrite <- Hf. by apply list_elem_of_fmap_2.
  - by apply IH.
Qed.

Lemma titled_headers_sublist l :
  titled_headers l `sublist_of` (MarkdownSection.header <$> l).
Proof. unfold titled_headers. apply fmap_sublist, sublist_filter. Qed.

Lemma NoDup_headers_of_keys l :
  NoDup (section_key <$> l) → NoDup (MarkdownSection.header <$> l).
Proof.
  unfold section_key. intros H.
  rewrite (list_fmap_compose MarkdownSection.header normalizeHeader) in H.
  by apply NoDup_fmap_1 in H.
Qed.

Lemma preserved_of_key es g h :
  h ∈ preserved_of es g → normalizeHeader h = section_key g.
Proof.
  unfold preserved_of.
  destruct (find_section es (section_key g)) as [e|] eqn:Hf; [|by intros H; inv H].
  apply find_section_key in Hf as [Hk _].
  destruct (is_preamble e); [by intros H; inv H|].
  intros ->%list_elem_of_singleton. exact Hk.
Qed.

Lemma added_of_key es g h : h ∈ added_of es g → h = MarkdownSection.header g.
Proof.
  unfold added_of. destruct (find_section es (section_key g)); [by intros H; inv H|].
  destruct (is_preamble g); [by intros H; inv H|].
  by intros ->%list_elem_of_singleton.
Qed.

Lemma NoDup_singleton_or_nil {A} (b : bool) (x : A) : NoDup (if b then [] else [x]).
Proof. destruct b; [constructor | apply NoDup_singleton]. Qed.

Lemma mergeMarkdown_nodup existing generated :
  NoDup (section_key <$> parseMarkdownSections generated) →
  NoDup (MarkdownSection.header <$> parseMarkdownSections existing) →
  NoDup (preserved (mergeMarkdown existing generated))
  ∧ NoDup (added (mergeMarkdown existing generated)).
Proof.
  intros Hg He. unfold mergeMarkdown.
  set (es := parseMarkdownSections existing) in *.
  set (gs := parseMarkdownSections generated) in *.
  pose proof (NoDup_headers_of_keys _ Hg) as Hgh.
  destruct (is_blank existing); [|destruct (is_blank generated)]; cbn [preserved added].
  - split; [constructor|]. eapply sublist_NoDup; [exact Hgh | apply titled_headers_sublist].
  - split; [|constructor]. eapply sublist_NoDup; [exact He | apply titled_headers_sublist].
  - destruct (merge_sections_closed es gs) as (_ & -> & ->). split.
    + apply NoDup_app. split_and!.
      * apply NoDup_bind; [| |by apply NoDup_fmap_1 in Hg].
        -- intros g1 g2 h Hg1 Hg2 H1 H2.
           apply (NoDup_fmap_elem section_key gs); [done..|].
           apply preserved_of_key in H1, H2. congruence.
        -- intros g _. unfold preserved_of. destruct (find_section _ _); [|constructor].
           apply NoDup_singleton_or_nil.
      * intros h (g & Hh & Hg')%list_elem_of_bind Hh'.
        apply list_elem_of_fmap in Hh' as (e & -> & Hin).
        apply list_elem_of_filter in Hin as [[Hk _] _]. apply Hk.
        apply preserved_of_key in Hh. unfold section_key at 1. rewrite Hh.
        by apply list_elem_of_fmap_2.
      * eapply sublist_NoDup; [exact He | apply fmap_sublist, sublist_filter].
    + apply NoDup_bind; [| |by apply NoDup_fmap_1 in Hg].
      * intros g1 g2 h Hg1 Hg2 H1 H2.
        apply (NoDup_fmap_elem section_key gs); [done..|].
        apply added_of_key in H1, H2. unfold section_key. congruence.
      * intros g _. unfold added_of. destruct (find_section _ _); [constructor|].
        apply NoDup_singleton_or_nil.
Qed.

(** *** Dotted paths *)

Lemma append_assoc a b c : (a +:+ b) +:+ c = a +:+ (b +:+ c).
Proof. induction a as [|x a IH]; [done|]. by rewrite !append_cons, IH. Qed.

Lemma fullPath_prefix path k : fullPath path k = path_prefix path +:+ k.
Proof.
  unfold fullPath, path_prefix. destruct (nonempty path); [|done].
  by rewrite append_assoc.
Qed.

Lemma nonempty_append_r a b : nonempty b = true → nonempty (a +:+ b) = true.
Proof. destruct a; [done|]. by rewrite append_cons. Qed.

Lemma fullPath_nested path k k2 :
  nonempty k = true →
  fullPath (fullPath path k) k2 = fullPath path k +:+ "." +:+ k2.
Proof.
  intros Hk. unfold fullPath at 1.
  assert (nonempty (fullPath path k) = true) as ->; [|done].
  rewrite fullPath_prefix. by apply nonempty_append_r.
Qed.

Lemma includes_cons c a s :
  includes c (String a s) = false → a ≠ c ∧ includes c s = false.
Proof.
  unfold includes, str_existsb. cbn [str_forallb]. intros H.
  apply negb_false_iff, andb_true_iff in H as [Ha Hs].
  apply negb_true_iff in Ha. split.
  - intros ->. by rewrite Ascii.eqb_refl in Ha.
  - by apply negb_false_iff.
Qed.

Lemma dotfree_inj k1 k2 t1 t2 :
  includes "." k1 = false → includes "." k2 = false →
  (t1 = "" ∨ ∃ r, t1 = "." +:+ r) → (t2 = "" ∨ ∃ r, t2 = "." +:+ r) →
  k1 +:+ t1 = k2 +:+ t2 → k1 = k2.
Proof.
  revert k2. induction k1 as [|a k1 IH]; intros [|b k2] H1 H2 Ht1 Ht2 Heq.
  - done.
  - apply includes_cons in H2 as [Hb _]. exfalso.
    rewrite append_cons in Heq. cbn in Heq.
    destruct Ht1 as [->|[r ->]]; [done|]. injection Heq as Hab _. by subst.
  - apply includes_cons in H1 as [Ha _]. exfalso.
    rewrite append_cons in Heq. cbn in Heq.
    destruct Ht2 as [->|[r ->]]; [done|]. injection Heq as Hab _. by subst.
  - rewrite !append_cons in Heq. injection Heq as -> Heq.
    apply includes_cons in H1 as [_ H1]. apply includes_cons in H2 as [_ H2].
    f_equal. by eapply IH.
Qed.

Lemma clean_key_spec k :
  clean_key k = true → nonempty k = true ∧ includes "." k = false.
Proof.
  unfold clean_key. intros [? ?%negb_true_iff]%andb_true_iff. done.
Qed.

Lemma below_inj path k1 k2 s :
  clean_key k1 = true → clean_key k2 = true →
  below path k1 s → below path k2 s → k1 = k2.
Proof.
  intros [_ H1]%clean_key_spec [_ H2]%clean_key_spec B1 B2.
  unfold below in *. rewrite !fullPath_prefix in *.
  assert (∃ t1, s = path_prefix path +:+ k1 +:+ t1 ∧ (t1 = "" ∨ ∃ r, t1 = "." +:+ r))
    as (t1 & E1 & Ht1).
  { destruct B1 as [->|[r ->]].
    - exists "". by rewrite append_nil_r; eauto.
    - exists ("." +:+ r). rewrite append_assoc. eauto. }
  assert (∃ t2, s = path_prefix path +:+ k2 +:+ t2 ∧ (t2 = "" ∨ ∃ r, t2 = "." +:+ r))
    as (t2 & E2 & Ht2).
  { destruct B2 as [->|[r ->]].
    - exists "". by rewrite append_nil_r; eauto.
    - exists ("." +:+ r). rewrite append_assoc. eauto. }
  rewrite E1 in E2. apply (inj (String.app _)) in E2.
  exact (dotfree_inj k1 k2 t1 t2 H1 H2 Ht1 Ht2 E2).
Qed.

Lemma below_nested path k k2 s :
  clean_key k = true → below (fullPath path k) k2 s → below path k s.
Proof.
  intros [Hk _]%clean_key_spec [->|[r ->]]; right.
  - rewrite fullPath_nested by done. eauto.
  - rewrite fullPath_nested by done. exists (k2 +:+ "." +:+ r).
    by rewrite !append_assoc.
Qed.

Lemma append_ne_self s c t : s +:+ String c t ≠ s.
Proof.
  intros H. apply (f_equal String.length) in H. revert H.
  induction s as [|a s IH]; [done|]. rewrite append_cons. simpl. intros H.
  apply IH. lia.
Qed.

Lemma below_nested_ne path k k2 s :
  clean_key k = true → below (fullPath path k) k2 s → s ≠ fullPath path k.
Proof.
  intros [Hk _]%clean_key_spec [->|[r ->]]; rewrite fullPath_nested by done.
  - apply append_ne_self.
  - rewrite !append_assoc. apply append_ne_self.
Qed.

Lemma fullPath_inj path k1 k2 : fullPath path k1 = fullPath path k2 → k1 = k2.
Proof. rewrite !fullPath_prefix. apply (inj (String.app _)). Qed.

Lemma pretty_N_char_not_dot d : Ascii.eqb "." (pretty_N_char d) = false.
Proof. unfold pretty_N_char. by repeat case_match. Qed.

Lemma pretty_N_go_dotfree x s :
  includes "." s = false → includes "." (pretty_N_go x s) = false.
Proof.
  revert s. induction (N.lt_wf_0 x) as [x _ IH]; intros s Hs.
  assert (x = 0 ∨ 0 < x)%N as [->|?] by lia; [by rewrite pretty_N_go_0|].
  rewrite pretty_N_go_step by done. apply IH; [by apply N.div_lt|].
  unfold includes, str_existsb in *. cbn [str_forallb].
  rewrite pretty_N_char_not_dot. cbn [negb andb]. exact Hs.
Qed.

Lemma pretty_N_go_nonempty x s :
  nonempty s = true → nonempty (pretty_N_go x s) = true.
Proof.
  revert s. induction (N.lt_wf_0 x) as [x _ IH]; intros s Hs.
  assert (x = 0 ∨ 0 < x)%N as [->|?] by lia; [by rewrite pretty_N_go_0|].
  rewrite pretty_N_go_step by done. by apply IH; [apply N.div_lt|].
Qed.

Lemma pretty_clean_key (n : N) : clean_key (pretty n) = true.
Proof.
  unfold clean_key, pretty, pretty_N. case_decide; [done|].
  assert (0 < n)%N as Hpos by lia.
  rewrite pretty_N_go_step by done. apply andb_true_iff. split.
  - by apply pretty_N_go_nonempty.
  - apply negb_true_iff, pretty_N_go_dotfree.
    unfold includes, str_existsb. cbn [str_forallb].
    by rewrite pretty_N_char_not_dot.
Qed.

Section Paths.
Context {number : Type}.
Implicit Types (o e g : obj number) (v : value number) (k key path : string).

Lemma clean_value_obj e k v :
  clean_value (VObj e) = true → (k, v) ∈ e →
  clean_key k = true ∧ clean_value v = true.
Proof.
  cbn [clean_value]. rewrite forallb_forall. intros H Hin.
  apply list_elem_of_In, H in Hin. by apply andb_true_iff in Hin.
Qed.

Lemma clean_value_key e k : clean_value (VObj e) = true → k ∈ keys e → clean_key k = true.
Proof.
  intros Hc ([k' v] & -> & Hin)%list_elem_of_fmap.
  by destruct (clean_value_obj _ _ _ Hc Hin).
Qed.

Lemma wf_value_elem e k v :
  wf_value (VObj e) = true → (k, v) ∈ e → wf_value v = true.
Proof.
  intros Hw Hin. destruct (wf_value_obj _ Hw) as [Hnd Hall].
  apply (Hall k). by apply obj_get_elem.
Qed.

Lemma NoDup_entries e : NoDup (keys e) → NoDup e.
Proof. apply NoDup_fmap_1. Qed.

Lemma entry_eq e a b : NoDup (keys e) → a ∈ e → b ∈ e → a.1 = b.1 → a = b.
Proof. intros Hnd. by apply (NoDup_fmap_elem fst). Qed.

(** *** Key collection in closed form *)

Lemma collect_props_closed rec path (props : obj number) :
  Forall (λ y, ck_writer rec y.2) props →
  ∀ ks, collect_props rec path props ks = ks ++ (props ≫= collected rec path).
Proof.
  induction 1 as [|[k v] props Hw _ IH]; intros ks.
  - simpl. by rewrite app_nil_r.
  - unfold ck_writer in Hw. cbn [snd] in Hw.
    cbn [collect_props]. rewrite IH, bind_cons. unfold collected at 2.
    cbn [fst snd]. destruct (is_mapping v).
    + rewrite (Hw (fullPath path k) (ks ++ [fullPath path k])).
      by rewrite <- !app_assoc.
    + by rewrite <- !app_assoc.
Qed.

Lemma collect_items_props rec path i (items : list (value number)) ks :
  collect_items rec path i items ks = collect_props rec path (indexed i items) ks.
Proof.
  revert i ks. induction items as [|v items IH]; intros i ks; [done|].
  cbn [collect_items indexed collect_props]. apply IH.
Qed.

Lemma indexed_elem i (items : list (value number)) k v :
  (k, v) ∈ indexed i items → v ∈ items ∧ ∃ j, (i ≤ j)%N ∧ k = pretty j.
Proof.
  revert i. induction items as [|x items IH]; intros i Hin; [by inv Hin|].
  cbn [indexed] in Hin. apply elem_of_cons in Hin as [[= -> ->]|Hin].
  - split; [left | exists i; split; [lia | done]].
  - destruct (IH _ Hin) as (Hv & j & Hj & ->).
    split; [by right | exists j; split; [lia | done]].
Qed.

Lemma NoDup_indexed i (items : list (value number)) : NoDup (keys (indexed i items)).
Proof.
  unfold keys. revert i. induction items as [|x items IH]; intros i; [constructor|].
  cbn [indexed]. rewrite fmap_cons. apply NoDup_cons. split; [|apply IH].
  cbn [fst]. intros ([k v] & Hk & Hin)%list_elem_of_fmap. cbn [fst] in Hk.
  apply indexed_elem in Hin as (_ & j & Hj & ->).
  apply (inj pretty) in Hk. lia.
Qed.

Lemma collectKeys_closed (x : value number) :
  ck_writer collectKeys x
  ∧ (∀ props, x = VObj props → ∀ path ks,
       collectKeys x path ks = ks ++ (props ≫= collected collectKeys path))
  ∧ (∀ items, x = VArr items → ∀ path ks,
       collectKeys x path ks = ks ++ (indexed 0 items ≫= collected collectKeys path)).
Proof.
  induction x as [| | | |items IH|props IH] using value_ind';
    try (split; [intros path ks; simpl; by rewrite app_nil_r | done]).
  - assert (Forall (λ y, ck_writer collectKeys y.2) (indexed 0 items)) as Hw.
    { apply Forall_forall. intros [k v] (Hv & _)%indexed_elem.
      rewrite Forall_forall in IH. by destruct (IH v Hv). }
    assert (∀ path ks, collectKeys (VArr items) path ks
                       = ks ++ (indexed 0 items ≫= collected collectKeys path))
      as Hclosed.
    { intros path ks. cbn [collectKeys]. rewrite collect_items_props.
      by apply collect_props_closed. }
    split; [|split; [done|]].
    + intros path ks. by rewrite !Hclosed.
    + intros items' [= <-]. exact Hclosed.
  - assert (Forall (λ y, ck_writer collectKeys y.2) props) as Hw.
    { eapply Forall_impl; [exact IH|]. by intros y [Hy _]. }
    assert (∀ path ks, collectKeys (VObj props) path ks
                       = ks ++ (props ≫= collected collectKeys path)) as Hclosed.
    { intros path ks. cbn [collectKeys]. by apply collect_props_closed. }
    split; [|split; [|done]].
    + intros path ks. by rewrite !Hclosed.
    + intros props' [= <-]. exact Hclosed.
Qed.

Lemma collected_nodup (props : obj number) path :
  NoDup (keys props) →
  (∀ k v, (k, v) ∈ props →
     clean_key k = true
     ∧ NoDup (collectKeys v (fullPath path k) [])
     ∧ ∀ s, s ∈ collectKeys v (fullPath path k) [] → under (fullPath path k) s) →
  NoDup (props ≫= collected collectKeys path)
  ∧ ∀ s, s ∈ props ≫= collected collectKeys path → under path s.
Proof.
  intros Hnd Hprops.
  assert (∀ y, y ∈ props →
            NoDup (collected collectKeys path y)
            ∧ ∀ s, s ∈ collected collectKeys path y → below path y.1 s) as Hent.
  { intros [k v] Hy. destruct (Hprops k v Hy) as (Hck & Hn & Hu).
    unfold collected. cbn [fst snd]. destruct (is_mapping v).
    - split.
      + apply NoDup_cons. split; [|done]. intros Hin.
        destruct (Hu _ Hin) as [k2 Hb]. by eapply below_nested_ne.
      + intros s [->|Hs]%elem_of_cons; [by left|].
        destruct (Hu _ Hs) as [k2 Hb]. by eapply below_nested.
    - split; [apply NoDup_singleton|].
      intros t ->%list_elem_of_singleton. by left. }
  split.
  - apply NoDup_bind; [| |by apply NoDup_entries].
    + intros y1 y2 s H1 H2 Hs1 Hs2. apply (entry_eq props); [done..|].
      apply (below_inj path _ _ s).
      * destruct y1. by destruct (Hprops _ _ H1).
      * destruct y2. by destruct (Hprops _ _ H2).
      * by apply Hent.
      * by apply Hent.
    + intros y Hy. by apply Hent.
  - intros s (y & Hs & Hy)%list_elem_of_bind. exists y.1. by apply Hent.
Qed.

Lemma collectKeys_nodup (x : value number) :
  wf_value x = true → clean_value x = true →
  ∀ path, NoDup (collectKeys x path [])
          ∧ ∀ s, s ∈ collectKeys x path [] → under path s.
Proof.
  induction x as [| | | |items IH|props IH] using value_ind'; intros Hw Hc path;
    try (split; [constructor | by intros t Ht; inv Ht]).
  - rewrite (proj2 (proj2 (collectKeys_closed (VArr items))) items eq_refl).
    cbn [app]. apply collected_nodup; [apply NoDup_indexed|].
    intros k v (Hv & j & _ & ->)%indexed_elem.
    split; [apply pretty_clean_key|].
    rewrite Forall_forall in IH. cbn [wf_value clean_value] in Hw, Hc.
    rewrite forallb_forall in Hw. rewrite forallb_forall in Hc.
    apply IH; [done | by apply Hw, list_elem_of_In | by apply Hc, list_elem_of_In].
  - rewrite (proj1 (proj2 (collectKeys_closed (VObj props))) props eq_refl).
    cbn [app]. destruct (wf_value_obj _ Hw) as [Hnd _].
    apply collected_nodup; [done|]. intros k v Hin.
    destruct (clean_value_obj _ _ _ Hc Hin) as [Hck Hcv]. split; [done|].
    rewrite Forall_forall in IH.
    apply (IH (k, v) Hin); [by eapply wf_value_elem | done].
Qed.

Lemma collectKeys_nodup_any (x : value number) path :
  wf_value x = true → clean_value x = true → NoDup (collectKeys x path []).
Proof. intros Hw Hc. by apply collectKeys_nodup. Qed.

End Paths.

Section JsonPaths.
Context {number : Type}.
Implicit Types (o e g : obj number) (v : value number) (k key path : string).

Lemma ownMergeJson_rec_nodup (x : value number) :
  ∀ e, x = VObj e → wf_value x = true → clean_value x = true →
  ∀ g path, wf_value (VObj g) = true → clean_value (VObj g) = true →
    NoDup (ownMergeJson_rec x g path [] []).1.2
    ∧ NoDup (ownMergeJson_rec x g path [] []).2
    ∧ ∀ s, s ∈ (ownMergeJson_rec x g path [] []).1.2
               ++ (ownMergeJson_rec x g path [] []).2 → under path s.
Proof.
  induction x as [| | | | |es IH] using value_ind'; intros e Hx; try done.
  injection Hx as <-. intros Hw Hc g path Hwg Hcg.
  rewrite (proj2 (ownMergeJson_rec_closed (VObj es)) es eq_refl).
  cbn [fst snd app].
  destruct (wf_value_obj _ Hw) as [Hnd _]. destruct (wf_value_obj _ Hwg) as [Hndg _].
  rewrite Forall_forall in IH.
  assert (∀ y, y ∈ es →
            NoDup (json_entry ownMergeJson_rec g path y).1.2
            ∧ NoDup (json_entry ownMergeJson_rec g path y).2
            ∧ ∀ s, s ∈ (json_entry ownMergeJson_rec g path y).1.2
                       ++ (json_entry ownMergeJson_rec g path y).2 →
                   below path y.1 s) as Hent.
  { intros [k ve] Hy. destruct (clean_value_obj _ _ _ Hc Hy) as [Hck Hcv].
    assert (NoDup [fullPath path k] ∧ NoDup (@nil string)
            ∧ ∀ s, s ∈ [fullPath path k] ++ [] → below path k s) as Hplain.
    { split; [apply NoDup_singleton|]. split; [constructor|].
      intros t Ht. rewrite app_nil_r in Ht.
      apply list_elem_of_singleton in Ht as ->. by left. }
    rewrite json_entry_eq. cbn [fst snd].
    destruct (obj_get g k) as [[| | | | |go]|] eqn:Hgk; try exact Hplain.
    destruct ve as [| | | | |eo]; cbn [is_mapping fst snd]; try exact Hplain.
    apply obj_get_In in Hgk.
    destruct (clean_value_obj _ _ _ Hcg Hgk) as [_ Hcgo].
    destruct (IH (k, VObj eo) Hy eo eq_refl (wf_value_elem _ _ _ Hw Hy) Hcv
                go (fullPath path k) (wf_value_elem _ _ _ Hwg Hgk) Hcgo)
      as (Hp & Ha & Hu).
    split; [done|]. split; [done|]. intros s Hs.
    destruct (Hu s Hs) as [k2 Hb]. by eapply below_nested. }
  assert (∀ y1 y2 s, y1 ∈ es → y2 ∈ es →
            below path y1.1 s → below path y2.1 s → y1 = y2) as Hinj.
  { intros y1 y2 s H1 H2 B1 B2. apply (entry_eq es); [done..|].
    apply (below_inj path _ _ s); [| |done..].
    - destruct y1. by destruct (clean_value_obj _ _ _ Hc H1).
    - destruct y2. by destruct (clean_value_obj _ _ _ Hc H2). }
  split_and!.
  - apply NoDup_bind; [| |by apply NoDup_entries].
    + intros y1 y2 s H1 H2 Hs1 Hs2. apply (Hinj y1 y2 s); [done..| |].
      * apply (Hent y1 H1). apply elem_of_app. by left.
      * apply (Hent y2 H2). apply elem_of_app. by left.
    + intros y Hy. by apply Hent.
  - apply NoDup_app. split_and!.
    + apply NoDup_bind; [| |by apply NoDup_entries].
      * intros y1 y2 s H1 H2 Hs1 Hs2. apply (Hinj y1 y2 s); [done..| |].
        -- apply (Hent y1 H1). apply elem_of_app. by right.
        -- apply (Hent y2 H2). apply elem_of_app. by right.
      * intros y Hy. by apply Hent.
    + intros s (y & Hs & Hy)%list_elem_of_bind Hnew.
      apply list_elem_of_fmap in Hnew as (k' & -> & Hk').
      rewrite keys_new_entries in Hk'.
      apply list_elem_of_filter in Hk' as [Hfresh Hk'g].
      assert (below path y.1 (fullPath path k')) as Hb.
      { apply (Hent y Hy). apply elem_of_app. by right. }
      assert (y.1 = k') as Hyk.
      { apply (below_inj path _ _ (fullPath path k')); [| |done|by left].
        - destruct y. by destruct (clean_value_obj _ _ _ Hc Hy).
        - by eapply clean_value_key. }
      apply obj_has_false in Hfresh. apply Hfresh. rewrite <- Hyk.
      by apply (list_elem_of_fmap_2 fst).
    + apply NoDup_fmap_2_strong.
      * intros k1 k2 _ _. apply fullPath_inj.
      * by apply NoDup_new_entries.
  - intros s [Hs|[Hs|Hs]%elem_of_app]%elem_of_app.
    + apply list_elem_of_bind in Hs as (y & Hs & Hy). exists y.1.
      apply (Hent y Hy). apply elem_of_app. by left.
    + apply list_elem_of_bind in Hs as (y & Hs & Hy). exists y.1.
      apply (Hent y Hy). apply elem_of_app. by right.
    + apply list_elem_of_fmap in Hs as (k' & -> & _). exists k'. by left.
Qed.

(** The lists of [deepMergeJson]. *)

Lemma target_mapping_props (t go : target number) k :
  target_mapping t k = Some go →
  wf_value (VObj (target_props t)) = true →
  clean_value (VObj (target_props t)) = true →
  wf_value (VObj (target_props go)) = true
  ∧ clean_value (VObj (target_props go)) = true.
Proof.
  destruct t as [g|]; [|done]. cbn [target_mapping target_props].
  destruct (obj_get g k) as [[| | | | |o]|] eqn:Hgk; try done.
  - intros [= <-] Hw Hc. apply obj_get_In in Hgk. cbn [target_props].
    split; [by eapply wf_value_elem|]. by destruct (clean_value_obj _ _ _ Hc Hgk).
  - destruct (decide (k = PROTO)); [|done]. by intros [= <-].
Qed.

Lemma deepMergeJson_rec_lists (x : value number) :
  ∀ e, x = VObj e → wf_value x = true → clean_value x = true →
  ∀ (t : target number) path,
    wf_value (VObj (target_props t)) = true →
    clean_value (VObj (target_props t)) = true →
    NoDup (deepMergeJson_rec x t path [] []).1.2
    ∧ NoDup (deepMergeJson_rec x t path [] []).2
    ∧ (∀ s, s ∈ (deepMergeJson_rec x t path [] []).1.2
                ++ (deepMergeJson_rec x t path [] []).2 → under path s)
    ∧ ∀ s, s ∈ (deepMergeJson_rec x t path [] []).1.2 →
           s ∉ (deepMergeJson_rec x t path [] []).2.
Proof.
  induction x as [| | | | |es IH] using value_ind'; intros e Hx; try done.
  injection Hx as <-. intros Hw Hc t path Hwg Hcg.
  rewrite (proj2 (deepMergeJson_rec_closed (VObj es)) es eq_refl).
  cbn [fst snd app].
  destruct (wf_value_obj _ Hw) as [Hnd _]. destruct (wf_value_obj _ Hwg) as [Hndg _].
  rewrite Forall_forall in IH.
  assert (∀ y, y ∈ es →
            NoDup (merge_entry deepMergeJson_rec t path y).1.2
            ∧ NoDup (merge_entry deepMergeJson_rec t path y).2
            ∧ (∀ s, s ∈ (merge_entry deepMergeJson_rec t path y).1.2
                        ++ (merge_entry deepMergeJson_rec t path y).2 →
                    below path y.1 s)
            ∧ ∀ s, s ∈ (merge_entry deepMergeJson_rec t path y).1.2 →
                   s ∉ (merge_entry deepMergeJson_rec t path y).2) as Hent.
  { intros [k ve] Hy. destruct (clean_value_obj _ _ _ Hc Hy) as [Hck Hcv].
    assert (NoDup [fullPath path k] ∧ NoDup (@nil string)
            ∧ (∀ s, s ∈ [fullPath path k] ++ [] → below path k s)
            ∧ ∀ s, s ∈ [fullPath path k] → s ∉ @nil string) as Hplain.
    { split; [apply NoDup_singleton|]. split; [constructor|]. split.
      - intros s Hs. rewrite app_nil_r in Hs.
        apply list_elem_of_singleton in Hs as ->. by left.
      - intros s _ Hs. by inv Hs. }
    rewrite merge_entry_eq. cbn [fst snd].
    destruct (target_has t k); [|exact Hplain].
    destruct (target_mapping t k) as [go|] eqn:Hgo; [|exact Hplain].
    destruct ve as [| | | | |eo]; cbn [is_mapping fst snd]; try exact Hplain.
    destruct (target_mapping_props _ _ _ Hgo Hwg Hcg) as [Hwgo Hcgo].
    destruct (IH (k, VObj eo) Hy eo eq_refl (wf_value_elem _ _ _ Hw Hy) Hcv
                go (fullPath path k) Hwgo Hcgo) as (Hp & Ha & Hu & Hd).
    split; [done|]. split; [done|]. split; [|done]. intros s Hs.
    destruct (Hu s Hs) as [k2 Hb]. by eapply below_nested. }
  assert (∀ y1 y2 s, y1 ∈ es → y2 ∈ es →
            below path y1.1 s → below path y2.1 s → y1 = y2) as Hinj.
  { intros y1 y2 s H1 H2 B1 B2. apply (entry_eq es); [done..|].
    apply (below_inj path _ _ s); [| |done..].
    - destruct y1. by destruct (clean_value_obj _ _ _ Hc H1).
    - destruct y2. by destruct (clean_value_obj _ _ _ Hc H2). }
  assert (∀ y s, y ∈ es → below path y.1 s →
            s ∉ fullPath path <$> keys (fresh_entries es t)) as Hfresh.
  { intros y s Hy Hb Hnew.
    apply list_elem_of_fmap in Hnew as (k' & -> & Hk').
    rewrite keys_fresh_entries in Hk'.
    apply list_elem_of_filter in Hk' as [[Hown _]%parsed_has_false Hk'g].
    assert (y.1 = k') as Hyk.
    { apply (below_inj path _ _ (fullPath path k')); [| |done|by left].
      - destruct y. by destruct (clean_value_obj _ _ _ Hc Hy).
      - by eapply clean_value_key. }
    apply obj_has_false in Hown. apply Hown. rewrite <- Hyk.
    by apply (list_elem_of_fmap_2 fst). }
  split_and!.
  - apply NoDup_bind; [| |by apply NoDup_entries].
    + intros y1 y2 s H1 H2 Hs1 Hs2. apply (Hinj y1 y2 s); [done..| |].
      * apply (Hent y1 H1). apply elem_of_app. by left.
      * apply (Hent y2 H2). apply elem_of_app. by left.
    + intros y Hy. by apply Hent.
  - apply NoDup_app. split_and!.
    + apply NoDup_bind; [| |by apply NoDup_entries].
      * intros y1 y2 s H1 H2 Hs1 Hs2. apply (Hinj y1 y2 s); [done..| |].
        -- apply (Hent y1 H1). apply elem_of_app. by right.
        -- apply (Hent y2 H2). apply elem_of_app. by right.
      * intros y Hy. by apply Hent.
    + intros s (y & Hs & Hy)%list_elem_of_bind. apply (Hfresh y s Hy).
      apply (Hent y Hy). apply elem_of_app. by right.
    + apply NoDup_fmap_2_strong.
      * intros k1 k2 _ _. apply fullPath_inj.
      * rewrite keys_fresh_entries. by apply NoDup_filter.
  - intros s [Hs|[Hs|Hs]%elem_of_app]%elem_of_app.
    + apply list_elem_of_bind in Hs as (y & Hs & Hy). exists y.1.
      apply (Hent y Hy). apply elem_of_app. by left.
    + apply list_elem_of_bind in Hs as (y & Hs & Hy). exists y.1.
      apply (Hent y Hy). apply elem_of_app. by right.
    + apply list_elem_of_fmap in Hs as (k' & -> & _). exists k'. by left.
  - intros s (y1 & Hs1 & Hy1)%list_elem_of_bind [Hs2|Hs2]%elem_of_app.
    + apply list_elem_of_bind in Hs2 as (y2 & Hs2 & Hy2).
      assert (y1 = y2) as <-.
      { apply (Hinj y1 y2 s); [done..| |].
        - apply (Hent y1 Hy1). apply elem_of_app. by left.
        - apply (Hent y2 Hy2). apply elem_of_app. by right. }
      by apply (Hent y1 Hy1) in Hs1.
    + apply (Hfresh y1 s Hy1); [|done].
      apply (Hent y1 Hy1). apply elem_of_app. by left.
Qed.

Lemma deepMergeJson_rec_nodup (x : value number) :
  ∀ e, x = VObj e → wf_value x = true → clean_value x = true →
  ∀ g path, wf_value (VObj g) = true → clean_value (VObj g) = true →
    NoDup (deepMergeJson_rec x (Parsed g) path [] []).1.2
    ∧ NoDup (deepMergeJson_rec x (Parsed g) path [] []).2
    ∧ ∀ s, s ∈ (deepMergeJson_rec x (Parsed g) path [] []).1.2
               ++ (deepMergeJson_rec x (Parsed g) path [] []).2 → under path s.
Proof.
  intros e Hx Hw Hc g path Hwg Hcg.
  destruct (deepMergeJson_rec_lists x e Hx Hw Hc (Parsed g) path Hwg Hcg)
    as (H1 & H2 & H3 & _).
  done.
Qed.

Variable JSON_parse : string → option (value number).
Variable JSON_stringify : value number → string.

Lemma mergeJson_nodup existing generated :
  (∀ v, JSON_parse existing = Some v → wf_value v = true ∧ clean_value v = true) →
  (∀ v, JSON_parse generated = Some v → wf_value v = true ∧ clean_value v = true) →
  NoDup (preserved (mergeJson JSON_parse JSON_stringify existing generated))
  ∧ NoDup (added (mergeJson JSON_parse JSON_stringify existing generated)).
Proof.
  intros He Hg. unfold mergeJson.
  destruct (is_blank existing); [|destruct (is_blank generated)].
  - destruct (JSON_parse generated) as [v|]; cbn [preserved added];
      (split; [constructor|]); [|constructor].
    destruct (Hg v eq_refl). by apply collectKeys_nodup_any.
  - destruct (JSON_parse existing) as [v|]; cbn [preserved added];
      (split; [|constructor]); [|constructor].
    destruct (He v eq_refl). by apply collectKeys_nodup_any.
  - destruct (JSON_parse existing) as [ve|];
      [|cbn [preserved added]; split; [apply NoDup_singleton | constructor]].
    destruct (JSON_parse generated) as [vg|];
      [|cbn [preserved added]; split; [apply NoDup_singleton | constructor]].
    destruct (He ve eq_refl) as [Hwe Hce]. destruct (Hg vg eq_refl) as [Hwg Hcg].
    destruct ve as [| | | | |eo];
      try (cbn [preserved added]; split; [apply NoDup_singleton | constructor]).
    destruct vg as [| | | | |go];
      try (cbn [preserved added]; split;
           [by apply collectKeys_nodup_any | constructor]).
    unfold deepMergeJson.
    destruct (deepMergeJson_rec_nodup (VObj eo) eo eq_refl Hwe Hce go "" Hwg Hcg)
      as (Hp & Ha & _).
    destruct (deepMergeJson_rec (VObj eo) (Parsed go) "" [] []) as [[merged pres] add].
    by cbn [preserved added fst snd] in *.
Qed.

End JsonPaths.

(** C7 (as amended): the YAML merge of two non-blank texts returns the
    first occurrences of the identifiers it accumulated, so neither list
    has a duplicate; the section merge returns lists without duplicates
    when the generated sections have pairwise distinct keys and the
    existing sections pairwise distinct headers; the JSON merge returns
    lists without duplicates when every key of the parsed documents is
    non-empty and free of dots. *)
Theorem merge_provenance_duplicate_free :
  (∀ existing generated,
     NoDup (section_key <$> parseMarkdownSections generated) →
     NoDup (MarkdownSection.header <$> parseMarkdownSections existing) →
     NoDup (preserved (mergeMarkdown existing generated))
     ∧ NoDup (added (mergeMarkdown existing generated)))
  ∧ (∀ (number : Type) (Number : string → number) (isNaN : number → bool)
       (String_of_number : number → string) existing generated,
       is_blank existing = false → is_blank generated = false →
       let out := deepMergePreserveExisting (parseSimpleYaml Number isNaN existing)
                    (parseSimpleYaml Number isNaN generated) "" [] [] in
       preserved (mergeYaml Number isNaN String_of_number existing generated)
         = first_occurrences out.1.2
       ∧ added (mergeYaml Number isNaN String_of_number existing generated)
         = first_occurrences out.2
       ∧ NoDup (preserved (mergeYaml Number isNaN String_of_number existing generated))
       ∧ NoDup (added (mergeYaml Number isNaN String_of_number existing generated)))
  ∧ (∀ (number : Type) (JSON_parse : string → option (value number))
       (JSON_stringify : value number → string) existing generated,
       (∀ v, JSON_parse existing = Some v →
             wf_value v = true ∧ clean_value v = true) →
       (∀ v, JSON_parse generated = Some v →
             wf_value v = true ∧ clean_value v = true) →
       NoDup (preserved (mergeJson JSON_parse JSON_stringify existing generated))
       ∧ NoDup (added (mergeJson JSON_parse JSON_stringify existing generated))).
Proof.
  split_and!.
  - apply mergeMarkdown_nodup.
  - intros number Number isNaN String_of_number existing generated He Hg out.
    unfold mergeYaml. rewrite He, Hg. subst out.
    destruct (deepMergePreserveExisting _ _ "" [] []) as [[merged pres] add].
    cbn [preserved added fst snd]. rewrite !unique_first_occurrences.
    split_and!; try done; apply NoDup_first_occurrences.
  - intros number JSON_parse JSON_stringify. apply mergeJson_nodup.
Qed.

(** C7 as stated fails for the section merge and for the JSON merge:
    two generated sections of one key record the matching header twice,
    and a dotted key records the same path as a nested key. *)
Lemma provenance_duplicates :
  preserved (mergeMarkdown (nl "# A|x") (nl "# A|y|# A|z")) = ["A"; "A"]
  ∧ preserved (Ref.mergeJson (Ref.js "{'a.b':1,'a':{'b':2}}") (Ref.js "{'a':{}}"))
    = ["a.b"; "a.b"]
  ∧ ¬ NoDup (preserved (mergeMarkdown (nl "# A|x") (nl "# A|y|# A|z"))).
Proof.
  split_and!; try (vm_compute; reflexivity).
  assert (preserved (mergeMarkdown (nl "# A|x") (nl "# A|y|# A|z")) = ["A"; "A"])
    as -> by (vm_compute; reflexivity).
  intros H. apply NoDup_cons in H as [H _]. apply H. left.
Qed.

(** ** The merges on concrete documents *)





Lemma merge_provenance_duplicate_free_example :
  NoDup (preserved (mergeMarkdown (nl "# A|x|# C|z") (nl "# A|y|# B|w")))
  ∧ NoDup (preserved (Ref.mergeYaml (nl "a: 1|b:|  c: 2") (nl "a: 9|b:|  d: 3")))
  ∧ NoDup (preserved (Ref.mergeJson (Ref.js "{'a':1,'b':{'c':2}}")
                                    (Ref.js "{'a':9,'b':{'d':3}}"))).
Proof.
  destruct merge_provenance_duplicate_free as (Hmd & Hyaml & Hjson).
  split_and!.
  - apply Hmd; apply (bool_decide_unpack _); vm_compute; exact I.
  - apply (Hyaml _ Ref.Number Ref.isNaN Ref.String_of_number);
      vm_compute; reflexivity.
  - apply (Hjson _ Ref.JSON_parse Ref.JSON_stringify);
      intros v Hv; vm_compute in Hv; injection Hv as <-;
      split; vm_compute; reflexivity.
Defined.

Lemma parseYamlValue_coercion_example :
  Ref.parseYamlValue (Ref.js "'say: hi'") = VStr "say: hi"
  ∧ Ref.parseYamlValue "True" = VBool true
  ∧ Ref.parseYamlValue "~" = VNull
  ∧ Ref.parseYamlValue "42" = VNum (Some 42%Z)
  ∧ Ref.parseYamlValue "4x2" = VStr "4x2".
Proof.
  destruct (parseYamlValue_coercion Ref.Number Ref.isNaN)
    as (Hq & Ht & _ & Hn & Hother).
  split_and!.
  - apply (Hq DQUOTE "say: hi"). by left.
  - apply Ht. set_solver.
  - apply Hn. set_solver.
  - rewrite Hother; [reflexivity | reflexivity |].
    apply (bool_decide_unpack _). vm_compute. exact I.
  - rewrite Hother; [reflexivity | reflexivity |].
    apply (bool_decide_unpack _). vm_compute. exact I.
Defined.

(** * Further properties *)

(** ** Strings: reversal and trimming *)

Lemma rev_app_append s t : String.rev_app s t = String.rev s +:+ t.
Proof.
  unfold String.rev. revert t. induction s as [|a s IH]; intros t; [done|].
  simpl. rewrite (IH (String a "")), IH, append_assoc. done.
Qed.

Lemma rev_cons c s : String.rev (String c s) = String.rev s +:+ str1 c.
Proof. unfold String.rev at 1. simpl. apply rev_app_append. Qed.

Lemma rev_snoc s c : String.rev (s +:+ str1 c) = String c (String.rev s).
Proof.
  induction s as [|a s IH]; [done|].
  by rewrite append_cons, !rev_cons, IH.
Qed.

Lemma nonempty_rev s : nonempty (String.rev s) = nonempty s.
Proof. destruct s as [|a s]; [done|]. rewrite rev_cons. by destruct (String.rev s). Qed.

Lemma drop_while_snoc p s c :
  drop_while p (s +:+ str1 c) =
    if nonempty (drop_while p s) then drop_while p s +:+ str1 c
    else if p c then "" else str1 c.
Proof.
  induction s as [|a s IH]; simpl; [by destruct (p c)|].
  destruct (p a); [done|]. done.
Qed.

Lemma trimEnd_cons c s :
  trimEnd (String c s) =
    if nonempty (trimEnd s) then String c (trimEnd s)
    else if is_ws c then "" else str1 c.
Proof.
  unfold trimEnd. rewrite rev_cons, drop_while_snoc, nonempty_rev.
  destruct (nonempty (drop_while is_ws (String.rev s))); [by rewrite rev_snoc|].
  by destruct (is_ws c).
Qed.

Lemma trimEnd_nil : trimEnd "" = "".
Proof. reflexivity. Qed.

Lemma take_drop_while p s : take_while p s +:+ drop_while p s = s.
Proof. induction s as [|a s IH]; [done|]. simpl. destruct (p a); [by rewrite append_cons, IH | done]. Qed.

Lemma str_forallb_app p s t :
  str_forallb p (s +:+ t) = str_forallb p s && str_forallb p t.
Proof. induction s as [|a s IH]; [done|]. rewrite append_cons. simpl. by rewrite IH, andb_assoc. Qed.

(** ** The header pattern *)

Lemma headerRegex_level l lvl text :
  headerRegex l = Some (lvl, text) →
  (1 ≤ lvl ≤ 6)%nat ∧ lvl = String.length (take_while (Ascii.eqb "#"%char) l).
Proof.
  unfold headerRegex.
  destruct ((1 <=? _)%nat && (_ <=? 6)%nat) eqn:Hk; [|done].
  apply andb_true_iff in Hk as [H1%Nat.leb_le H2%Nat.leb_le].
  intros H.
  assert (lvl = String.length (take_while (Ascii.eqb "#"%char) l)) as ->
    by (repeat case_match; simplify_eq; done).
  split; [lia | done].
Qed.

Lemma headerRegex_cr l : headerRegex (l +:+ str1 CR) = None.
Proof.
  unfold headerRegex.
  destruct ((1 <=? _)%nat && (_ <=? 6)%nat); [|done].
  set (rest := drop_while (Ascii.eqb "#"%char) (l +:+ str1 CR)).
  assert (rest = "" ∨ ∃ r, rest = r +:+ str1 CR) as Hrest.
  { subst rest. rewrite drop_while_snoc.
    destruct (nonempty _); [right; eauto | right; by exists ""]. }
  pose proof (take_drop_while is_ws rest) as Hsplit.
  destruct (take_while is_ws rest) as [|w ws] eqn:Hws; [done|].
  destruct (drop_while is_ws rest) as [|t tail] eqn:Htail.
  - rewrite append_nil_r in Hsplit. destruct Hrest as [Hr|[r Hr]]; [congruence|].
    rewrite Hsplit, Hr, rev_snoc. by destruct (String.rev r).
  - assert (∃ r, String t tail = r +:+ str1 CR) as [r Hr].
    { destruct Hrest as [Hr|[r Hr]]; [by rewrite Hr in Htail|].
      rewrite Hr, drop_while_snoc in Htail.
      destruct (nonempty (drop_while is_ws r)); [eauto|].
      change (is_ws CR) with true in Htail. done. }
    rewrite Hr, str_forallb_app. simpl. by rewrite andb_false_r.
Qed.

Lemma header_groups_elem lines g :
  g ∈ header_groups lines → is_Some (headerRegex g.1).
Proof.
  induction lines as [|l ls IH]; simpl; [by intros H; inv H|].
  destruct (headerRegex l) eqn:Hl; [|done].
  intros [->|H]%elem_of_cons; [cbn [fst]; by rewrite Hl | by apply IH].
Qed.

Lemma header_groups_nil lines :
  Forall (λ l, headerRegex l = None) lines → header_groups lines = [].
Proof. induction 1 as [|l ls Hl _ IH]; simpl; [done|]. by rewrite Hl. Qed.

Lemma split_nonempty c s : split c s ≠ [].
Proof. destruct s; simpl; [done|]. repeat case_match; done. Qed.

(** The parser in closed form. *)
Lemma parseMarkdownSections_closed text :
  parseMarkdownSections text =
    match section_of_group <$> header_groups (split LF text) with
    | [] => [preamble_section text]
    | first :: rest =>
        match indexOf (MarkdownSection.rawHeader first) text with
        | Some (S n) =>
            if nonempty (trim (str_take (S n) text))
            then preamble_section (trim (str_take (S n) text)) :: first :: rest
            else first :: rest
        | _ => first :: rest
        end
    end.
Proof.
  set (lines := split LF text).
  set (st0 := {| sections := []; currentSection := None; contentLines := [] |}).
  destruct (scan_from_start lines st0 eq_refl) as [Hfin Hnone].
  unfold parseMarkdownSections. fold lines. fold st0.
  change (match currentSection (fold_left scan_line lines st0) with
          | Some cur => sections (fold_left scan_line lines st0)
                        ++ [close_section cur (contentLines (fold_left scan_line lines st0))]
          | None => sections (fold_left scan_line lines st0)
          end) with (finish (fold_left scan_line lines st0)).
  rewrite Hfin. simpl.
  destruct (header_groups lines) as [|g gs] eqn:Hg; [|done].
  rewrite (Hnone eq_refl). simpl.
  assert ((0 <? length lines)%nat = true) as ->.
  { pose proof (split_nonempty LF text). fold lines in H. by destruct lines. }
  unfold lines. by rewrite join_split.
Qed.

Lemma section_of_group_headed g :
  is_Some (headerRegex g.1) → headed (section_of_group g).
Proof.
  intros [[lvl text] H]. exists text. unfold section_of_group, close_section.
  cbn [MarkdownSection.rawHeader MarkdownSection.level MarkdownSection.header].
  rewrite H. by destruct (headerRegex_level _ _ _ H) as [? ?].
Qed.

(** X1: the parser returns at least one section for every text; only
    the first one can be a preamble, every other section was opened by
    a header line and has a level between 1 and 6, the number of [#] of
    that line. *)
Theorem parseMarkdownSections_shape (text : string) :
  ∃ first rest,
    parseMarkdownSections text = first :: rest
    ∧ ((∃ t, first = preamble_section t) ∨ headed first)
    ∧ Forall headed rest.
Proof.
  rewrite parseMarkdownSections_closed.
  assert (Forall headed (section_of_group <$> header_groups (split LF text))) as Hall.
  { apply Forall_fmap, Forall_forall. intros g Hg.
    by apply section_of_group_headed, (header_groups_elem (split LF text)). }
  destruct (section_of_group <$> header_groups (split LF text)) as [|first rest].
  - exists (preamble_section text), []. split; [done|]. split; [eauto | constructor].
  - apply Forall_cons in Hall as Hall'. destruct Hall' as [Hfirst Hrest].
    assert (∃ f r, first :: rest = f :: r
                   ∧ ((∃ t, f = preamble_section t) ∨ headed f) ∧ Forall headed r)
      as Hplain by (exists first, rest; split; [done|]; split; [by right | done]).
    destruct (indexOf _ text) as [[|n]|]; [done| |done].
    destruct (nonempty _); [|done].
    eexists _, _. split; [done|]. split; [eauto | done].
Qed.

(** X2: a line that ends with a carriage return is never a header
    line, so a document whose lines all end with a carriage return has
    no sections: it is parsed as a single preamble that holds the whole
    text. *)
Theorem carriage_return_hides_headers :
  (∀ l, headerRegex (l +:+ str1 CR) = None)
  ∧ (∀ text, Forall cr_line (split LF text) →
             parseMarkdownSections text = [preamble_section text]).
Proof.
  split; [apply headerRegex_cr|]. intros text Hcr.
  assert (Forall (λ l, headerRegex l = None) (split LF text)) as Hnone.
  { eapply Forall_impl; [exact Hcr|]. intros l [->|[l' ->]]; [done | apply headerRegex_cr]. }
  by rewrite parseMarkdownSections_closed, (header_groups_nil _ Hnone).
Qed.

Lemma carriage_return_hides_headers_example :
  parseMarkdownSections ("# Title" +:+ str1 CR +:+ str1 LF +:+ "text" +:+ str1 CR +:+ str1 LF)
  = [preamble_section
       ("# Title" +:+ str1 CR +:+ str1 LF +:+ "text" +:+ str1 CR +:+ str1 LF)].
Proof.
  refine (proj2 carriage_return_hides_headers _ _).
  match goal with
  | |- Forall _ ?l => let l' := eval vm_compute in l in change l with l'
  end.
  constructor; [right; by exists "# Title"|].
  constructor; [right; by exists "text"|].
  constructor; [by left | constructor].
Defined.

(** ** Normalized headers *)

Lemma drop_while_head p s c t : drop_while p s = String c t → p c = false.
Proof.
  induction s as [|a s IH]; simpl; [done|].
  destruct (p a) eqn:Ha; [done|]. intros H. by simplify_eq.
Qed.

Lemma str_forallb_drop_while q p s :
  str_forallb q s = true → str_forallb q (drop_while p s) = true.
Proof.
  induction s as [|a s IH]; simpl; [done|].
  intros [Ha Hs]%andb_true_iff. destruct (p a); [by apply IH|].
  simpl. by rewrite Ha, Hs.
Qed.

Lemma str_forallb_trimEnd q s :
  str_forallb q s = true → str_forallb q (trimEnd s) = true.
Proof.
  induction s as [|a s IH]; [done|]. simpl.
  intros [Ha Hs]%andb_true_iff. rewrite trimEnd_cons.
  destruct (nonempty (trimEnd s)); [simpl; by rewrite Ha, IH|].
  destruct (is_ws a); [done|]. simpl. by rewrite Ha.
Qed.

Lemma str_forallb_trim q s : str_forallb q s = true → str_forallb q (trim s) = true.
Proof. intros H. by apply str_forallb_trimEnd, str_forallb_drop_while. Qed.

Lemma str_forallb_filter q s : str_forallb q (str_filter q s) = true.
Proof.
  induction s as [|a s IH]; [done|]. simpl.
  destruct (q a) eqn:Ha; [simpl; by rewrite Ha|done].
Qed.

Lemma str_filter_id q s : str_forallb q s = true → str_filter q s = s.
Proof.
  induction s as [|a s IH]; [done|]. simpl.
  intros [Ha Hs]%andb_true_iff. by rewrite Ha, IH.
Qed.

Lemma str_map_id (q : ascii → bool) f s :
  (∀ c, q c = true → f c = c) → str_forallb q s = true → str_map f s = s.
Proof.
  intros Hf. induction s as [|a s IH]; [done|]. simpl.
  intros [Ha Hs]%andb_true_iff. by rewrite (Hf a Ha), IH.
Qed.

Lemma trimEnd_idemp s : trimEnd (trimEnd s) = trimEnd s.
Proof.
  induction s as [|a s IH]; [done|]. rewrite trimEnd_cons.
  destruct (nonempty (trimEnd s)) eqn:Hne.
  - by rewrite trimEnd_cons, IH, Hne.
  - destruct (is_ws a) eqn:Ha; [done|].
    unfold str1. by rewrite trimEnd_cons, trimEnd_nil, Ha.
Qed.

Lemma trimEnd_head c s : is_ws c = false → ∃ r, trimEnd (String c s) = String c r.
Proof.
  intros Hc. rewrite trimEnd_cons, Hc. destruct (nonempty (trimEnd s)); eauto.
Qed.

Lemma trim_idemp s : trim (trim s) = trim s.
Proof.
  unfold trim at 2 3. unfold trimStart.
  destruct (drop_while is_ws s) as [|c t] eqn:Hs; [done|].
  apply drop_while_head in Hs.
  destruct (trimEnd_head c t Hs) as [r Hr].
  unfold trim, trimStart. rewrite Hr. simpl. rewrite Hs, <- Hr. apply trimEnd_idemp.
Qed.

Lemma lower_char_keep c :
  is_lower_alnum c || is_ws c = true → lower_char c = c.
Proof. destruct c as [[] [] [] [] [] [] [] []]; vm_compute; done. Qed.

Lemma lower_char_idemp c : lower_char (lower_char c) = lower_char c.
Proof. destruct c as [[] [] [] [] [] [] [] []]; vm_compute; done. Qed.

Lemma toLowerCase_idemp s : toLowerCase (toLowerCase s) = toLowerCase s.
Proof.
  unfold toLowerCase. induction s as [|a s IH]; [done|].
  simpl. by rewrite lower_char_idemp, IH.
Qed.

Lemma normalizeHeader_alphabet h :
  str_forallb (λ c, is_lower_alnum c || is_ws c) (normalizeHeader h) = true.
Proof. apply str_forallb_trim, str_forallb_filter. Qed.

Lemma normalizeHeader_idemp h : normalizeHeader (normalizeHeader h) = normalizeHeader h.
Proof.
  pose proof (normalizeHeader_alphabet h) as Hk.
  unfold normalizeHeader at 1. unfold toLowerCase.
  rewrite (str_map_id _ _ _ lower_char_keep Hk), (str_filter_id _ _ Hk).
  apply trim_idemp.
Qed.

(** X3: the key of a header is canonical: it is made of lower-case
    letters, digits and white space only, normalizing it again or
    lower-casing the header first changes nothing, and every header
    matches its own key. *)
Theorem normalizeHeader_canonical (h : string) :
  normalizeHeader (normalizeHeader h) = normalizeHeader h
  ∧ str_forallb (λ c, is_lower_alnum c || is_ws c) (normalizeHeader h) = true
  ∧ normalizeHeader (toLowerCase h) = normalizeHeader h
  ∧ headersMatch h (normalizeHeader h) = true.
Proof.
  split_and!.
  - apply normalizeHeader_idemp.
  - apply normalizeHeader_alphabet.
  - unfold normalizeHeader. by rewrite toLowerCase_idemp.
  - unfold headersMatch. apply bool_decide_eq_true. by rewrite normalizeHeader_idemp.
Qed.

(** ** Section merge: what is recorded and what is kept *)

Lemma titled_headers_elem h secs :
  h ∈ titled_headers secs ↔ ∃ s, s ∈ secs ∧ titled s ∧ MarkdownSection.header s = h.
Proof.
  unfold titled_headers. rewrite list_elem_of_fmap. split.
  - intros (s & -> & [Ht Hs]%list_elem_of_filter). eauto.
  - intros (s & Hs & Ht & <-). exists s. split; [done|]. by apply list_elem_of_filter.
Qed.

Lemma is_preamble_false e : is_preamble e = false ↔ titled e.
Proof.
  unfold is_preamble, titled. rewrite bool_decide_eq_false. done.
Qed.

Lemma preserved_of_elem es g h :
  h ∈ preserved_of es g → ∃ e, e ∈ es ∧ titled e ∧ MarkdownSection.header e = h.
Proof.
  unfold preserved_of.
  destruct (find_section es (section_key g)) as [e|] eqn:Hf; [|by intros H; inv H].
  apply find_section_key in Hf as [_ He].
  destruct (is_preamble e) eqn:Hp; [by intros H; inv H|].
  intros ->%list_elem_of_singleton. exists e. by rewrite <- is_preamble_false.
Qed.

Lemma added_of_elem es g h :
  h ∈ added_of es g →
  titled g ∧ MarkdownSection.header g = h ∧ find_section es (section_key g) = None.
Proof.
  unfold added_of. destruct (find_section es (section_key g)); [by intros H; inv H|].
  destruct (is_preamble g) eqn:Hp; [by intros H; inv H|].
  intros ->%list_elem_of_singleton. by rewrite <- is_preamble_false.
Qed.

(** X4: the section merge records nothing it did not read: every
    header in [preserved] is the header of a titled section of the
    existing document, every header in [added] is the header of a titled
    section of the generated document, and, when the existing document
    is not blank, an added header matches no section of the existing
    document. *)
Theorem mergeMarkdown_provenance_sound (existing generated : string) :
  (∀ h, h ∈ preserved (mergeMarkdown existing generated) →
        h ∈ titled_headers (parseMarkdownSections existing))
  ∧ (∀ h, h ∈ added (mergeMarkdown existing generated) →
          h ∈ titled_headers (parseMarkdownSections generated)
          ∧ (is_blank existing = false →
             ∀ e, e ∈ parseMarkdownSections existing →
                  headersMatch (MarkdownSection.header e) h = false)).
Proof.
  unfold mergeMarkdown.
  set (es := parseMarkdownSections existing).
  set (gs := parseMarkdownSections generated).
  destruct (is_blank existing) eqn:He; [|destruct (is_blank generated) eqn:Hg];
    cbn [preserved added].
  - split; [by intros h H; inv H|]. intros h Hh. split; [done|]. done.
  - split; [done|]. by intros h H; inv H.
  - destruct (merge_sections_closed es gs) as (_ & -> & ->). split.
    + intros h [Hh|Hh]%elem_of_app.
      * apply list_elem_of_bind in Hh as (g & Hh & _).
        apply titled_headers_elem. by apply (preserved_of_elem es g).
      * apply list_elem_of_fmap in Hh as (e & -> & [[_ Ht] Hin]%list_elem_of_filter).
        apply titled_headers_elem. eauto.
    + intros h (g & Hh & Hg')%list_elem_of_bind.
      apply added_of_elem in Hh as (Ht & <- & Hnone). split.
      * apply titled_headers_elem. eauto.
      * intros _ e Hin. unfold headersMatch. apply bool_decide_eq_false. intros Hk.
        destruct (find_section_elem es e Hin) as [x Hx].
        unfold section_key in Hx at 1. rewrite Hk in Hx.
        unfold section_key in Hnone. congruence.
Qed.

(** X5: a section of the existing document whose header is not the
    literal [__preamble__] is kept, as long as it is the last one of
    its key: its header is recorded as preserved and its text is one of
    the parts the content is joined from.  (The preamble, and a section
    under a header line [# __preamble__], may be dropped.) *)
Theorem existing_section_survives (existing generated : string) (s : MarkdownSection) :
  is_blank existing = false →
  is_blank generated = false →
  titled s →
  find_section (parseMarkdownSections existing) (section_key s) = Some s →
  MarkdownSection.header s ∈ preserved (mergeMarkdown existing generated)
  ∧ ∃ parts,
      content (mergeMarkdown existing generated)
        = trim (join (str1 LF +:+ str1 LF) parts) +:+ str1 LF
      ∧ MarkdownSection.fullText s ∈ parts.
Proof.
  intros He Hg Ht Hlast. unfold mergeMarkdown. rewrite He, Hg. cbn [preserved content].
  set (es := parseMarkdownSections existing) in *.
  set (gs := parseMarkdownSections generated).
  destruct (merge_sections_closed es gs) as (-> & -> & _).
  pose proof (find_section_key _ _ _ Hlast) as [_ Hin].
  destruct (decide (section_key s ∈ section_key <$> gs)) as [Hk|Hk].
  - apply list_elem_of_fmap in Hk as (g & Hk & Hgin). split.
    + apply elem_of_app. left. apply list_elem_of_bind. exists g. split; [|done].
      unfold preserved_of. rewrite <- Hk, Hlast.
      apply is_preamble_false in Ht. rewrite Ht. by left.
    + eexists. split; [done|]. unfold spec_section_order. apply elem_of_app. left.
      apply list_elem_of_fmap. exists g. split; [|done].
      unfold emitted. by rewrite <- Hk, Hlast.
  - split.
    + apply elem_of_app. right. apply list_elem_of_fmap. exists s. split; [done|].
      by apply list_elem_of_filter.
    + eexists. split; [done|]. unfold spec_section_order. apply elem_of_app. right.
      apply list_elem_of_fmap. exists s. split; [done|]. by apply list_elem_of_filter.
Qed.

Lemma existing_section_survives_example :
  "Custom" ∈ preserved (mergeMarkdown (nl "# Title|Old||# Custom|KeepMe|")
                                      (nl "# Title|New||# New Section|Added|")).
Proof.
  refine (proj1 (existing_section_survives
                   (nl "# Title|Old||# Custom|KeepMe|")
                   (nl "# Title|New||# New Section|Added|")
                   {| MarkdownSection.header := "Custom"; MarkdownSection.level := 1;
                      MarkdownSection.rawHeader := "# Custom";
                      MarkdownSection.content := nl "KeepMe|";
                      MarkdownSection.fullText := nl "# Custom|KeepMe|" |} _ _ _ _)).
  - vm_compute; reflexivity.
  - vm_compute; reflexivity.
  - vm_compute; discriminate.
  - vm_compute; reflexivity.
Defined.

(** X6: when neither document has a header line, each is a single
    preamble and the two match: the merge keeps the existing text,
    trimmed and closed by one newline, ignores the generated text and
    records nothing. *)
Theorem mergeMarkdown_without_headers (existing generated : string) :
  is_blank existing = false →
  is_blank generated = false →
  no_header_line existing →
  no_header_line generated →
  mergeMarkdown existing generated =
    {| content := trim existing +:+ str1 LF; preserved := []; added := [] |}.
Proof.
  intros He Hg Hne Hng. unfold mergeMarkdown. rewrite He, Hg.
  rewrite !parseMarkdownSections_closed.
  rewrite (header_groups_nil _ Hne), (header_groups_nil _ Hng). cbn [fmap list_fmap].
  destruct (merge_sections_closed [preamble_section existing]
              [preamble_section generated]) as (-> & -> & ->).
  assert (find_section [preamble_section existing]
            (section_key (preamble_section generated))
          = Some (preamble_section existing)) as Hfind.
  { unfold find_section. by rewrite filter_cons, decide_True. }
  unfold spec_section_order, emitted, preserved_of, added_of.
  cbn [fmap list_fmap mbind list_bind]. rewrite Hfind.
  rewrite !filter_cons, !filter_nil.
  rewrite decide_False by (intros [_ Ht]; by apply Ht). done.
Qed.

Lemma mergeMarkdown_without_headers_example :
  mergeMarkdown (nl "my notes|") (nl "generated text|") =
    {| content := nl "my notes|"; preserved := []; added := [] |}.
Proof.
  rewrite (mergeMarkdown_without_headers (nl "my notes|") (nl "generated text|"));
    [vm_compute; reflexivity | vm_compute; reflexivity..| |].
  - repeat constructor.
  - repeat constructor.
Defined.

(** ** Deep merge: keys of the result *)

Lemma key_precedes_asym a b : key_precedes a b = true → key_precedes b a = false.
Proof.
  unfold key_precedes. destruct (array_index a), (array_index b); try done.
  intros H%N.ltb_lt. apply N.ltb_ge. lia.
Qed.

Lemma key_precedes_trans a b c :
  key_precedes a b = true → key_precedes b c = true → key_precedes a c = true.
Proof.
  unfold key_precedes.
  destruct (array_index a), (array_index b), (array_index c); try done.
  intros H1%N.ltb_lt H2%N.ltb_lt. apply N.ltb_lt. lia.
Qed.

Lemma own_order_cons k ks :
  own_order (k :: ks) = true ↔
  (∀ k', k' ∈ ks → key_precedes k' k = false) ∧ own_order ks = true.
Proof.
  simpl. rewrite andb_true_iff, forallb_forall. split; intros [H1 H2]; (split; [|done]).
  - intros k' Hk'. by apply negb_true_iff, H1, list_elem_of_In.
  - intros k' Hk'%list_elem_of_In. by apply negb_true_iff, H1.
Qed.

Lemma key_insert_elem k ks k' : k' ∈ key_insert k ks ↔ k' = k ∨ k' ∈ ks.
Proof.
  induction ks as [|a ks IH]; simpl.
  - rewrite list_elem_of_singleton. split; [by left | intros [?|H]; [done | by inv H]].
  - destruct (key_precedes k a); rewrite !elem_of_cons, ?IH; tauto.
Qed.

Lemma key_insert_NoDup k ks : k ∉ ks → NoDup ks → NoDup (key_insert k ks).
Proof.
  induction ks as [|a ks IH]; simpl; intros Hk Hnd.
  - apply NoDup_singleton.
  - destruct (key_precedes k a); [by apply NoDup_cons|].
    apply NoDup_cons in Hnd as [Ha Hnd]. apply not_elem_of_cons in Hk as [Hne Hk].
    apply NoDup_cons. split; [|by apply IH].
    rewrite key_insert_elem. intros [->|?]; done.
Qed.

Lemma key_insert_last k ks :
  (∀ k', k' ∈ ks → key_precedes k k' = false) → key_insert k ks = ks ++ [k].
Proof.
  induction ks as [|a ks IH]; intros H; [done|]. simpl.
  rewrite (H a) by left. rewrite IH; [done|]. intros k' Hk'. apply H. by right.
Qed.

Lemma own_order_insert k ks : own_order ks = true → own_order (key_insert k ks) = true.
Proof.
  induction ks as [|a ks IH]; intros Hord; [done|].
  apply own_order_cons in Hord as [Ha Hord]. cbn [key_insert].
  destruct (key_precedes k a) eqn:Hka.
  - apply own_order_cons. split; [|by apply own_order_cons].
    intros k' [->|Hk']%elem_of_cons; [by apply key_precedes_asym|].
    destruct (key_precedes k' k) eqn:Hk'k; [|done].
    by rewrite <- (Ha k' Hk'), (key_precedes_trans k' k a).
  - apply own_order_cons. split; [|by apply IH].
    intros k' [->|Hk']%key_insert_elem; [done | by apply Ha].
Qed.

Lemma key_set_elem ks k k' : k' ∈ key_set ks k ↔ k' = k ∨ k' ∈ ks.
Proof.
  unfold key_set. destruct (decide (k ∈ ks)) as [Hin|Hout].
  - rewrite bool_decide_eq_true_2 by done. split; [by right | by intros [->|?]].
  - rewrite bool_decide_eq_false_2 by done. apply key_insert_elem.
Qed.

Lemma key_set_NoDup ks k : NoDup ks → NoDup (key_set ks k).
Proof.
  unfold key_set. destruct (decide (k ∈ ks)) as [Hin|Hout].
  - by rewrite bool_decide_eq_true_2.
  - rewrite bool_decide_eq_false_2 by done. by apply key_insert_NoDup.
Qed.

Lemma own_order_key_set ks k : own_order ks = true → own_order (key_set ks k) = true.
Proof. unfold key_set. destruct (bool_decide _); [done | apply own_order_insert]. Qed.

Lemma key_set_old ks k : k ∈ ks → key_set ks k = ks.
Proof. intros H. unfold key_set. by rewrite bool_decide_eq_true_2. Qed.

Lemma fold_key_set_elem l ks k' : k' ∈ fold_left key_set l ks ↔ k' ∈ l ∨ k' ∈ ks.
Proof.
  revert ks. induction l as [|a l IH]; intros ks; simpl.
  - split; [by right | intros [H|?]; [by inv H | done]].
  - rewrite IH, key_set_elem, elem_of_cons. tauto.
Qed.

Lemma fold_key_set_NoDup l ks : NoDup ks → NoDup (fold_left key_set l ks).
Proof.
  revert ks. induction l as [|a l IH]; intros ks H; [done|].
  simpl. by apply IH, key_set_NoDup.
Qed.

Lemma own_order_fold_key_set l ks :
  own_order ks = true → own_order (fold_left key_set l ks) = true.
Proof.
  revert ks. induction l as [|a l IH]; intros ks H; [done|].
  simpl. by apply IH, own_order_key_set.
Qed.

Lemma fold_key_set_old l ks : (∀ k, k ∈ l → k ∈ ks) → fold_left key_set l ks = ks.
Proof.
  induction l as [|a l IH]; intros H; [done|]. simpl.
  rewrite key_set_old by (apply H; left). apply IH. intros k Hk. apply H. by right.
Qed.

Lemma fold_key_set_filter (ks0 l ks : list string) :
  (∀ k, k ∈ ks0 → k ∈ ks) →
  fold_left key_set l ks = fold_left key_set (filter (λ k, k ∉ ks0) l) ks.
Proof.
  revert ks. induction l as [|a l IH]; intros ks H; [done|].
  rewrite filter_cons. destruct (decide (a ∉ ks0)) as [Hout|Hin].
  - simpl. apply IH. intros k Hk. apply key_set_elem. right. by apply H.
  - assert (a ∈ ks0) as Ha by by destruct (decide (a ∈ ks0)).
    simpl. rewrite key_set_old by by apply H. by apply IH.
Qed.

Lemma fold_key_set_own l ks :
  own_order (ks ++ l) = true → NoDup (ks ++ l) → fold_left key_set l ks = ks ++ l.
Proof.
  revert ks. induction l as [|a l IH]; intros ks Hord Hnd.
  - by rewrite app_nil_r.
  - simpl. assert (key_set ks a = ks ++ [a]) as ->.
    { unfold key_set. rewrite bool_decide_eq_false_2.
      - apply key_insert_last. intros k' Hk'. by eapply own_order_app.
      - apply NoDup_app in Hnd as (_ & Hnd & _). intros Hin. apply (Hnd a Hin). left. }
    rewrite IH; rewrite <- ?app_assoc; done.
Qed.

Section MergeLaws.
Context {number : Type}.
Implicit Types (o e g : obj number) (v : value number) (k key path : string).

Lemma keys_obj_insert o k v : keys (obj_insert k v o) = key_insert k (keys o).
Proof.
  unfold keys. induction o as [|[k' v'] o IH]; [done|]. cbn [obj_insert].
  rewrite fmap_cons. cbn [fst key_insert].
  destruct (key_precedes k k'); [done|]. rewrite fmap_cons. cbn [fst]. by rewrite IH.
Qed.

Lemma obj_has_true o k : obj_has o k = true ↔ k ∈ keys o.
Proof.
  destruct (obj_has o k) eqn:H.
  - split; [|done]. intros _. destruct (decide (k ∈ keys o)) as [|Hn]; [done|].
    apply obj_has_false in Hn. congruence.
  - apply obj_has_false in H. split; [done | tauto].
Qed.

Lemma keys_obj_set o k v : keys (obj_set o k v) = key_set (keys o) k.
Proof.
  unfold obj_set, key_set. destruct (obj_has o k) eqn:H.
  - apply obj_has_true in H. by rewrite keys_replace, bool_decide_eq_true_2.
  - apply obj_has_false in H. by rewrite keys_obj_insert, bool_decide_eq_false_2.
Qed.

Lemma keys_fold_left_set (f : string * value number → value number) l r :
  keys (fold_left (λ r x, obj_set r x.1 (f x)) l r) = fold_left key_set (keys l) (keys r).
Proof.
  revert r. induction l as [|a l IH]; intros r; [done|].
  cbn [fold_left]. rewrite IH, keys_obj_set. done.
Qed.

Lemma filter_new_keys e g :
  filter (λ k, obj_has e k = false) (keys g) = filter (λ k, k ∉ keys e) (keys g).
Proof. apply list_filter_iff. intros k. apply obj_has_false. Qed.

(** The keys of the merged mapping, for both implementations. *)
Lemma json_merged_keys (f : string * value number → value number) e g :
  NoDup (keys e) → own_order (keys e) = true →
  keys (fold_left (λ r x, obj_set r x.1 x.2) (new_entries e g)
          (fold_left (λ r x, obj_set r x.1 (f x)) e []))
  = fold_left key_set (filter (λ k, k ∉ keys e) (keys g)) (keys e).
Proof.
  intros Hnd Hord.
  rewrite (keys_fold_left_set snd), (keys_fold_left_set f).
  rewrite keys_new_entries, filter_new_keys. f_equal.
  by apply (fold_key_set_own (keys e) []).
Qed.

Lemma yaml_merged_keys (f : string * value number → value number) e g :
  keys (fold_left (λ r x, obj_set r x.1 (f x)) g e)
  = fold_left key_set (filter (λ k, k ∉ keys e) (keys g)) (keys e).
Proof. rewrite keys_fold_left_set. by apply fold_key_set_filter. Qed.

Lemma wf_value_order e : wf_value (VObj e) = true → own_order (keys e) = true.
Proof.
  cbn [wf_value]. intros H.
  apply andb_true_iff in H as [H _]. by apply andb_true_iff in H as [_ H].
Qed.

Lemma wf_value_intro o :
  NoDup (keys o) → own_order (keys o) = true →
  (∀ k v, obj_get o k = Some v → wf_value v = true) →
  wf_value (VObj o) = true.
Proof.
  intros Hnd Hord Hall. cbn [wf_value].
  rewrite Hord, bool_decide_eq_true_2 by done. simpl.
  apply forallb_forall. intros [k v] Hin%list_elem_of_In. cbn [snd].
  apply (Hall k). by apply obj_get_elem.
Qed.

Lemma fold_set_self o :
  NoDup (keys o) → own_order (keys o) = true →
  fold_left (λ r x, obj_set r x.1 x.2) o [] = o.
Proof.
  intros Hnd Hord. apply obj_ext.
  - rewrite (keys_fold_left_set snd). by apply (fold_key_set_own (keys o) []).
  - rewrite (keys_fold_left_set snd). apply fold_key_set_NoDup. constructor.
  - intros k. rewrite (obj_get_fold snd) by done. by destruct (obj_get o k).
Qed.

(** Lookups in the two results. *)
Lemma ownMergeJson_get e g path p a k :
  NoDup (keys e) → NoDup (keys g) →
  obj_get (ownMergeJson e g path p a).1.1 k =
    match obj_get e k with
    | Some ve => Some (json_entry ownMergeJson_rec g path (k, ve)).1.1
    | None => obj_get g k
    end.
Proof.
  intros He Hg. rewrite ownMergeJson_closed. cbn [fst].
  by rewrite (json_result_get (λ x, (json_entry ownMergeJson_rec g path x).1.1)).
Qed.

Lemma deepMergePreserveExisting_get e g path p a k :
  NoDup (keys g) →
  obj_get (deepMergePreserveExisting e g path p a).1.1 k =
    match obj_get g k with
    | Some vg => Some (yaml_entry deepMergePreserveExisting_rec e path (k, vg)).1.1
    | None => obj_get e k
    end.
Proof.
  intros Hg. rewrite deepMergePreserveExisting_closed. cbn [fst].
  by rewrite (obj_get_fold (λ x, (yaml_entry deepMergePreserveExisting_rec e path x).1.1)).
Qed.

Lemma obj_get_entry o k v : NoDup (keys o) → (k, v) ∈ o ↔ obj_get o k = Some v.
Proof. intros Hnd. split; [by apply obj_get_elem | apply obj_get_In]. Qed.

End MergeLaws.

(** ** Deep merge: the two implementations *)

Lemma bind_perm_ext {A B} (f f' : A → list B) (l : list A) :
  (∀ x, x ∈ l → f x ≡ₚ f' x) → l ≫= f ≡ₚ l ≫= f'.
Proof.
  induction l as [|a l IH]; intros H; [done|]. rewrite !bind_cons.
  f_equiv; [apply H; left | apply IH; intros x Hx; apply H; by right].
Qed.

Lemma bind_singleton_fmap {A B} (f : A → B) (l : list A) : l ≫= (λ x, [f x]) = f <$> l.
Proof. induction l as [|a l IH]; [done|]. rewrite bind_cons, fmap_cons. simpl. by f_equal. Qed.

Lemma bind_split_perm {B} (other ks : list string) (F : string → list B) :
  ks ≫= F ≡ₚ (filter (λ k, k ∈ other) ks ≫= F) ++ (filter (λ k, k ∉ other) ks ≫= F).
Proof.
  rewrite <- bind_app. apply bind_Permutation. symmetry.
  apply (filter_app_complement (λ k, k ∈ other)).
Qed.

Lemma common_keys_perm (ks1 ks2 : list string) :
  NoDup ks1 → NoDup ks2 →
  filter (λ k, k ∈ ks2) ks1 ≡ₚ filter (λ k, k ∈ ks1) ks2.
Proof.
  intros H1 H2. apply NoDup_Permutation; [by apply NoDup_filter..|].
  intros k. rewrite !list_elem_of_filter. tauto.
Qed.

Section MergeTheorems.
Context {number : Type}.
Implicit Types (o e g : obj number) (v : value number) (k key path : string).

Lemma bind_by_key {B} (o : obj number) (F : string * value number → list B) :
  NoDup (keys o) →
  o ≫= F = keys o ≫= (λ k, match obj_get o k with Some v => F (k, v) | None => [] end).
Proof.
  induction o as [|[k v] o IH]; intros Hnd; [done|].
  change (keys ((k, v) :: o)) with (k :: keys o) in *.
  apply NoDup_cons in Hnd as [Hk Hnd].
  rewrite !bind_cons. cbn [obj_get]. rewrite decide_True by done. f_equal.
  rewrite IH by done. apply bind_ext_elem. intros k' Hk'.
  rewrite decide_False; [done|]. by intros ->.
Qed.

Lemma obj_get_Some_key o k v : obj_get o k = Some v → k ∈ keys o.
Proof.
  intros H. destruct (decide (k ∈ keys o)) as [|Hn]; [done|].
  apply obj_get_None in Hn. congruence.
Qed.

Lemma obj_get_key o k : k ∈ keys o → ∃ v, obj_get o k = Some v.
Proof.
  intros H. destruct (obj_get o k) as [v|] eqn:E; [eauto|].
  by apply obj_get_None in E.
Qed.

Lemma json_entry_only (rec : recursor) g path k ve :
  obj_get g k = None → json_entry rec g path (k, ve) = (ve, [fullPath path k], []).
Proof. intros H. by rewrite json_entry_eq, H. Qed.

Lemma yaml_entry_only (rec : recursor) e path k vg :
  obj_get e k = None → yaml_entry rec e path (k, vg) = (vg, [], [fullPath path k]).
Proof. intros H. by rewrite yaml_entry_eq, H. Qed.

(** The provenance lists of the two loops, indexed by key. *)
Lemma json_lists_by_key {B} e g (F : string * value number → list B) (single : string → list B) :
  NoDup (keys e) → NoDup (keys g) →
  (∀ k ve, obj_get e k = Some ve → obj_get g k = None → F (k, ve) = single k) →
  e ≫= F ≡ₚ
    (filter (λ k, k ∈ keys g) (keys e)
       ≫= λ k, match obj_get e k with Some ve => F (k, ve) | None => [] end)
    ++ (filter (λ k, k ∉ keys g) (keys e) ≫= single).
Proof.
  intros He Hg Hsingle. rewrite (bind_by_key e) by done.
  rewrite (bind_split_perm (keys g) (keys e)). f_equiv.
  apply bind_perm_ext. intros k [Hk Hin]%list_elem_of_filter.
  destruct (obj_get_key _ _ Hin) as [ve Hve]. rewrite Hve.
  rewrite Hsingle; [done | done | by apply obj_get_None].
Qed.

Lemma deep_merges_agree_rec (x : value number) :
  ∀ e, x = VObj e → wf_value x = true →
  ∀ g path, wf_value (VObj g) = true →
    (ownMergeJson_rec x g path [] []).1.1
      = (deepMergePreserveExisting_rec (VObj g) e path [] []).1.1
    ∧ (ownMergeJson_rec x g path [] []).1.2
      ≡ₚ (deepMergePreserveExisting_rec (VObj g) e path [] []).1.2
    ∧ (ownMergeJson_rec x g path [] []).2
      ≡ₚ (deepMergePreserveExisting_rec (VObj g) e path [] []).2.
Proof.
  induction x as [| | | |items _|props IH] using value_ind'; try done.
  intros e [= <-] Hwe g path Hwg.
  destruct (wf_value_obj _ Hwe) as [Hnde Hve].
  destruct (wf_value_obj _ Hwg) as [Hndg Hvg].
  pose proof (wf_value_order _ Hwe) as Horde.
  rewrite (proj2 (ownMergeJson_rec_closed (VObj props)) props eq_refl).
  rewrite (proj2 (deepMergePreserveExisting_rec_closed (VObj g)) g eq_refl).
  cbn [fst snd app].
  set (J := json_entry ownMergeJson_rec g path).
  set (Y := yaml_entry deepMergePreserveExisting_rec props path).
  assert (∀ k ve vg, obj_get props k = Some ve → obj_get g k = Some vg →
            (J (k, ve)).1.1 = (Y (k, vg)).1.1
            ∧ (J (k, ve)).1.2 ≡ₚ (Y (k, vg)).1.2
            ∧ (J (k, ve)).2 ≡ₚ (Y (k, vg)).2) as Hentry.
  { intros k ve vg He Hg. subst J Y. cbn beta.
    rewrite json_entry_eq, yaml_entry_eq, He, Hg.
    destruct vg as [| | | | |go]; destruct ve as [| | | | |eo]; try done.
    cbn [is_mapping].
    rewrite Forall_forall in IH.
    destruct (IH (k, VObj eo) (obj_get_In _ _ _ He) eo eq_refl (Hve _ _ He)
                go (fullPath path k) (Hvg _ _ Hg)) as (H1 & H2 & H3).
    cbn [fst snd] in H1, H2, H3 |- *. by rewrite H1. }
  split_and!.
  - apply obj_ext.
    + by rewrite json_merged_keys, yaml_merged_keys.
    + rewrite json_merged_keys by done. by apply fold_key_set_NoDup.
    + intros k. rewrite (json_result_get (λ x, (J x).1.1)) by done.
      rewrite (obj_get_fold (λ x, (Y x).1.1)) by done.
      destruct (obj_get props k) as [ve|] eqn:He, (obj_get g k) as [vg|] eqn:Hg;
        try done.
      * f_equal. by apply Hentry.
      * subst J. cbn beta. by rewrite json_entry_only.
      * subst Y. cbn beta. by rewrite yaml_entry_only.
  - rewrite (json_lists_by_key props g (λ x, (J x).1.2) (λ k, [fullPath path k]));
      [|done|done|by intros k ve He Hg; subst J; cbn beta; rewrite json_entry_only].
    rewrite (json_lists_by_key g props (λ x, (Y x).1.2) (λ k, []));
      [|done|done|by intros k vg Hg He; subst Y; cbn beta; rewrite yaml_entry_only].
    rewrite (bind_none (λ _, [])) by done. rewrite app_nil_r.
    rewrite bind_singleton_fmap. unfold old_keys. rewrite filter_new_keys.
    f_equiv. rewrite (common_keys_perm (keys g) (keys props)) by done.
    apply bind_perm_ext. intros k [Hk Hin]%list_elem_of_filter.
    destruct (obj_get_key _ _ Hin) as [ve He].
    destruct (obj_get_key _ _ Hk) as [vg Hg]. rewrite He, Hg. by apply Hentry.
  - rewrite (json_lists_by_key props g (λ x, (J x).2) (λ k, []));
      [|done|done|by intros k ve He Hg; subst J; cbn beta; rewrite json_entry_only].
    rewrite (json_lists_by_key g props (λ x, (Y x).2) (λ k, [fullPath path k]));
      [|done|done|by intros k vg Hg He; subst Y; cbn beta; rewrite yaml_entry_only].
    rewrite (bind_none (λ _, [])) by done. rewrite app_nil_r.
    rewrite bind_singleton_fmap, keys_new_entries, filter_new_keys.
    f_equiv. rewrite (common_keys_perm (keys g) (keys props)) by done.
    apply bind_perm_ext. intros k [Hk Hin]%list_elem_of_filter.
    destruct (obj_get_key _ _ Hin) as [ve He].
    destruct (obj_get_key _ _ Hk) as [vg Hg]. rewrite He, Hg. by apply Hentry.
Qed.

(** The merged mapping is the same, whatever lists are passed in. *)
Lemma merged_mapping_agrees (existing generated : obj number) (path : string)
    (preserved0 added0 : list string) :
  wf_value (VObj existing) = true →
  wf_value (VObj generated) = true →
  (ownMergeJson existing generated path preserved0 added0).1.1
    = (deepMergePreserveExisting existing generated path preserved0 added0).1.1.
Proof.
  intros He Hg.
  destruct (deep_merges_agree_rec (VObj existing) existing eq_refl He generated path Hg)
    as (H1 & _ & _).
  unfold ownMergeJson, deepMergePreserveExisting.
  rewrite (proj1 (ownMergeJson_rec_closed (VObj existing)) generated path preserved0 added0).
  by rewrite (proj1 (deepMergePreserveExisting_rec_closed (VObj generated))
                existing path preserved0 added0).
Qed.

(** X7: the two deep merges agree: on well-formed mappings none of
    whose keys, at any depth, is a property name of [Object.prototype],
    they return the same merged mapping, and their lists of preserved
    and of added paths hold the same paths, each as often, in a
    different order. *)
Theorem deep_merges_agree (existing generated : obj number) (path : string)
    (preserved0 added0 : list string) :
  wf_value (VObj existing) = true →
  wf_value (VObj generated) = true →
  plain_value (VObj existing) = true →
  plain_value (VObj generated) = true →
  (deepMergeJson existing generated path preserved0 added0).1.1
    = (deepMergePreserveExisting existing generated path preserved0 added0).1.1
  ∧ (deepMergeJson existing generated path preserved0 added0).1.2
    ≡ₚ (deepMergePreserveExisting existing generated path preserved0 added0).1.2
  ∧ (deepMergeJson existing generated path preserved0 added0).2
    ≡ₚ (deepMergePreserveExisting existing generated path preserved0 added0).2.
Proof.
  intros He Hg Hpe Hpg. rewrite deepMergeJson_plain by done.
  destruct (deep_merges_agree_rec (VObj existing) existing eq_refl He generated path Hg)
    as (H1 & H2 & H3).
  unfold ownMergeJson, deepMergePreserveExisting.
  rewrite (proj1 (ownMergeJson_rec_closed (VObj existing)) generated path preserved0 added0).
  rewrite (proj1 (deepMergePreserveExisting_rec_closed (VObj generated))
             existing path preserved0 added0).
  cbn [fst snd]. split_and!; [done | by f_equiv | by f_equiv].
Qed.

End MergeTheorems.

Lemma deep_merges_agree_example :
  (deepMergeJson existing_tree generated_tree "" [] []).1.1
  = (deepMergePreserveExisting existing_tree generated_tree "" [] []).1.1.
Proof.
  refine (proj1 (deep_merges_agree existing_tree generated_tree "" [] [] _ _ _ _));
    vm_compute; reflexivity.
Defined.

Section MergeCases.
Context {number : Type}.
Implicit Types (o e g : obj number) (v : value number) (k key path : string).

(** X8: what the deep merges do with a key that is not a property name
    of [Object.prototype]: a key of the existing mapping alone keeps
    its value and is recorded as preserved, a key of the generated
    mapping alone is taken over and recorded as added, two mappings
    (none of whose keys is such a name) are merged by the same function
    under the extended path, and a key that neither has does not
    appear. *)
Theorem deepMerge_per_key (existing generated : obj number) (path : string)
    (preserved0 added0 : list string) (key : string) :
  NoDup (keys existing) →
  NoDup (keys generated) →
  inherited key = false →
  let rj := deepMergeJson existing generated path preserved0 added0 in
  let ry := deepMergePreserveExisting existing generated path preserved0 added0 in
  (∀ ve, obj_get existing key = Some ve → obj_get generated key = None →
     obj_get rj.1.1 key = Some ve ∧ fullPath path key ∈ rj.1.2
     ∧ obj_get ry.1.1 key = Some ve ∧ fullPath path key ∈ ry.1.2)
  ∧ (∀ vg, obj_get existing key = None → obj_get generated key = Some vg →
       obj_get rj.1.1 key = Some vg ∧ fullPath path key ∈ rj.2
       ∧ obj_get ry.1.1 key = Some vg ∧ fullPath path key ∈ ry.2)
  ∧ (∀ eo go, obj_get existing key = Some (VObj eo) →
       obj_get generated key = Some (VObj go) →
       plain_value (VObj eo) = true → plain_value (VObj go) = true →
       obj_get rj.1.1 key
         = Some (VObj (deepMergeJson eo go (fullPath path key) [] []).1.1)
       ∧ obj_get ry.1.1 key
         = Some (VObj (deepMergePreserveExisting eo go (fullPath path key) [] []).1.1))
  ∧ (obj_get existing key = None → obj_get generated key = None →
     obj_get rj.1.1 key = None ∧ obj_get ry.1.1 key = None).
Proof.
  intros He Hg Hkey rj ry. subst rj ry.
  assert (key ≠ PROTO) as Hproto by (intros ->; by rewrite inherited_PROTO in Hkey).
  rewrite !deepMergeJson_get, !deepMergePreserveExisting_get by done.
  rewrite decide_False by done.
  rewrite deepMergeJson_closed, deepMergePreserveExisting_closed. cbn [fst snd].
  assert (∀ ve, obj_get generated key = None →
            merge_entry deepMergeJson_rec (Parsed generated) path (key, ve)
            = (ve, [fullPath path key], [])) as Honly.
  { intros ve Hnone. rewrite merge_entry_eq. cbn [target_has].
    unfold parsed_has, obj_has. by rewrite Hnone, Hkey. }
  split_and!.
  - intros ve Hve Hnone. rewrite Hve, Hnone, Honly by done.
    split_and!; [done| |done|].
    + apply elem_of_app. right. apply list_elem_of_bind. exists (key, ve).
      rewrite Honly by done. split; [by left | by apply obj_get_In].
    + rewrite !elem_of_app. right. right. apply list_elem_of_fmap. exists key.
      split; [done|]. apply list_elem_of_filter. split.
      * by apply obj_has_false, obj_get_None.
      * by eapply obj_get_Some_key.
  - intros vg Hnone Hvg. rewrite Hvg, Hnone, Hkey, yaml_entry_only by done.
    split_and!; [done| |done|].
    + rewrite !elem_of_app. right. right. apply list_elem_of_fmap. exists key.
      split; [done|]. rewrite keys_fresh_entries. apply list_elem_of_filter. split.
      * apply parsed_has_false. split; [|done]. by apply obj_has_false, obj_get_None.
      * by eapply obj_get_Some_key.
    + apply elem_of_app. right. apply list_elem_of_bind. exists (key, vg).
      rewrite yaml_entry_only by done. split; [by left | by apply obj_get_In].
  - intros eo go Heo Hgo _ _. rewrite Heo, Hgo, merge_entry_eq, yaml_entry_eq, Heo.
    cbn [target_has target_mapping]. unfold parsed_has, obj_has. rewrite Hgo.
    done.
  - intros H1 H2. by rewrite H1, H2, Hkey.
Qed.

(** The merged mapping is well formed. *)
Lemma ownMergeJson_rec_wf (x : value number) :
  ∀ e, x = VObj e → wf_value x = true →
  ∀ g path, wf_value (VObj g) = true →
    wf_value (VObj (ownMergeJson_rec x g path [] []).1.1) = true.
Proof.
  induction x as [| | | |items _|props IH] using value_ind'; try done.
  intros e [= <-] Hwe g path Hwg.
  destruct (wf_value_obj _ Hwe) as [Hnde Hve].
  destruct (wf_value_obj _ Hwg) as [Hndg Hvg].
  pose proof (wf_value_order _ Hwe) as Horde.
  rewrite (proj2 (ownMergeJson_rec_closed (VObj props)) props eq_refl). cbn [fst].
  apply wf_value_intro.
  - rewrite json_merged_keys by done. by apply fold_key_set_NoDup.
  - rewrite json_merged_keys by done. by apply own_order_fold_key_set.
  - intros k v.
    rewrite (json_result_get (λ x, (json_entry ownMergeJson_rec g path x).1.1)) by done.
    destruct (obj_get props k) as [ve|] eqn:He; [|apply Hvg].
    rewrite json_entry_eq. intros [= <-].
    destruct (obj_get g k) as [[| | | | |go]|] eqn:Hg; try by eapply Hve.
    destruct ve as [| | | | |eo]; try by eapply Hve.
    cbn [is_mapping fst]. rewrite Forall_forall in IH.
    apply (IH (k, VObj eo) (obj_get_In _ _ _ He) eo eq_refl); by eauto.
Qed.

(** The merged mapping has no key that the two mappings do not have. *)
Lemma ownMergeJson_rec_plain (x : value number) :
  ∀ e, x = VObj e → wf_value x = true → plain_value x = true →
  ∀ g path, wf_value (VObj g) = true → plain_value (VObj g) = true →
    plain_value (VObj (ownMergeJson_rec x g path [] []).1.1) = true.
Proof.
  induction x as [| | | |items _|props IH] using value_ind'; try done.
  intros e [= <-] Hwe Hpe g path Hwg Hpg.
  pose proof (ownMergeJson_rec_wf (VObj props) props eq_refl Hwe g path Hwg) as Hwr.
  destruct (wf_value_obj _ Hwr) as [Hndr _].
  destruct (wf_value_obj _ Hwe) as [Hnde Hve].
  destruct (wf_value_obj _ Hwg) as [Hndg Hvg].
  apply plain_value_intro. intros k v Hin.
  apply (obj_get_elem _ _ _ Hndr) in Hin.
  change (ownMergeJson_rec (VObj props) g path [] [])
    with (ownMergeJson props g path [] []) in Hin.
  rewrite ownMergeJson_get in Hin by done.
  destruct (obj_get props k) as [ve|] eqn:He.
  - apply obj_get_In in He as Hine.
    destruct (plain_value_obj _ _ _ Hpe Hine) as [Hk Hpv]. split; [done|].
    injection Hin as <-. rewrite json_entry_eq.
    destruct (obj_get g k) as [[| | | | |go]|] eqn:Hg; try done.
    destruct ve as [| | | | |eo]; try done. cbn [is_mapping fst].
    rewrite Forall_forall in IH. apply obj_get_In in Hg as Hing.
    apply (IH (k, VObj eo) Hine eo eq_refl); eauto.
    by destruct (plain_value_obj _ _ _ Hpg Hing).
  - apply obj_get_In in Hin. by apply (plain_value_obj _ _ _ Hpg Hin).
Qed.

Lemma keys_new_entries_nil e g :
  (∀ k, k ∈ keys g → k ∈ keys e) → keys (new_entries e g) = [].
Proof.
  intros H. rewrite keys_new_entries. apply filter_none.
  intros k Hk Hhas. apply obj_has_false in Hhas. by apply Hhas, H.
Qed.

Lemma filter_new_nil (ks1 ks2 : list string) :
  (∀ k, k ∈ ks2 → k ∈ ks1) → filter (λ k, k ∉ ks1) ks2 = [].
Proof. intros H. apply filter_none. intros k Hk Hn. by apply Hn, H. Qed.

(** Merging a mapping with itself. *)
Lemma ownMergeJson_rec_self (x : value number) :
  ∀ e, x = VObj e → wf_value x = true →
  ∀ path, (ownMergeJson_rec x e path [] []).1.1 = e
          ∧ (ownMergeJson_rec x e path [] []).2 = [].
Proof.
  induction x as [| | | |items _|props IH] using value_ind'; try done.
  intros e [= <-] Hwe path.
  destruct (wf_value_obj _ Hwe) as [Hnde Hve].
  pose proof (wf_value_order _ Hwe) as Horde.
  rewrite (proj2 (ownMergeJson_rec_closed (VObj props)) props eq_refl). cbn [fst snd app].
  set (J := json_entry ownMergeJson_rec props path).
  assert (∀ k ve, obj_get props k = Some ve →
            (J (k, ve)).1.1 = ve ∧ (J (k, ve)).2 = []) as Hentry.
  { intros k ve He. subst J. cbn beta. rewrite json_entry_eq, He.
    destruct ve as [| | | | |eo]; try done. cbn [is_mapping fst snd].
    rewrite Forall_forall in IH.
    destruct (IH (k, VObj eo) (obj_get_In _ _ _ He) eo eq_refl (Hve _ _ He)
                (fullPath path k)) as [H1 H2].
    cbn [snd] in H1, H2. by rewrite H1, H2. }
  split.
  - apply obj_ext.
    + rewrite json_merged_keys by done. by rewrite filter_new_nil.
    + rewrite json_merged_keys by done. by apply fold_key_set_NoDup.
    + intros k. rewrite (json_result_get (λ x, (J x).1.1)) by done.
      destruct (obj_get props k) as [ve|] eqn:He; [|done].
      f_equal. by apply Hentry.
  - rewrite keys_new_entries_nil by done. rewrite app_nil_r.
    apply bind_none. intros [k ve] Hin. apply Hentry. by apply obj_get_elem.
Qed.

(** Merging the result once more with the same generated mapping. *)
Lemma ownMergeJson_rec_idem (x : value number) :
  ∀ e, x = VObj e → wf_value x = true →
  ∀ g path path', wf_value (VObj g) = true →
    (ownMergeJson (ownMergeJson_rec x g path [] []).1.1 g path' [] []).1.1
      = (ownMergeJson_rec x g path [] []).1.1
    ∧ (ownMergeJson (ownMergeJson_rec x g path [] []).1.1 g path' [] []).2 = [].
Proof.
  induction x as [| | | |items _|props IH] using value_ind'; try done.
  intros e [= <-] Hwe g path path' Hwg.
  pose proof (ownMergeJson_rec_wf (VObj props) props eq_refl Hwe g path Hwg) as Hwr.
  destruct (wf_value_obj _ Hwe) as [Hnde Hve].
  destruct (wf_value_obj _ Hwg) as [Hndg Hvg].
  destruct (wf_value_obj _ Hwr) as [Hndr _].
  pose proof (wf_value_order _ Hwr) as Hordr.
  assert (∀ k, obj_get (ownMergeJson_rec (VObj props) g path [] []).1.1 k =
               match obj_get props k with
               | Some ve => Some (json_entry ownMergeJson_rec g path (k, ve)).1.1
               | None => obj_get g k
               end) as Hr.
  { intros k. by apply (ownMergeJson_get props g path [] [] k). }
  set (r := (ownMergeJson_rec (VObj props) g path [] []).1.1) in *.
  assert (∀ k, k ∈ keys g → k ∈ keys r) as Hsub.
  { intros k [vg Hg]%obj_get_key. apply (obj_get_Some_key r k
      (match obj_get props k with
       | Some ve => (json_entry ownMergeJson_rec g path (k, ve)).1.1
       | None => vg end)).
    rewrite Hr, Hg. by destruct (obj_get props k). }
  rewrite ownMergeJson_closed. cbn [fst snd app].
  set (J := json_entry ownMergeJson_rec g path').
  assert (∀ k vr, obj_get r k = Some vr →
            (J (k, vr)).1.1 = vr ∧ (J (k, vr)).2 = []) as Hentry.
  { intros k vr Hvr. subst J. cbn beta. rewrite json_entry_eq.
    destruct (obj_get g k) as [[| | | | |go]|] eqn:Hg; try done.
    destruct vr as [| | | | |ro]; try done. cbn [is_mapping fst snd].
    rewrite Hr in Hvr. destruct (obj_get props k) as [ve|] eqn:He.
    - rewrite json_entry_eq, Hg in Hvr.
      destruct ve as [| | | | |eo]; try done. cbn [is_mapping fst] in Hvr.
      injection Hvr as <-. rewrite Forall_forall in IH.
      destruct (IH (k, VObj eo) (obj_get_In _ _ _ He) eo eq_refl (Hve _ _ He)
                  go (fullPath path k) (fullPath path' k) (Hvg _ _ Hg)) as [H1 H2].
      cbn [snd] in H1, H2. unfold ownMergeJson in H1, H2.
      split; [f_equal; exact H1 | exact H2].
    - rewrite Hg in Hvr. injection Hvr as <-.
      destruct (ownMergeJson_rec_self (VObj go) go eq_refl (Hvg _ _ Hg)
                  (fullPath path' k)) as [H1 H2].
      by rewrite H1, H2. }
  split.
  - apply obj_ext.
    + rewrite json_merged_keys by done. by rewrite filter_new_nil.
    + rewrite json_merged_keys by done. by apply fold_key_set_NoDup.
    + intros k. rewrite (json_result_get (λ x, (J x).1.1)) by done.
      destruct (obj_get r k) as [vr|] eqn:Hvr; [f_equal; by apply Hentry|].
      apply obj_get_None. intros Hk. apply obj_get_None in Hvr. by apply Hvr, Hsub.
  - rewrite keys_new_entries_nil by done. rewrite app_nil_r.
    apply bind_none. intros [k vr] Hin. apply Hentry. by apply obj_get_elem.
Qed.

(** X9: merging a well-formed mapping none of whose keys is a property
    name of [Object.prototype] with itself returns it and adds nothing,
    in both implementations. *)
Theorem deepMerge_self (existing : obj number) (path : string)
    (preserved0 added0 : list string) :
  wf_value (VObj existing) = true →
  plain_value (VObj existing) = true →
  (deepMergeJson existing existing path preserved0 added0).1.1 = existing
  ∧ (deepMergeJson existing existing path preserved0 added0).2 = added0
  ∧ (deepMergePreserveExisting existing existing path preserved0 added0).1.1 = existing
  ∧ (deepMergePreserveExisting existing existing path preserved0 added0).2 = added0.
Proof.
  intros Hw Hp. rewrite deepMergeJson_plain by done.
  destruct (ownMergeJson_rec_self (VObj existing) existing eq_refl Hw path) as [H1 H2].
  destruct (deep_merges_agree_rec (VObj existing) existing eq_refl Hw existing path Hw)
    as (A1 & _ & A3).
  rewrite H1 in A1. rewrite H2 in A3. apply Permutation_nil in A3.
  unfold ownMergeJson, deepMergePreserveExisting.
  rewrite (proj1 (ownMergeJson_rec_closed (VObj existing)) existing path preserved0 added0).
  rewrite (proj1 (deepMergePreserveExisting_rec_closed (VObj existing))
             existing path preserved0 added0).
  cbn [fst snd]. rewrite H1, H2, <- A1, A3, !app_nil_r. done.
Qed.

(** The same for the merge of the YAML path. *)
Lemma deepMergePreserveExisting_idem (existing generated : obj number)
    (path path' : string) :
  wf_value (VObj existing) = true →
  wf_value (VObj generated) = true →
  let r := (deepMergePreserveExisting existing generated path [] []).1.1 in
  (deepMergePreserveExisting r generated path' [] []).1.1 = r
  ∧ (deepMergePreserveExisting r generated path' [] []).2 = [].
Proof.
  intros He Hg.
  destruct (ownMergeJson_rec_idem (VObj existing) existing eq_refl He
              generated path path' Hg) as [H1 H2].
  pose proof (ownMergeJson_rec_wf (VObj existing) existing eq_refl He generated path Hg)
    as Hwr.
  destruct (deep_merges_agree_rec (VObj existing) existing eq_refl He generated path Hg)
    as (A1 & _ & _).
  unfold deepMergePreserveExisting. rewrite <- A1.
  set (r := (ownMergeJson_rec (VObj existing) generated path [] []).1.1) in *.
  destruct (deep_merges_agree_rec (VObj r) r eq_refl Hwr generated path' Hg)
    as (B1 & _ & B3).
  unfold ownMergeJson in H1, H2. rewrite H1 in B1. rewrite H2 in B3.
  apply Permutation_nil in B3. cbn zeta. by rewrite <- B1, B3.
Qed.

(** X10: the deep merges are idempotent on well-formed mappings none
    of whose keys is a property name of [Object.prototype]: merging the
    result once more with the same generated mapping returns the result
    again and adds nothing. *)
Theorem deepMerge_idempotent (existing generated : obj number) (path path' : string)
    (preserved0 added0 preserved1 added1 : list string) :
  wf_value (VObj existing) = true →
  wf_value (VObj generated) = true →
  plain_value (VObj existing) = true →
  plain_value (VObj generated) = true →
  (let r := (deepMergeJson existing generated path preserved0 added0).1.1 in
   (deepMergeJson r generated path' preserved1 added1).1.1 = r
   ∧ (deepMergeJson r generated path' preserved1 added1).2 = added1)
  ∧ (let r := (deepMergePreserveExisting existing generated path preserved0 added0).1.1 in
     (deepMergePreserveExisting r generated path' preserved1 added1).1.1 = r
     ∧ (deepMergePreserveExisting r generated path' preserved1 added1).2 = added1).
Proof.
  intros He Hg Hpe Hpg.
  pose proof (ownMergeJson_rec_plain (VObj existing) existing eq_refl He Hpe
                generated path Hg Hpg) as Hpr.
  cbn zeta.
  rewrite (deepMergeJson_plain existing generated path preserved0 added0) by done.
  rewrite !(deepMergeJson_plain _ generated path' preserved1 added1);
    [|unfold ownMergeJson;
      by rewrite (proj1 (ownMergeJson_rec_closed (VObj existing))
                    generated path preserved0 added0) | done].
  destruct (ownMergeJson_rec_idem (VObj existing) existing eq_refl He
              generated path path' Hg) as [H1 H2].
  pose proof (ownMergeJson_rec_wf (VObj existing) existing eq_refl He generated path Hg)
    as Hwr.
  destruct (deep_merges_agree_rec (VObj existing) existing eq_refl He generated path Hg)
    as (A1 & _ & _).
  set (r := (ownMergeJson_rec (VObj existing) generated path [] []).1.1) in *.
  destruct (deep_merges_agree_rec (VObj r) r eq_refl Hwr generated path' Hg)
    as (B1 & _ & B3).
  unfold ownMergeJson in H1, H2. rewrite H1 in B1. rewrite H2 in B3.
  apply Permutation_nil in B3.
  assert ((ownMergeJson existing generated path preserved0 added0).1.1 = r) as ->.
  { unfold ownMergeJson.
    by rewrite (proj1 (ownMergeJson_rec_closed (VObj existing))
                  generated path preserved0 added0). }
  assert ((deepMergePreserveExisting existing generated path preserved0 added0).1.1 = r)
    as ->.
  { unfold deepMergePreserveExisting.
    by rewrite (proj1 (deepMergePreserveExisting_rec_closed (VObj generated))
                  existing path preserved0 added0). }
  cbn zeta. unfold ownMergeJson, deepMergePreserveExisting.
  rewrite (proj1 (ownMergeJson_rec_closed (VObj r)) generated path' preserved1 added1).
  rewrite (proj1 (deepMergePreserveExisting_rec_closed (VObj generated))
             r path' preserved1 added1).
  cbn [fst snd]. rewrite H1, H2, <- B1, B3, !app_nil_r. done.
Qed.

(** X11: on well-formed mappings none of whose keys is a property
    name of [Object.prototype], the merged mapping is well formed and
    has exactly the keys of the two mappings: no key is lost, none is
    invented, none is listed twice. *)
Theorem deepMerge_result_keys (existing generated : obj number) (path : string)
    (preserved0 added0 : list string) :
  wf_value (VObj existing) = true →
  wf_value (VObj generated) = true →
  plain_value (VObj existing) = true →
  plain_value (VObj generated) = true →
  let r := (deepMergeJson existing generated path preserved0 added0).1.1 in
  (deepMergePreserveExisting existing generated path preserved0 added0).1.1 = r
  ∧ wf_value (VObj r) = true
  ∧ NoDup (keys r)
  ∧ ∀ k, k ∈ keys r ↔ k ∈ keys existing ∨ k ∈ keys generated.
Proof.
  intros He Hg Hpe Hpg. rewrite deepMergeJson_plain by done. intros r.
  pose proof (merged_mapping_agrees existing generated path preserved0 added0 He Hg)
    as A1.
  pose proof (ownMergeJson_rec_wf (VObj existing) existing eq_refl He generated path Hg)
    as Hwr.
  assert (r = (ownMergeJson_rec (VObj existing) generated path [] []).1.1) as Hr.
  { subst r. unfold ownMergeJson.
    by rewrite (proj1 (ownMergeJson_rec_closed (VObj existing))
                  generated path preserved0 added0). }
  rewrite <- Hr in Hwr. destruct (wf_value_obj _ Hwr) as [Hnd _].
  split_and!; [done..|].
  destruct (wf_value_obj _ He) as [Hnde _]. destruct (wf_value_obj _ Hg) as [Hndg _].
  intros k. subst r. rewrite ownMergeJson_closed. cbn [fst].
  rewrite json_merged_keys by (done || by apply wf_value_order).
  rewrite fold_key_set_elem, list_elem_of_filter.
  destruct (decide (k ∈ keys existing)); tauto.
Qed.

End MergeCases.

Lemma deepMerge_per_key_example :
  obj_get (deepMergeJson existing_tree generated_tree "" [] []).1.1 "e" = Some (num 5)
  ∧ "e" ∈ (deepMergeJson existing_tree generated_tree "" [] []).2
  ∧ obj_get (deepMergePreserveExisting existing_tree generated_tree "" [] []).1.1 "e"
    = Some (num 5)
  ∧ "e" ∈ (deepMergePreserveExisting existing_tree generated_tree "" [] []).2.
Proof.
  refine (proj1 (proj2 (deepMerge_per_key existing_tree generated_tree "" [] [] "e"
                          _ _ _)) (num 5) _ _).
  - apply (bool_decide_unpack _). vm_compute. exact I.
  - apply (bool_decide_unpack _). vm_compute. exact I.
  - reflexivity.
  - reflexivity.
  - reflexivity.
Defined.

Lemma deepMerge_self_example :
  (deepMergeJson existing_tree existing_tree "" [] []).1.1 = existing_tree.
Proof.
  refine (proj1 (deepMerge_self existing_tree "" [] [] _ _)); vm_compute; reflexivity.
Defined.

Lemma deepMerge_idempotent_example :
  (deepMergeJson (deepMergeJson existing_tree generated_tree "" [] []).1.1
     generated_tree "" [] []).1.1
  = (deepMergeJson existing_tree generated_tree "" [] []).1.1.
Proof.
  refine (proj1 (proj1 (deepMerge_idempotent existing_tree generated_tree "" ""
                          [] [] [] [] _ _ _ _))); vm_compute; reflexivity.
Defined.

Lemma deepMerge_result_keys_example :
  NoDup (keys (deepMergeJson existing_tree generated_tree "" [] []).1.1).
Proof.
  refine (proj1 (proj2 (proj2 (deepMerge_result_keys existing_tree generated_tree ""
                                 [] [] _ _ _ _)))); vm_compute; reflexivity.
Defined.

Section MergeEdges.
Context {number : Type}.
Implicit Types (o e g : obj number) (v : value number) (k key path : string).

Lemma bind_key_paths (e : obj number) path :
  e ≫= (λ x, [fullPath path x.1]) = fullPath path <$> keys e.
Proof.
  rewrite (bind_singleton_fmap (λ x : string * value number, fullPath path x.1)).
  unfold keys. by rewrite <- list_fmap_compose.
Qed.

(** Against an empty existing mapping, on the YAML path. *)
Lemma deepMergePreserveExisting_empty_existing (m : obj number) (path : string)
    (preserved0 added0 : list string) :
  wf_value (VObj m) = true →
  deepMergePreserveExisting [] m path preserved0 added0
  = (m, preserved0, added0 ++ (fullPath path <$> keys m)).
Proof.
  intros Hw. destruct (wf_value_obj _ Hw) as [Hnd _].
  pose proof (wf_value_order _ Hw) as Hord.
  rewrite deepMergePreserveExisting_closed.
  rewrite (fold_set_ext _ snd) by done. rewrite fold_set_self by done.
  rewrite (bind_none (λ x, (yaml_entry deepMergePreserveExisting_rec [] path x).1.2))
    by done.
  rewrite (bind_ext_elem (λ x, (yaml_entry deepMergePreserveExisting_rec [] path x).2)
             (λ x, [fullPath path x.1])) by done.
  change (old_keys [] m) with (@nil string).
  by rewrite bind_key_paths, !app_nil_r.
Qed.

(** X12: merging with the empty mapping, for a mapping none of whose
    top-level keys is a property name of [Object.prototype].  Against
    an empty generated mapping the existing mapping is returned and its
    top-level keys are recorded as preserved; against an empty existing
    mapping the generated mapping is returned and its top-level keys
    are recorded as added.  Only the top-level keys are recorded, not
    the paths below them. *)
Theorem deepMerge_with_empty (m : obj number) (path : string)
    (preserved0 added0 : list string) :
  wf_value (VObj m) = true →
  Forall (λ k, inherited k = false) (keys m) →
  deepMergeJson m [] path preserved0 added0
    = (m, preserved0 ++ (fullPath path <$> keys m), added0)
  ∧ deepMergeJson [] m path preserved0 added0
    = (m, preserved0, added0 ++ (fullPath path <$> keys m))
  ∧ deepMergePreserveExisting m [] path preserved0 added0
    = (m, preserved0 ++ (fullPath path <$> keys m), added0)
  ∧ deepMergePreserveExisting [] m path preserved0 added0
    = (m, preserved0, added0 ++ (fullPath path <$> keys m)).
Proof.
  intros Hw Hplain. destruct (wf_value_obj _ Hw) as [Hnd _].
  pose proof (wf_value_order _ Hw) as Hord.
  rewrite Forall_forall in Hplain.
  assert (own_reading (VObj m) [] = true) as Hr1.
  { cbn [own_reading forallb]. rewrite andb_true_r. apply andb_true_iff. split.
    - apply negb_true_iff, obj_has_false. intros Hk. apply Hplain in Hk.
      by rewrite inherited_PROTO in Hk.
    - by apply forallb_forall. }
  assert (own_reading (VObj []) m = true) as Hr2.
  { cbn [own_reading forallb]. rewrite andb_true_r. cbn [obj_has obj_get negb andb].
    apply forallb_forall. intros [k v] Hin. cbn [fst].
    rewrite Hplain; [done|]. apply list_elem_of_In in Hin.
    by apply (list_elem_of_fmap_2 fst) in Hin. }
  rewrite !deepMergeJson_own by done.
  rewrite !ownMergeJson_closed, !deepMergePreserveExisting_closed.
  assert (new_entries [] m = m) as Hnew by (by apply filter_all).
  assert (old_keys m [] = keys m) as Hold by (by apply filter_all).
  split_and!.
  - change (new_entries m []) with (@nil (string * value number)). cbn [fold_left].
    rewrite (fold_set_ext _ snd) by done. rewrite fold_set_self by done.
    rewrite (bind_ext_elem _ (λ x, [fullPath path x.1])) by done.
    rewrite (bind_none (λ x, (json_entry ownMergeJson_rec [] path x).2)) by done.
    by rewrite bind_key_paths, !app_nil_r.
  - rewrite Hnew. cbn [fold_left mbind list_bind]. rewrite fold_set_self by done.
    by rewrite !app_nil_r.
  - cbn [fold_left mbind list_bind]. by rewrite Hold, !app_nil_r.
  - rewrite (fold_set_ext _ snd) by done. rewrite fold_set_self by done.
    rewrite (bind_none (λ x, (yaml_entry deepMergePreserveExisting_rec [] path x).1.2))
      by done.
    rewrite (bind_ext_elem (λ x, (yaml_entry deepMergePreserveExisting_rec [] path x).2)
               (λ x, [fullPath path x.1])) by done.
    change (old_keys [] m) with (@nil string).
    by rewrite bind_key_paths, !app_nil_r.
Qed.

Lemma collected_elem (r : obj number) path k v s :
  obj_get r k = Some v →
  s ∈ collected collectKeys path (k, v) →
  s ∈ collectKeys (VObj r) path [].
Proof.
  intros Hget Hs.
  rewrite (proj1 (proj2 (collectKeys_closed (VObj r))) r eq_refl path []). cbn [app].
  apply list_elem_of_bind. exists (k, v). split; [done | by apply obj_get_In].
Qed.

Lemma ownMergeJson_rec_paths (x : value number) :
  ∀ e, x = VObj e → wf_value x = true →
  ∀ g path, wf_value (VObj g) = true →
  ∀ s, s ∈ (ownMergeJson_rec x g path [] []).1.2
       ∨ s ∈ (ownMergeJson_rec x g path [] []).2 →
       s ∈ collectKeys (VObj (ownMergeJson_rec x g path [] []).1.1) path [].
Proof.
  induction x as [| | | |items _|props IH] using value_ind'; try done.
  intros e [= <-] Hwe g path Hwg s.
  destruct (wf_value_obj _ Hwe) as [Hnde Hve].
  destruct (wf_value_obj _ Hwg) as [Hndg Hvg].
  assert (∀ k, obj_get (ownMergeJson_rec (VObj props) g path [] []).1.1 k =
               match obj_get props k with
               | Some ve => Some (json_entry ownMergeJson_rec g path (k, ve)).1.1
               | None => obj_get g k
               end) as Hr.
  { intros k. by apply (ownMergeJson_get props g path [] [] k). }
  set (r := (ownMergeJson_rec (VObj props) g path [] []).1.1) in *.
  rewrite (proj2 (ownMergeJson_rec_closed (VObj props)) props eq_refl).
  cbn [fst snd app].
  assert (∀ k ve, obj_get props k = Some ve →
            s ∈ (json_entry ownMergeJson_rec g path (k, ve)).1.2
            ∨ s ∈ (json_entry ownMergeJson_rec g path (k, ve)).2 →
            s ∈ collectKeys (VObj r) path []) as Hentry.
  { intros k ve He Hs.
    apply (collected_elem r path k (json_entry ownMergeJson_rec g path (k, ve)).1.1);
      [by rewrite Hr, He|].
    unfold collected. cbn [fst snd]. rewrite json_entry_eq in Hs |- *.
    assert (s ∈ [fullPath path k] ∨ s ∈ @nil string → s ∈ [fullPath path k]) as Hleaf
      by (by intros [?|H]; [|inv H]).
    destruct (obj_get g k) as [[| | | | |go]|] eqn:Hg;
      try (cbn [fst snd] in Hs |- *; apply Hleaf in Hs;
           apply list_elem_of_singleton in Hs as ->; by left).
    destruct ve as [| | | | |eo];
      try (cbn [is_mapping fst snd] in Hs |- *; apply Hleaf in Hs;
           apply list_elem_of_singleton in Hs as ->; by left).
    cbn [is_mapping fst snd] in Hs |- *. right.
    rewrite Forall_forall in IH.
    apply (IH (k, VObj eo) (obj_get_In _ _ _ He) eo eq_refl (Hve _ _ He)
             go (fullPath path k) (Hvg _ _ Hg) s Hs). }
  intros [Hs|Hs].
  - apply list_elem_of_bind in Hs as ([k ve] & Hs & Hin).
    apply (Hentry k ve); [by apply obj_get_elem | by left].
  - apply elem_of_app in Hs as [Hs|Hs].
    + apply list_elem_of_bind in Hs as ([k ve] & Hs & Hin).
      apply (Hentry k ve); [by apply obj_get_elem | by right].
    + apply list_elem_of_fmap in Hs as (k & -> & Hk).
      rewrite keys_new_entries in Hk.
      apply list_elem_of_filter in Hk as [Hnew Hk].
      apply obj_has_false, obj_get_None in Hnew.
      destruct (obj_get_key _ _ Hk) as [vg Hg].
      apply (collected_elem r path k vg); [by rewrite Hr, Hnew|].
      unfold collected. left.
Qed.

(** X13: on well-formed mappings none of whose keys is a property
    name of [Object.prototype], every path a deep merge reports, as
    preserved or as added, is a key path of the merged mapping it
    returns, as [collectKeys] lists them. *)
Theorem reported_paths_are_key_paths (existing generated : obj number) (path : string) :
  wf_value (VObj existing) = true →
  wf_value (VObj generated) = true →
  plain_value (VObj existing) = true →
  plain_value (VObj generated) = true →
  (∀ s, s ∈ (deepMergeJson existing generated path [] []).1.2
        ∨ s ∈ (deepMergeJson existing generated path [] []).2 →
        s ∈ collectKeys (VObj (deepMergeJson existing generated path [] []).1.1) path [])
  ∧ (∀ s, s ∈ (deepMergePreserveExisting existing generated path [] []).1.2
          ∨ s ∈ (deepMergePreserveExisting existing generated path [] []).2 →
          s ∈ collectKeys
                (VObj (deepMergePreserveExisting existing generated path [] []).1.1)
                path []).
Proof.
  intros He Hg Hpe Hpg. rewrite deepMergeJson_plain by done.
  pose proof (ownMergeJson_rec_paths (VObj existing) existing eq_refl He generated path Hg)
    as HJ.
  destruct (deep_merges_agree_rec (VObj existing) existing eq_refl He generated path Hg)
    as (A1 & A2 & A3).
  split; [exact HJ|]. unfold deepMergePreserveExisting.
  intros s Hs. rewrite <- A1. apply HJ.
  destruct Hs as [Hs|Hs]; [left | right].
  - by rewrite A2.
  - by rewrite A3.
Qed.

(** *** The JSON merge, run twice *)

Variable JSON_parse : string → option (value number).
Variable JSON_stringify : value number → string.

(** X14: the JSON merge is idempotent on documents whose roots are
    well-formed mappings none of whose keys is a property name of
    [Object.prototype], as long as the host reads back the text it
    serialized: a second run against the same generated document
    returns the same content and adds nothing. *)
Theorem mergeJson_idempotent (existing generated : string) (eo go : obj number) :
  is_blank existing = false →
  is_blank generated = false →
  JSON_parse existing = Some (VObj eo) →
  JSON_parse generated = Some (VObj go) →
  wf_value (VObj eo) = true →
  wf_value (VObj go) = true →
  plain_value (VObj eo) = true →
  plain_value (VObj go) = true →
  let first := mergeJson JSON_parse JSON_stringify existing generated in
  is_blank (content first) = false →
  JSON_parse (content first) = Some (VObj (deepMergeJson eo go "" [] []).1.1) →
  content (mergeJson JSON_parse JSON_stringify (content first) generated) = content first
  ∧ added (mergeJson JSON_parse JSON_stringify (content first) generated) = [].
Proof.
  intros He Hg Hpe Hpg Hwe Hwg Hle Hlg first Hb Hback.
  destruct (ownMergeJson_rec_idem (VObj eo) eo eq_refl Hwe go "" "" Hwg) as [H1 H2].
  pose proof (ownMergeJson_rec_plain (VObj eo) eo eq_refl Hwe Hle go "" Hwg Hlg) as Hlr.
  change (ownMergeJson_rec (VObj eo) go "" [] []) with (ownMergeJson eo go "" [] [])
    in H1, H2, Hlr.
  rewrite <- (deepMergeJson_plain eo go "" [] []) in H1, H2, Hlr by done.
  rewrite <- (deepMergeJson_plain _ go "" [] []) in H1, H2 by done.
  assert (content first
          = JSON_stringify (VObj (deepMergeJson eo go "" [] []).1.1) +:+ str1 LF) as Hc.
  { subst first. unfold mergeJson. rewrite He, Hg, Hpe, Hpg.
    by destruct (deepMergeJson eo go "" [] []) as [[merged pres] add]. }
  set (c := content first) in *. clearbody c. clear first.
  unfold mergeJson. rewrite Hb, Hg, Hback, Hpg.
  destruct (deepMergeJson (deepMergeJson eo go "" [] []).1.1 go "" [] [])
    as [[merged pres] add].
  cbn [fst snd content added] in *. by rewrite H1, H2, Hc.
Qed.

End MergeEdges.

Lemma deepMerge_with_empty_example :
  deepMergeJson existing_tree [] "" [] [] = (existing_tree, ["a"; "b"], []).
Proof.
  refine (proj1 (deepMerge_with_empty existing_tree "" [] [] _ _)).
  - vm_compute; reflexivity.
  - apply (bool_decide_unpack _). vm_compute. exact I.
Defined.

Lemma reported_paths_are_key_paths_example :
  "b.d" ∈ collectKeys (VObj (deepMergeJson existing_tree generated_tree "" [] []).1.1) "" [].
Proof.
  refine (proj1 (reported_paths_are_key_paths existing_tree generated_tree "" _ _ _ _)
            "b.d" _).
  - vm_compute; reflexivity.
  - vm_compute; reflexivity.
  - vm_compute; reflexivity.
  - vm_compute; reflexivity.
  - right. apply (bool_decide_unpack _). vm_compute. exact I.
Defined.

Lemma mergeJson_idempotent_example :
  content (Ref.mergeJson
             (content (Ref.mergeJson (Ref.js "{'a':1,'b':{'c':2}}")
                                     (Ref.js "{'a':9,'b':{'d':3},'e':5}")))
             (Ref.js "{'a':9,'b':{'d':3},'e':5}"))
  = content (Ref.mergeJson (Ref.js "{'a':1,'b':{'c':2}}")
                           (Ref.js "{'a':9,'b':{'d':3},'e':5}")).
Proof.
  refine (proj1 (mergeJson_idempotent Ref.JSON_parse Ref.JSON_stringify
                   (Ref.js "{'a':1,'b':{'c':2}}") (Ref.js "{'a':9,'b':{'d':3},'e':5}")
                   [("a", num 1); ("b", VObj [("c", num 2)])]
                   [("a", num 9); ("b", VObj [("d", num 3)]); ("e", num 5)]
                   _ _ _ _ _ _ _ _ _ _)); vm_compute; reflexivity.
Defined.

(** ** Strings: lines, prefixes and white space *)

Lemma append_nil_l s : "" +:+ s = s.
Proof. reflexivity. Qed.

Lemma length_append s t : String.length (s +:+ t) = String.length s + String.length t.
Proof. induction s as [|a s IH]; [done|]. rewrite append_cons. simpl. by rewrite IH. Qed.

Lemma length_drop_while p s : String.length (drop_while p s) ≤ String.length s.
Proof. induction s as [|a s IH]; simpl; [done|]. destruct (p a); simpl; lia. Qed.

Lemma drop_while_fixed p s :
  String.length (drop_while p s) = String.length s → drop_while p s = s.
Proof.
  destruct s as [|a s]; simpl; [done|]. destruct (p a); [|done].
  pose proof (length_drop_while p s). lia.
Qed.

Lemma length_rev s : String.length (String.rev s) = String.length s.
Proof.
  induction s as [|a s IH]; [done|]. rewrite rev_cons, length_append. simpl. lia.
Qed.

Lemma length_trimEnd s : String.length (trimEnd s) ≤ String.length s.
Proof.
  unfold trimEnd. rewrite length_rev.
  etrans; [apply length_drop_while|]. by rewrite length_rev.
Qed.

Lemma trim_fixed t : trim t = t → trimStart t = t ∧ trimEnd t = t.
Proof.
  intros H. assert (trimStart t = t) as Hs.
  { apply drop_while_fixed. pose proof (length_drop_while is_ws t).
    pose proof (length_trimEnd (trimStart t)). unfold trim in H.
    rewrite H in H1. unfold trimStart in *. lia. }
  split; [done|]. unfold trim in H. by rewrite Hs in H.
Qed.

Lemma drop_while_app_all p a b :
  str_forallb p a = true → drop_while p (a +:+ b) = drop_while p b.
Proof.
  induction a as [|c a IH]; [done|]. simpl.
  intros [Hc Ha]%andb_true_iff. rewrite Hc. by apply IH.
Qed.

Lemma take_while_app_all p a b :
  str_forallb p a = true → take_while p (a +:+ b) = a +:+ take_while p b.
Proof.
  induction a as [|c a IH]; [done|]. simpl.
  intros [Hc Ha]%andb_true_iff. rewrite Hc. by rewrite IH.
Qed.

Lemma trimEnd_app a b :
  nonempty (trimEnd b) = true → trimEnd (a +:+ b) = a +:+ trimEnd b.
Proof.
  intros Hb. induction a as [|c a IH]; [done|].
  rewrite append_cons, trimEnd_cons, IH.
  by rewrite nonempty_append_r.
Qed.

Lemma spaces_ws n : str_forallb is_ws (str_repeat "  " n) = true.
Proof. induction n as [|n IH]; [done|]. simpl. exact IH. Qed.

Lemma spaces_length n : String.length (str_repeat "  " n) = 2 * n.
Proof.
  induction n as [|n IH]; [done|]. cbn [str_repeat].
  rewrite length_append, IH. simpl. lia.
Qed.

Lemma includes_false c s :
  includes c s = false ↔ str_forallb (λ a, negb (Ascii.eqb c a)) s = true.
Proof. unfold includes, str_existsb. by rewrite negb_false_iff. Qed.

Lemma includes_app c s t : includes c (s +:+ t) = includes c s || includes c t.
Proof.
  unfold includes, str_existsb. rewrite str_forallb_app.
  by destruct (str_forallb _ s), (str_forallb _ t).
Qed.

Lemma prefix_char c d s t :
  String.prefix (str1 c) (String d s +:+ t) = bool_decide (c = d).
Proof.
  rewrite append_cons. unfold str1. simpl. destruct (ascii_dec c d) as [->|Hne].
  - by rewrite prefix_empty, bool_decide_eq_true_2.
  - by rewrite bool_decide_eq_false_2.
Qed.

Lemma indexOf_char c k rest :
  includes c k = false →
  indexOf (str1 c) (k +:+ String c rest) = Some (String.length k).
Proof.
  rewrite includes_false. induction k as [|a k IH]; intros Hk.
  - rewrite append_nil_l. cbn [indexOf]. unfold str1. cbn [String.prefix].
    destruct (ascii_dec c c); [by rewrite prefix_empty | done].
  - simpl in Hk. apply andb_true_iff in Hk as [Ha Hk].
    rewrite append_cons. cbn [indexOf]. unfold str1 at 1. cbn [String.prefix].
    destruct (ascii_dec c a) as [->|Hne]; [by rewrite Ascii.eqb_refl in Ha|].
    rewrite IH by done. done.
Qed.

Lemma str_drop_app s t : str_drop (String.length s) (s +:+ t) = t.
Proof. induction s as [|a s IH]; [by destruct t | apply IH]. Qed.

(** *** Lines of a text *)

Lemma split_plain c l : includes c l = false → split c l = [l].
Proof.
  rewrite includes_false. induction l as [|a l IH]; [done|]. simpl.
  intros [Ha Hl]%andb_true_iff.
  destruct (ascii_dec a c) as [->|Hne]; [by rewrite Ascii.eqb_refl in Ha|].
  by rewrite IH.
Qed.

Lemma split_app_sep c l rest :
  includes c l = false → split c (l +:+ String c rest) = l :: split c rest.
Proof.
  rewrite includes_false. induction l as [|a l IH]; intros Hl.
  - rewrite append_nil_l. cbn [split]. by destruct (ascii_dec c c).
  - simpl in Hl. apply andb_true_iff in Hl as [Ha Hl].
    rewrite append_cons. cbn [split].
    destruct (ascii_dec a c) as [->|Hne]; [by rewrite Ascii.eqb_refl in Ha|].
    by rewrite IH.
Qed.

Lemma split_join c ls :
  ls ≠ [] → Forall (λ l, includes c l = false) ls →
  split c (join (str1 c) ls) = ls.
Proof.
  intros Hne Hall. induction Hall as [|l ls Hl Hls IH]; [done|].
  destruct ls as [|l' ls']; [by apply split_plain|].
  rewrite join_cons by done. unfold str1 at 1. rewrite append_cons.
  change ("" +:+ join (str1 c) (l' :: ls')) with (join (str1 c) (l' :: ls')).
  rewrite split_app_sep by done. by rewrite IH.
Qed.

Lemma split_elem c s l : l ∈ split c s → includes c l = false.
Proof.
  revert l. induction s as [|a s IH]; intros l; simpl.
  - by intros ->%list_elem_of_singleton.
  - destruct (ascii_dec a c) as [->|Hne].
    + intros [->|H]%elem_of_cons; [done | by apply IH].
    + destruct (split c s) as [|x xs] eqn:Hs.
      * intros ->%list_elem_of_singleton. unfold includes, str_existsb. simpl.
        destruct (Ascii.eqb_spec c a); [by subst | done].
      * intros [->|H]%elem_of_cons.
        -- assert (includes c x = false) as Hx by (apply IH; left).
           unfold includes, str_existsb in *. simpl.
           destruct (Ascii.eqb_spec c a); [by subst | done].
        -- apply IH. by right.
Qed.

Lemma split_snoc c s : split c (s +:+ str1 c) = split c s ++ [""].
Proof.
  induction s as [|a s IH].
  - rewrite append_nil_l. unfold str1. cbn [split]. by destruct (ascii_dec c c).
  - rewrite append_cons. cbn [split]. destruct (ascii_dec a c); rewrite IH; [done|].
    pose proof (split_nonempty c s). by destruct (split c s).
Qed.

Lemma join_app sep xs ys :
  xs ≠ [] → ys ≠ [] →
  join sep (xs ++ ys) = join sep xs +:+ sep +:+ join sep ys.
Proof.
  intros Hx Hy. induction xs as [|x xs IH]; [done|].
  destruct xs as [|x' xs'].
  - cbn [app]. by rewrite (join_cons sep x ys).
  - rewrite <- app_comm_cons, (join_cons sep x ((x' :: xs') ++ ys)) by done.
    rewrite IH, (join_cons sep x (x' :: xs')) by done.
    by rewrite !append_assoc.
Qed.

Lemma includes_join c sep ls :
  includes c sep = true → includes c (join sep ls) = false →
  ls = [] ∨ ∃ l, ls = [l].
Proof.
  intros Hsep. destruct ls as [|l [|l' ls']]; [by left | by right; eauto|].
  rewrite join_cons by done. rewrite !includes_app, Hsep.
  by rewrite orb_true_r.
Qed.

Lemma includes_String c a s : includes c (String a s) = Ascii.eqb c a || includes c s.
Proof. unfold includes, str_existsb. simpl. by destruct (Ascii.eqb c a). Qed.

(** ** Sectioned documents: what the parser keeps *)

Lemma prefix_refl_app s t : String.prefix s (s +:+ t) = true.
Proof.
  induction s as [|a s IH]; [apply prefix_empty|]. rewrite append_cons. simpl.
  by destruct (ascii_dec a a).
Qed.

Lemma prefix_refl s : String.prefix s s = true.
Proof. rewrite <- (append_nil_r s) at 2. apply prefix_refl_app. Qed.


























(** ** YAML scalars, written and read back *)

Lemma escape_quotes_id s : escape_quotes s = s ↔ includes DQUOTE s = false.
Proof.
  induction s as [|c s IH]; [done|]. rewrite includes_String. cbn [escape_quotes].
  rewrite (Ascii.eqb_sym DQUOTE c). destruct (Ascii.eqb_spec c DQUOTE) as [->|Hne].
  - split; [|done]. intros H. by injection H.
  - simpl. rewrite <- IH. split; [by intros [= ?] | by intros ->].
Qed.

Lemma length_str_take n s : String.length (str_take n s) ≤ n.
Proof.
  revert s. induction n as [|n IH]; intros [|a s]; simpl; try lia.
  specialize (IH s). lia.
Qed.

Lemma slice_shorter s : nonempty s = true → slice_1_m1 s ≠ s.
Proof.
  destruct s as [|a s]; [done|]. intros _ H.
  apply (f_equal String.length) in H. simpl in H.
  pose proof (length_str_take (String.length s - 1) s). lia.
Qed.

Lemma is_quoted_nonempty s : is_quoted s = true → nonempty s = true.
Proof. by destruct s. Qed.

Section ScalarRoundTrip.
Context {number : Type}.
Variable Number : string → number.
Variable isNaN : number → bool.
Variable String_of_number : number → string.

Lemma formatYamlValue_string s :
  formatYamlValue String_of_number (VStr s) =
    if needs_quotes s then str1 DQUOTE +:+ escape_quotes s +:+ str1 DQUOTE else s.
Proof. reflexivity. Qed.

Lemma parseYamlValue_quoted s :
  parseYamlValue Number isNaN (str1 DQUOTE +:+ s +:+ str1 DQUOTE) = VStr s.
Proof.
  assert (str1 DQUOTE +:+ s +:+ str1 DQUOTE = String DQUOTE (s +:+ str1 DQUOTE)) as ->
    by reflexivity.
  unfold parseYamlValue.
  assert (is_quoted (String DQUOTE (s +:+ str1 DQUOTE)) = true) as ->.
  { unfold is_quoted. by rewrite startsWith_cons, endsWith_snoc. }
  by rewrite slice_quoted.
Qed.

Lemma parseYamlValue_plain s :
  is_quoted s = false → s ∉ yaml_keywords →
  parseYamlValue Number isNaN s = if isNaN (Number s) then VStr s else VNum (Number s).
Proof.
  intros Hq Hk. unfold parseYamlValue. rewrite Hq. unfold yaml_keywords in Hk.
  rewrite !bool_decide_eq_false_2 by (intros ->; apply Hk; set_solver).
  simpl. by destruct (isNaN (Number s)).
Qed.

Lemma parseYamlValue_keyword s :
  s ∈ yaml_keywords → ∀ t, parseYamlValue Number isNaN s ≠ VStr t.
Proof.
  intros Hs t. unfold yaml_keywords in Hs.
  repeat (apply elem_of_cons in Hs as [->|Hs]; [done|]). by inv Hs.
Qed.

(** X15: which scalars [formatYamlValue] writes so that
    [parseYamlValue] reads them back.  The booleans and null always
    come back.  A string that is written in quotes comes back exactly
    when it holds no double quote, since the escapes are not undone; a
    string that is written bare comes back exactly when it is not itself
    quoted, is not a keyword and is not read as a number. *)
Theorem yaml_scalar_round_trip :
  (∀ b, parseYamlValue Number isNaN (formatYamlValue String_of_number (VBool b))
        = VBool b)
  ∧ parseYamlValue Number isNaN (formatYamlValue String_of_number VNull) = VNull
  ∧ ∀ s,
      parseYamlValue Number isNaN (formatYamlValue String_of_number (VStr s)) = VStr s
      ↔ if needs_quotes s then includes DQUOTE s = false
        else is_quoted s = false ∧ (s ∉ yaml_keywords) ∧ isNaN (Number s) = true.
Proof.
  split_and!; [by intros [] | done |].
  intros s. rewrite formatYamlValue_string. destruct (needs_quotes s).
  - rewrite parseYamlValue_quoted, <- escape_quotes_id.
    split; [by intros [= ?] | by intros ->].
  - destruct (is_quoted s) eqn:Hq.
    + split; [|by intros [? _]]. unfold parseYamlValue. rewrite Hq. intros [= H].
      by apply slice_shorter in H; [|apply is_quoted_nonempty].
    + destruct (decide (s ∈ yaml_keywords)) as [Hk|Hk].
      * split; [|by intros (_ & ? & _)]. intros H.
        by apply parseYamlValue_keyword in H.
      * rewrite parseYamlValue_plain by done.
        destruct (isNaN (Number s)); [done|]. split; [done | by intros (_ & _ & ?)].
Qed.

(** ** Lines the YAML parser skips *)

Lemma yaml_line_skipped st l :
  skipped l = true → yaml_line Number isNaN st l = st.
Proof.
  unfold skipped. intros H. unfold yaml_line. destruct st as [result stack].
  by rewrite H.
Qed.

Lemma fold_yaml_line_skipped lines st :
  fold_left (yaml_line Number isNaN) lines st
  = fold_left (yaml_line Number isNaN) (filter (λ l, skipped l = false) lines) st.
Proof.
  revert st. induction lines as [|l ls IH]; intros st; [done|].
  rewrite filter_cons. cbn [fold_left]. destruct (skipped l) eqn:Hl.
  - rewrite decide_False by done. by rewrite yaml_line_skipped.
  - rewrite decide_True by done. cbn [fold_left]. apply IH.
Qed.

Lemma parseSimpleYaml_lines (lines : list string) :
  Forall (λ l, includes LF l = false) lines →
  parseSimpleYaml Number isNaN (join (str1 LF) lines)
  = (fold_left (yaml_line Number isNaN) lines
       ([], [{| f_indent := -1; f_path := []; f_key := None |}])).1.
Proof.
  intros Hall. unfold parseSimpleYaml. destruct lines as [|l ls]; [done|].
  by rewrite split_join.
Qed.

Lemma parseSimpleYaml_all_skipped text :
  Forall (λ l, skipped l = true) (split LF text) →
  parseSimpleYaml Number isNaN text = [].
Proof.
  intros Hall. unfold parseSimpleYaml. rewrite fold_yaml_line_skipped.
  rewrite filter_none; [done|].
  rewrite Forall_forall in Hall. intros l Hl. by rewrite (Hall l Hl).
Qed.

(** X16: the YAML parser skips blank lines and comment lines: a text
    is parsed as the text without these lines, and a text that has no
    other line is parsed as the empty mapping. *)
Theorem parseSimpleYaml_skips_comments (text : string) :
  parseSimpleYaml Number isNaN text
    = parseSimpleYaml Number isNaN
        (join (str1 LF) (filter (λ l, skipped l = false) (split LF text)))
  ∧ (Forall (λ l, skipped l = true) (split LF text) →
     parseSimpleYaml Number isNaN text = []).
Proof.
  split; [|apply parseSimpleYaml_all_skipped].
  rewrite parseSimpleYaml_lines.
  - unfold parseSimpleYaml. by rewrite fold_yaml_line_skipped.
  - apply Forall_forall. intros l [_ Hl]%list_elem_of_filter. by eapply split_elem.
Qed.

End ScalarRoundTrip.

Lemma parseSimpleYaml_skips_comments_example :
  Ref.parseSimpleYaml (nl "# settings||# nothing yet|") = [].
Proof.
  refine (proj2 (parseSimpleYaml_skips_comments Ref.Number Ref.isNaN
                   (nl "# settings||# nothing yet|")) _).
  match goal with
  | |- Forall _ ?l => let l' := eval vm_compute in l in change l with l'
  end.
  repeat constructor.
Defined.

(** ** Assignments and updates along a path *)

Section Updates.
Context {number : Type}.
Implicit Types (o e g r : obj number) (v : value number) (k key : string).

Lemma obj_replace_replace o k v1 v2 :
  obj_replace k v2 (obj_replace k v1 o) = obj_replace k v2 o.
Proof.
  induction o as [|[k' v'] o IH]; [done|]. cbn [obj_replace].
  destruct (decide (k = k')) as [->|Hne]; cbn [obj_replace].
  - by rewrite decide_True.
  - by rewrite decide_False, IH.
Qed.

Lemma obj_replace_insert o k v1 v2 :
  k ∉ keys o → obj_replace k v2 (obj_insert k v1 o) = obj_insert k v2 o.
Proof.
  induction o as [|[k' v'] o IH]; intros Hk.
  - cbn [obj_insert obj_replace]. by rewrite decide_True.
  - change (keys ((k', v') :: o)) with (k' :: keys o) in Hk.
    apply not_elem_of_cons in Hk as [Hne Hk]. cbn [obj_insert].
    destruct (key_precedes k k'); cbn [obj_replace].
    + by rewrite decide_True.
    + by rewrite decide_False, IH.
Qed.

Lemma obj_replace_same o k v : obj_get o k = Some v → obj_replace k v o = o.
Proof.
  induction o as [|[k' v'] o IH]; [done|]. cbn [obj_get obj_replace].
  destruct (decide (k = k')) as [->|Hne]; [by intros [= ->]|].
  intros H. by rewrite IH.
Qed.

Lemma obj_set_set o k v1 v2 : obj_set (obj_set o k v1) k v2 = obj_set o k v2.
Proof.
  assert (obj_has (obj_set o k v1) k = true) as Hhas.
  { unfold obj_has. by rewrite obj_get_set, decide_True. }
  unfold obj_set at 1. rewrite Hhas. unfold obj_set.
  destruct (obj_has o k) eqn:Ho.
  - apply obj_replace_replace.
  - by apply obj_replace_insert, obj_has_false.
Qed.

Lemma obj_set_same o k v : obj_get o k = Some v → obj_set o k v = o.
Proof.
  intros H. unfold obj_set, obj_has. rewrite H. by apply obj_replace_same.
Qed.

Lemma update_at_ext r p (f f' : obj number → obj number) :
  (∀ o, f o = f' o) → update_at r p f = update_at r p f'.
Proof.
  intros Hf. revert r. induction p as [|k p IH]; intros r; cbn [update_at]; [done|].
  destruct (obj_get r k) as [[| | | | |o']|]; try done. by rewrite IH.
Qed.

Lemma update_at_app r p q (f : obj number → obj number) :
  update_at r (p ++ q) f = update_at r p (λ o, update_at o q f).
Proof.
  revert r. induction p as [|k p IH]; intros r; [done|].
  cbn [app update_at]. destruct (obj_get r k) as [[| | | | |o']|]; try done.
  by rewrite IH.
Qed.

Lemma update_at_twice r p (f1 f2 : obj number → obj number) :
  update_at (update_at r p f1) p f2 = update_at r p (λ o, f2 (f1 o)).
Proof.
  revert r. induction p as [|k p IH]; intros r; [done|]. cbn [update_at].
  destruct (obj_get r k) as [[| | | | |o']|] eqn:Hk;
    try (cbn [update_at]; by rewrite Hk).
  cbn [update_at]. rewrite obj_get_set, decide_True by done.
  by rewrite obj_set_set, IH.
Qed.

Lemma update_at_id r p : update_at r p (λ o, o) = r.
Proof.
  revert r. induction p as [|k p IH]; intros r; [done|]. cbn [update_at].
  destruct (obj_get r k) as [[| | | | |o']|] eqn:Hk; try done.
  rewrite IH. by apply obj_set_same.
Qed.

(** Opening a mapping under [k] and filling it. *)
Lemma update_at_opened r p k (G : obj number → obj number) :
  update_at (update_at r p (λ o, obj_set o k (VObj []))) (p ++ [k]) G
  = update_at r p (λ o, obj_set o k (VObj (G []))).
Proof.
  rewrite update_at_app, update_at_twice. apply update_at_ext. intros o.
  cbn [update_at]. rewrite obj_get_set, decide_True by done.
  apply obj_set_set.
Qed.

Lemma pop_frames_junk (i : Z) (junk : list frame) (F : frame) (below : list frame) :
  Forall (λ j, (i ≤ f_indent j)%Z) junk → (f_indent F < i)%Z →
  pop_frames i (junk ++ F :: below) = F :: below.
Proof.
  intros Hjunk HF. induction Hjunk as [|j junk Hj _ IH].
  - cbn [app pop_frames]. destruct below; [done|].
    by rewrite (proj2 (Z.leb_gt _ _) HF).
  - cbn [app pop_frames]. destruct (junk ++ F :: below) eqn:E; [by destruct junk|].
    by rewrite (proj2 (Z.leb_le _ _) Hj).
Qed.

End Updates.

(** ** The lines the serializer writes, read by the parser *)

Lemma safe_key_inv k :
  safe_key k = true →
  ∃ c k', k = String c k' ∧ is_ws c = false ∧ c ≠ "#"%char ∧ c ≠ "-"%char
          ∧ includes ":" k = false ∧ includes LF k = false ∧ trimEnd k = k.
Proof.
  unfold safe_key. destruct k as [|c k']; [done|].
  intros H. apply andb_true_iff in H as [H _].
  apply andb_true_iff in H as [H H6]. apply andb_true_iff in H as [H H5].
  apply andb_true_iff in H as [H H4]. apply andb_true_iff in H as [H H3].
  apply andb_true_iff in H as [H1 H2].
  apply negb_true_iff in H1, H2, H3, H4, H5. apply bool_decide_eq_true in H6.
  exists c, k'. split_and!; try done.
  - intros ->. done.
  - intros ->. done.
Qed.

Lemma plain_text_inv t :
  plain_text t = true →
  nonempty t = true ∧ includes LF t = false ∧ trimStart t = t ∧ trimEnd t = t.
Proof.
  unfold plain_text. intros H.
  apply andb_true_iff in H as [H H3]. apply andb_true_iff in H as [H1 H2].
  apply negb_true_iff in H2.
  apply bool_decide_eq_true in H3. apply trim_fixed in H3 as [? ?]. done.
Qed.

(** A line made of an indentation and a body that starts and ends
    with characters that are not white space. *)
Lemma line_trim n c b :
  is_ws c = false → trimEnd (String c b) = String c b →
  trim (str_repeat "  " n +:+ String c b) = String c b.
Proof.
  intros Hc Hend. unfold trim, trimStart.
  rewrite drop_while_app_all by apply spaces_ws. cbn [drop_while]. by rewrite Hc.
Qed.

Lemma line_indent n c b :
  is_ws c = false →
  String.length (take_while is_ws (str_repeat "  " n +:+ String c b)) = 2 * n.
Proof.
  intros Hc. rewrite take_while_app_all by apply spaces_ws. cbn [take_while].
  by rewrite Hc, append_nil_r, spaces_length.
Qed.

Lemma includes_spaces c n : c ≠ " "%char → includes c (str_repeat "  " n) = false.
Proof.
  intros Hc. induction n as [|n IH]; [done|]. cbn [str_repeat].
  rewrite includes_app, IH, orb_false_r. unfold includes, str_existsb. simpl.
  destruct (Ascii.eqb_spec c " "); [done|]. done.
Qed.

Lemma str_drop_app_cons s a t : str_drop (S (String.length s)) (s +:+ String a t) = t.
Proof. induction s as [|b s IH]; [done | apply IH]. Qed.

Lemma trimEnd_nonempty t : nonempty t = true → trimEnd t = t → nonempty (trimEnd t) = true.
Proof. by intros ? ->. Qed.

Section TreeRoundTrip.
Context {number : Type}.
Variable Number : string → number.
Variable isNaN : number → bool.
Variable String_of_number : number → string.
Implicit Types (o e g r : obj number) (v : value number) (k key : string).

Lemma yaml_line_entry result stack n k tail top rest :
  safe_key k = true →
  (tail = "" ∨ ∃ t, tail = " " +:+ t ∧ plain_text t = true) →
  pop_frames (Z.of_nat (2 * n)) stack = top :: rest →
  yaml_line Number isNaN (result, stack) (str_repeat "  " n +:+ k +:+ ":" +:+ tail)
  = if bool_decide (trim tail = "") || bool_decide (trim tail = "|")
       || bool_decide (trim tail = ">")
    then (update_at result (f_path top) (λ o, obj_set o k (VObj [])),
          {| f_indent := Z.of_nat (2 * n); f_path := f_path top ++ [k];
             f_key := Some k |} :: top :: rest)
    else (update_at result (f_path top)
            (λ o, obj_set o k (parseYamlValue Number isNaN (trim tail))),
          top :: rest).
Proof.
  intros (c & k' & -> & Hc & Hhash & Hdash & Hcolon & Hlf & Hend)%safe_key_inv Htail Hpop.
  assert (trimEnd (String c k' +:+ ":" +:+ tail) = String c k' +:+ ":" +:+ tail) as Hbody.
  { rewrite trimEnd_app.
    - f_equal. destruct Htail as [->|(t & -> & Ht)]; [done|].
      apply plain_text_inv in Ht as (Hne & _ & _ & Hte).
      change (":" +:+ " " +:+ t) with (": " +:+ t).
      rewrite trimEnd_app by (by rewrite Hte). by rewrite Hte.
    - destruct Htail as [->|(t & -> & Ht)]; [done|].
      apply plain_text_inv in Ht as (Hne & _ & _ & Hte).
      change (":" +:+ " " +:+ t) with (": " +:+ t).
      rewrite trimEnd_app by (by rewrite Hte). done. }
  rewrite append_cons in Hbody.
  assert (trim (str_repeat "  " n +:+ String c k' +:+ ":" +:+ tail)
          = String c (k' +:+ ":" +:+ tail)) as Htrim.
  { rewrite append_cons. by apply line_trim. }
  unfold yaml_line. unfold is_blank. rewrite Htrim.
  rewrite bool_decide_eq_false_2 by done.
  assert (startsWith "#" (String c (k' +:+ ":" +:+ tail)) = false) as ->.
  { unfold startsWith. cbn [String.prefix]. destruct (ascii_dec "#" c); [by subst | done]. }
  assert (startsWith "- " (String c (k' +:+ ":" +:+ tail)) = false) as ->.
  { unfold startsWith. cbn [String.prefix]. destruct (ascii_dec "-" c); [by subst | done]. }
  cbn [orb].
  assert (String.length (take_while is_ws
            (str_repeat "  " n +:+ String c k' +:+ ":" +:+ tail)) = 2 * n) as ->.
  { rewrite append_cons. by apply line_indent. }
  assert (indexOf ":" (String c (k' +:+ ":" +:+ tail)) = Some (S (String.length k')))
    as -> by exact (indexOf_char ":" (String c k') tail Hcolon).
  assert (str_take (S (String.length k')) (String c (k' +:+ ":" +:+ tail)) = String c k')
    as -> by exact (str_take_app (String c k') (String ":" tail)).
  assert (str_drop (S (S (String.length k'))) (String c (k' +:+ ":" +:+ tail)) = tail)
    as -> by exact (str_drop_app_cons (String c k') ":" tail).
  rewrite Hpop.
  assert (trim (String c k') = String c k') as ->.
  { unfold trim, trimStart. cbn [drop_while]. by rewrite Hc. }
  done.
Qed.

Lemma trim_space t : trim (" " +:+ t) = trim t.
Proof. reflexivity. Qed.

Lemma yaml_line_scalar result stack n k t top rest :
  safe_key k = true → plain_text t = true → t ≠ "|" → t ≠ ">" →
  pop_frames (Z.of_nat (2 * n)) stack = top :: rest →
  yaml_line Number isNaN (result, stack) (str_repeat "  " n +:+ k +:+ ": " +:+ t)
  = (update_at result (f_path top) (λ o, obj_set o k (parseYamlValue Number isNaN t)),
     top :: rest).
Proof.
  intros Hk Ht Hbar Hgt Hpop.
  change (k +:+ ": " +:+ t) with (k +:+ ":" +:+ " " +:+ t).
  rewrite (yaml_line_entry result stack n k (" " +:+ t) top rest Hk) by eauto.
  rewrite trim_space. unfold plain_text in Ht.
  apply andb_true_iff in Ht as [Ht Htrim]. apply andb_true_iff in Ht as [Hne _].
  apply bool_decide_eq_true in Htrim. rewrite Htrim.
  rewrite !bool_decide_eq_false_2; [done..|]. by destruct t.
Qed.

Lemma yaml_line_open result stack n k top rest :
  safe_key k = true →
  pop_frames (Z.of_nat (2 * n)) stack = top :: rest →
  yaml_line Number isNaN (result, stack) (str_repeat "  " n +:+ k +:+ ":")
  = (update_at result (f_path top) (λ o, obj_set o k (VObj [])),
     {| f_indent := Z.of_nat (2 * n); f_path := f_path top ++ [k]; f_key := Some k |}
     :: top :: rest).
Proof.
  intros Hk Hpop.
  rewrite <- (append_nil_r ":").
  by rewrite (yaml_line_entry result stack n k "" top rest Hk) by eauto.
Qed.

End TreeRoundTrip.

Lemma join_app_gen sep (xs ys : list string) :
  xs ≠ [] →
  join sep (xs ++ ys)
  = match ys with [] => join sep xs | _ => join sep xs +:+ sep +:+ join sep ys end.
Proof.
  intros Hx. destruct ys as [|y ys]; [by rewrite app_nil_r|]. by apply join_app.
Qed.

Lemma bind_nil_iff {A B} (g : A → list B) (xs : list A) :
  (∀ x, x ∈ xs → g x ≠ []) → xs ≫= g = [] ↔ xs = [].
Proof.
  intros Hg. destruct xs as [|x xs]; [done|]. rewrite bind_cons. split; [|done].
  intros [H _]%app_eq_nil. exfalso. by apply (Hg x); [left|].
Qed.

Lemma join_bind_flatten {A} sep (g g' : A → list string) (xs : list A) :
  (∀ x, x ∈ xs → g x ≠ [] ∧ g' x ≠ [] ∧ join sep (g x) = join sep (g' x)) →
  join sep (xs ≫= g) = join sep (xs ≫= g').
Proof.
  induction xs as [|x xs IH]; intros H; [done|]. rewrite !bind_cons.
  destruct (H x) as (Hg & Hg' & Hj); [left|].
  assert (∀ y, y ∈ xs → g y ≠ [] ∧ g' y ≠ [] ∧ join sep (g y) = join sep (g' y)) as Hxs
    by (intros y Hy; apply H; by right).
  rewrite !join_app_gen by done. rewrite Hj, IH by done.
  destruct (xs ≫= g) eqn:E1, (xs ≫= g') eqn:E2; try done.
  - apply bind_nil_iff in E1; [|by intros y Hy; apply Hxs]. by subst.
  - apply bind_nil_iff in E2; [|by intros y Hy; apply Hxs]. by subst.
Qed.

Section TreeParse.
Context {number : Type}.
Variable Number : string → number.
Variable isNaN : number → bool.
Variable String_of_number : number → string.
Implicit Types (o e g r : obj number) (v : value number) (k key : string).

Lemma tree_entries_elem (rec : value number → Prop) (es : obj number) x :
  tree_entries Number isNaN String_of_number rec es → x ∈ es →
  tree_entry Number isNaN String_of_number rec x.
Proof.
  induction es as [|y es IH]; intros Ht Hx; [by inv Hx|].
  destruct Ht as [Hy Ht]. apply elem_of_cons in Hx as [->|Hx]; [done | by apply IH].
Qed.

(** The parser on the lines of the entries of a mapping at depth [n],
    below the frame [F] of the mapping. *)
Lemma parse_entries (n : nat) (F : frame) (below : list frame) (es : obj number) :
  (f_indent F < Z.of_nat (2 * n))%Z →
  tree_entries Number isNaN String_of_number
    (yaml_tree Number isNaN String_of_number) es →
  (∀ k v, (k, v) ∈ es → wf_value v = true) →
  (∀ k o, (k, VObj o) ∈ es →
     ∀ result junk Fk below',
       (f_indent Fk < Z.of_nat (2 * S n))%Z →
       Forall (λ j, (Z.of_nat (2 * S n) ≤ f_indent j)%Z) junk →
       ∃ junk',
         Forall (λ j, (Z.of_nat (2 * S n) ≤ f_indent j)%Z) junk'
         ∧ fold_left (yaml_line Number isNaN)
             (tree_lines String_of_number (S n) (VObj o)) (result, junk ++ Fk :: below')
           = (update_at result (f_path Fk)
                (λ cur, fold_left (λ r x, obj_set r x.1 x.2) o cur),
              junk' ++ Fk :: below')) →
  ∀ result junk,
    Forall (λ j, (Z.of_nat (2 * n) ≤ f_indent j)%Z) junk →
    ∃ junk',
      Forall (λ j, (Z.of_nat (2 * n) ≤ f_indent j)%Z) junk'
      ∧ fold_left (yaml_line Number isNaN)
          (es ≫= entry_lines String_of_number (tree_lines String_of_number) n)
          (result, junk ++ F :: below)
        = (update_at result (f_path F)
             (λ cur, fold_left (λ r x, obj_set r x.1 x.2) es cur),
           junk' ++ F :: below).
Proof.
  intros HF. induction es as [|[k v] es IH]; intros Htree Hwf Hnested result junk Hjunk.
  - exists junk. split; [done|]. cbn [mbind list_bind fold_left].
    by rewrite update_at_id.
  - destruct Htree as [[Hk Hv] Hrest]. cbn [fst snd] in Hk, Hv.
    pose proof (pop_frames_junk _ junk F below Hjunk HF) as Hpop.
    assert (∀ result1,
              ∃ junk', Forall (λ j, (Z.of_nat (2 * n) ≤ f_indent j)%Z) junk'
              ∧ fold_left (yaml_line Number isNaN)
                  (es ≫= entry_lines String_of_number (tree_lines String_of_number) n)
                  (result1, F :: below)
                = (update_at result1 (f_path F)
                     (λ cur, fold_left (λ r x, obj_set r x.1 x.2) es cur),
                   junk' ++ F :: below)) as Hnext.
    { intros result1. refine (IH Hrest _ _ result1 [] _); [| |constructor].
      - intros k' v' Hin. apply (Hwf k'). by right.
      - intros k' o' Hin. apply (Hnested k'). by right. }
    assert (∀ t, stable_scalar Number isNaN String_of_number v
                 ∧ formatYamlValue String_of_number v ≠ "|"
                 ∧ formatYamlValue String_of_number v ≠ ">" →
                 t = formatYamlValue String_of_number v →
                 entry_lines String_of_number (tree_lines String_of_number) n (k, v)
                 = [str_repeat "  " n +:+ k +:+ ": " +:+ t] →
                 (match v with VArr _ | VObj _ => False | _ => True end) →
                 ∃ junk', Forall (λ j, (Z.of_nat (2 * n) ≤ f_indent j)%Z) junk'
                 ∧ fold_left (yaml_line Number isNaN)
                     (((k, v) :: es)
                        ≫= entry_lines String_of_number (tree_lines String_of_number) n)
                     (result, junk ++ F :: below)
                   = (update_at result (f_path F)
                        (λ cur, fold_left (λ r x, obj_set r x.1 x.2) ((k, v) :: es) cur),
                      junk' ++ F :: below)) as Hscalar.
    { intros t (Hst & Hbar & Hgt) -> Hlines Hs.
      assert (plain_text (formatYamlValue String_of_number v) = true
              ∧ parseYamlValue Number isNaN (formatYamlValue String_of_number v) = v)
        as [Hplain Hback] by (by destruct v).
      rewrite bind_cons, fold_left_app, Hlines. cbn [fold_left].
      rewrite (yaml_line_scalar Number isNaN result _ n k _ F below) by done.
      rewrite Hback.
      destruct (Hnext (update_at result (f_path F) (λ o, obj_set o k v)))
        as (junk' & Hj' & ->).
      exists junk'. split; [done|]. by rewrite update_at_twice. }
    destruct v as [|b|x|s|items|props];
      try (by apply (Hscalar _ Hv eq_refl eq_refl)).
    + by destruct Hv as [[] _].
    + destruct props as [|p ps]; [done|].
      rewrite bind_cons, fold_left_app.
      change (entry_lines String_of_number (tree_lines String_of_number) n
                (k, VObj (p :: ps)))
        with ((str_repeat "  " n +:+ k +:+ ":")
              :: tree_lines String_of_number (S n) (VObj (p :: ps))).
      cbn [fold_left].
      rewrite (yaml_line_open Number isNaN result _ n k F below) by done.
      destruct (Hnested k (p :: ps) (ltac:(left))
                  (update_at result (f_path F) (λ o, obj_set o k (VObj [])))
                  [] {| f_indent := Z.of_nat (2 * n); f_path := f_path F ++ [k];
                        f_key := Some k |} (F :: below))
        as (junk1 & Hj1 & Heq1); [cbn [f_indent]; lia | constructor |].
      cbn [app] in Heq1. rewrite Heq1. cbn [f_path].
      rewrite update_at_opened.
      rewrite fold_set_self;
        [|by apply (wf_value_obj (p :: ps)), (Hwf k); left
         |by apply wf_value_order, (Hwf k); left].
      assert (Forall (λ j, (Z.of_nat (2 * n) ≤ f_indent j)%Z)
                (junk1 ++ [{| f_indent := Z.of_nat (2 * n); f_path := f_path F ++ [k];
                              f_key := Some k |}])) as Hj2.
      { apply Forall_app. split.
        - eapply Forall_impl; [exact Hj1|]. intros j Hj. cbn beta in Hj. lia.
        - constructor; [cbn [f_indent]; lia | constructor]. }
      assert (∀ k' v', (k', v') ∈ es → wf_value v' = true) as Hwf'
        by (intros k' v' Hin; apply (Hwf k'); by right).
      destruct (IH Hrest Hwf' (λ k' o' Hin, Hnested k' o' (list_elem_of_further _ _ _ Hin))
                  (update_at result (f_path F) (λ o, obj_set o k (VObj (p :: ps))))
                  _ Hj2) as (junk' & Hj' & Heq).
      rewrite <- app_assoc in Heq. cbn [app] in Heq. rewrite Heq.
      exists junk'. split; [done|]. by rewrite update_at_twice.
Qed.

Lemma parse_tree (v : value number) :
  ∀ o, v = VObj o → yaml_tree Number isNaN String_of_number v → wf_value v = true →
  ∀ n F below result junk,
    (f_indent F < Z.of_nat (2 * n))%Z →
    Forall (λ j, (Z.of_nat (2 * n) ≤ f_indent j)%Z) junk →
    ∃ junk',
      Forall (λ j, (Z.of_nat (2 * n) ≤ f_indent j)%Z) junk'
      ∧ fold_left (yaml_line Number isNaN) (tree_lines String_of_number n v)
          (result, junk ++ F :: below)
        = (update_at result (f_path F)
             (λ cur, fold_left (λ r x, obj_set r x.1 x.2) o cur),
           junk' ++ F :: below).
Proof.
  induction v as [| | | |items _|props IH] using value_ind'; try done.
  intros o [= <-] Ht Hw n F below result junk HF Hjunk.
  cbn [tree_lines]. apply parse_entries; try done.
  - intros k v Hin. by eapply wf_value_elem.
  - intros k o Hin result' junk' Fk below' HFk Hj'.
    rewrite Forall_forall in IH.
    apply (IH (k, VObj o) Hin o eq_refl); try done.
    + pose proof (tree_entries_elem _ _ _ Ht Hin) as [_ Hv]. cbn [snd] in Hv.
      by destruct o.
    + by eapply wf_value_elem.
Qed.

Lemma entry_line_plain n k t :
  safe_key k = true → includes LF t = false →
  includes LF (str_repeat "  " n +:+ k +:+ ":" +:+ t) = false.
Proof.
  intros (c & k' & -> & _ & _ & _ & _ & Hlf & _)%safe_key_inv Ht.
  rewrite !includes_app, includes_spaces, Hlf, Ht by done. done.
Qed.

(** The text [stringifyYaml] writes for such a mapping, line by line. *)
Lemma stringifyYaml_tree (v : value number) :
  ∀ o, v = VObj o → yaml_tree Number isNaN String_of_number v →
  ∀ n, stringifyYaml String_of_number v n
       = join (str1 LF) (tree_lines String_of_number n v)
       ∧ Forall (λ l, includes LF l = false) (tree_lines String_of_number n v)
       ∧ (o ≠ [] → tree_lines String_of_number n v ≠ []).
Proof.
  induction v as [| | | |items _|props IH] using value_ind'; try done.
  intros o [= <-] Ht n. cbn [stringifyYaml tree_lines].
  rewrite Forall_forall in IH.
  assert (∀ x, x ∈ props →
            entry_lines String_of_number (tree_lines String_of_number) n x ≠ []) as Hne.
  { intros [k v] _. unfold entry_lines. cbn [snd]. by destruct v. }
  split_and!.
  - apply join_bind_flatten. intros [k v] Hin. cbn [fst snd].
    split.
    { destruct v as [| | | |[|]|props']; try done.
      by destruct (includes LF _ || (0 <? length props')%nat). }
    split; [by apply Hne|].
    pose proof (tree_entries_elem _ _ _ Ht Hin) as [Hk Hv]. cbn [fst snd] in Hk, Hv.
    unfold entry_lines. cbn [fst snd].
    destruct v as [|b|x|s|items|props']; try done.
    + by destruct Hv as [[] _].
    + destruct props' as [|p ps]; [done|].
      destruct (IH (k, VObj (p :: ps)) Hin (p :: ps) eq_refl Hv (S n))
        as (Hs & _ & Hsub).
      cbn [snd] in Hs. rewrite Hs. cbn [length Nat.ltb Nat.leb]. rewrite orb_true_r.
      rewrite (join_cons _ _ (tree_lines _ _ _)) by (by apply Hsub).
      by rewrite (join_cons _ _ [_]).
  - apply Forall_forall. intros l (x & Hl & Hin)%list_elem_of_bind.
    destruct x as [k v].
    pose proof (tree_entries_elem _ _ _ Ht Hin) as [Hk Hv]. cbn [fst snd] in Hk, Hv.
    unfold entry_lines in Hl. cbn [fst snd] in Hl.
    assert (stable_scalar Number isNaN String_of_number v →
            l ∈ [str_repeat "  " n +:+ k +:+ ": " +:+ formatYamlValue String_of_number v] →
            includes LF l = false) as Hscalar.
    { intros Hst ->%list_elem_of_singleton.
      change (k +:+ ": " +:+ formatYamlValue String_of_number v)
        with (k +:+ ":" +:+ " " +:+ formatYamlValue String_of_number v).
      apply entry_line_plain; [done|].
      assert (plain_text (formatYamlValue String_of_number v) = true) as Hp
        by (by destruct v; destruct Hst).
      apply plain_text_inv in Hp as (_ & Hlf & _). by rewrite includes_app, Hlf. }
    destruct v as [|b|x|s|items|props']; try (by apply Hscalar; [apply Hv|]).
    + by destruct Hv as [[] _].
    + destruct props' as [|p ps]; [done|].
      apply elem_of_cons in Hl as [->|Hl].
      * rewrite <- (append_nil_r ":"). by apply entry_line_plain.
      * destruct (IH (k, VObj (p :: ps)) Hin (p :: ps) eq_refl Hv (S n))
          as (_ & Hall & _).
        rewrite Forall_forall in Hall. by apply Hall.
  - intros Hprops Hnil. apply bind_nil_iff in Hnil; done.
Qed.

(** The parser on all the lines of such a mapping. *)
Lemma parse_tree_lines (o : obj number) :
  yaml_tree Number isNaN String_of_number (VObj o) →
  wf_value (VObj o) = true →
  (fold_left (yaml_line Number isNaN) (tree_lines String_of_number 0 (VObj o))
     ([], [{| f_indent := -1; f_path := []; f_key := None |}])).1 = o.
Proof.
  intros Ht Hw.
  destruct (parse_tree (VObj o) o eq_refl Ht Hw 0
              {| f_indent := -1; f_path := []; f_key := None |} [] [] [])
    as (junk' & _ & Heq); [cbn [f_indent]; lia | constructor |].
  cbn [app] in Heq. rewrite Heq. cbn [fst f_path update_at].
  apply fold_set_self; [by apply wf_value_obj | by apply wf_value_order].
Qed.

(** X17: what the YAML serializer writes, the YAML parser reads back:
    for a well-formed mapping whose keys are safe and whose values are
    stable scalars or non-empty mappings of the same kind, at any depth,
    parsing the serialized text returns the mapping. *)
Theorem yaml_tree_round_trip (o : obj number) :
  yaml_tree Number isNaN String_of_number (VObj o) →
  wf_value (VObj o) = true →
  parseSimpleYaml Number isNaN (stringifyYaml String_of_number (VObj o) 0) = o.
Proof.
  intros Ht Hw.
  destruct (stringifyYaml_tree (VObj o) o eq_refl Ht 0) as (-> & Hall & _).
  rewrite parseSimpleYaml_lines by done. by apply parse_tree_lines.
Qed.

End TreeParse.

Lemma yaml_tree_round_trip_example :
  Ref.parseSimpleYaml
    (stringifyYaml Ref.String_of_number
       (VObj [("name", VStr "app");
              ("server", VObj [("port", num 8080); ("tls", VObj [("on", VBool true)])]);
              ("note", VStr "say: hi")]) 0)
  = [("name", VStr "app");
     ("server", VObj [("port", num 8080); ("tls", VObj [("on", VBool true)])]);
     ("note", VStr "say: hi")].
Proof.
  apply (yaml_tree_round_trip Ref.Number Ref.isNaN Ref.String_of_number).
  - cbn [yaml_tree tree_entries tree_entry stable_scalar fst snd].
    split_and!; try done; vm_compute; reflexivity || discriminate.
  - vm_compute; reflexivity.
Defined.

(** ** Arrays in the YAML subset *)

Section YamlArrays.
Context {number : Type}.
Variable Number : string → number.
Variable isNaN : number → bool.
Variable String_of_number : number → string.
Implicit Types (o e g r : obj number) (v : value number) (k key : string).

Lemma yaml_line_item result stack n t i p k rest :
  plain_text t = true →
  pop_frames (Z.of_nat (2 * n)) stack
    = {| f_indent := i; f_path := p; f_key := Some k |} :: rest →
  yaml_line Number isNaN (result, stack) (str_repeat "  " n +:+ "- " +:+ t)
  = (update_at result p (push_item k (parseYamlValue Number isNaN t)),
     {| f_indent := i; f_path := p; f_key := Some k |} :: rest).
Proof.
  intros (Hne & _ & Hts & Hte)%plain_text_inv Hpop.
  assert (trim t = t) as Htrim by (unfold trim; by rewrite Hts, Hte).
  assert (trim (str_repeat "  " n +:+ "- " +:+ t) = "- " +:+ t) as Hline.
  { apply (line_trim n "-" (" " +:+ t)); [done|].
    change (String "-" (" " +:+ t)) with ("- " +:+ t).
    rewrite trimEnd_app by (by rewrite Hte). by rewrite Hte. }
  unfold yaml_line, is_blank. rewrite Hline.
  rewrite bool_decide_eq_false_2 by done.
  change (startsWith "#" ("- " +:+ t)) with false.
  change (startsWith "- " ("- " +:+ t)) with (String.prefix "" t).
  rewrite prefix_empty. cbn [orb].
  change (str_drop 2 ("- " +:+ t)) with t. rewrite Htrim.
  assert (String.length (take_while is_ws (str_repeat "  " n +:+ "- " +:+ t)) = 2 * n)
    as -> by (by apply (line_indent n "-" (" " +:+ t))).
  by rewrite Hpop.
Qed.

Lemma push_item_first k v : push_item k v ([] : obj number) = [(k, VArr [v])].
Proof. reflexivity. Qed.

Lemma push_item_next k v (acc : list (value number)) :
  push_item k v [(k, VArr acc)] = [(k, VArr (acc ++ [v]))].
Proof.
  unfold push_item. cbn [obj_get]. rewrite decide_True by done.
  unfold obj_set, obj_has. cbn [obj_get obj_replace]. by rewrite !decide_True.
Qed.

Lemma update_at_single k (inner : obj number) (f : obj number → obj number) :
  update_at [(k, VObj inner)] [k] f = [(k, VObj (f inner))].
Proof.
  cbn [update_at obj_get]. rewrite decide_True by done.
  unfold obj_set, obj_has. cbn [obj_get obj_replace]. by rewrite !decide_True.
Qed.

Lemma parse_item_lines k (items acc : list (value number)) (below : list frame) :
  Forall (stable_scalar Number isNaN String_of_number) items →
  fold_left (yaml_line Number isNaN)
    ((λ v, "  - " +:+ formatYamlValue String_of_number v) <$> items)
    ([(k, VObj [(k, VArr acc)])],
     {| f_indent := 0; f_path := [k]; f_key := Some k |} :: below)
  = ([(k, VObj [(k, VArr (acc ++ items))])],
     {| f_indent := 0; f_path := [k]; f_key := Some k |} :: below).
Proof.
  intros Hall. revert acc. induction Hall as [|v items Hv _ IH]; intros acc.
  - by rewrite app_nil_r.
  - assert (plain_text (formatYamlValue String_of_number v) = true
            ∧ parseYamlValue Number isNaN (formatYamlValue String_of_number v) = v)
      as [Hplain Hback] by (by destruct v).
    rewrite fmap_cons. cbn [fold_left].
    rewrite (yaml_line_item _ ({| f_indent := 0; f_path := [k]; f_key := Some k |}
                                :: below) 1 _ 0%Z [k] k below Hplain)
      by (by apply (pop_frames_junk _ []); [constructor|]).
    rewrite Hback, update_at_single, push_item_next, IH.
    by rewrite <- app_assoc.
Qed.

(** X18: an array is not read back where it was written.  The
    serializer writes the items of an array under the line of its key;
    the parser opens a mapping for that line and stores the items in it,
    under the same key once more. *)
Theorem yaml_array_read_back_nested (k : string) (v : value number)
    (items : list (value number)) :
  safe_key k = true →
  Forall (stable_scalar Number isNaN String_of_number) (v :: items) →
  parseSimpleYaml Number isNaN
    (stringifyYaml String_of_number (VObj [(k, VArr (v :: items))]) 0)
  = [(k, VObj [(k, VArr (v :: items))])].
Proof.
  intros Hk Hall.
  assert (Forall (λ l, includes LF l = false)
            ((λ x, "  - " +:+ formatYamlValue String_of_number x) <$> v :: items))
    as Hlines.
  { apply Forall_fmap. eapply Forall_impl; [exact Hall|]. intros x Hx.
    unfold compose. cbn beta.
    assert (plain_text (formatYamlValue String_of_number x) = true) as Hp
      by (by destruct x; destruct Hx).
    apply plain_text_inv in Hp as (_ & Hlf & _). by rewrite includes_app, Hlf. }
  assert (stringifyYaml String_of_number (VObj [(k, VArr (v :: items))]) 0
          = join (str1 LF)
              ((k +:+ ":")
               :: ((λ x, "  - " +:+ formatYamlValue String_of_number x) <$> v :: items)))
    as ->.
  { cbn [stringifyYaml mbind list_bind fst snd app str_repeat].
    rewrite (join_cons _ (k +:+ ":") (_ <$> _)) by done. unfold join at 1.
    do 2 f_equal. f_equal.
    assert (∀ l : list (value number),
              Forall (stable_scalar Number isNaN String_of_number) l →
              l ≫= yaml_item_lines String_of_number ("  " +:+ "")
              = (λ x, "  - " +:+ formatYamlValue String_of_number x) <$> l) as Hl.
    { induction 1 as [|x l Hx _ IH]; [done|]. rewrite bind_cons, fmap_cons, IH.
      by destruct x. }
    exact (Hl (v :: items) Hall). }
  rewrite parseSimpleYaml_lines.
  2:{ constructor; [|done]. rewrite <- (append_nil_l (k +:+ ":")), <- (append_nil_r ":").
      by apply (entry_line_plain 0). }
  cbn [fold_left].
  change (yaml_line Number isNaN ?st (k +:+ ":"))
    with (yaml_line Number isNaN st (str_repeat "  " 0 +:+ k +:+ ":")).
  rewrite (yaml_line_open Number isNaN []
             [{| f_indent := -1; f_path := []; f_key := None |}] 0 k
             {| f_indent := -1; f_path := []; f_key := None |} []);
    [|exact Hk|reflexivity].
  cbn [update_at f_path app].
  assert (obj_set ([] : obj number) k (VObj []) = [(k, VObj [])]) as -> by done.
  apply Forall_cons in Hall as [Hv Hitems].
  assert (plain_text (formatYamlValue String_of_number v) = true
          ∧ parseYamlValue Number isNaN (formatYamlValue String_of_number v) = v)
    as [Hplain Hback] by (by destruct v).
  rewrite fmap_cons. cbn [fold_left].
  rewrite (yaml_line_item _
             [{| f_indent := Z.of_nat (2 * 0); f_path := [k]; f_key := Some k |};
              {| f_indent := -1; f_path := []; f_key := None |}]
             1 _ 0%Z [k] k
             [{| f_indent := -1; f_path := []; f_key := None |}] Hplain)
    by (by apply (pop_frames_junk _ []); [constructor|]).
  rewrite Hback, update_at_single, push_item_first.
  by rewrite (parse_item_lines k items [v]).
Qed.

End YamlArrays.

Lemma yaml_array_read_back_nested_example :
  Ref.parseSimpleYaml
    (stringifyYaml Ref.String_of_number (VObj [("items", VArr [VStr "a"; num 2])]) 0)
  = [("items", VObj [("items", VArr [VStr "a"; num 2])])].
Proof.
  apply (yaml_array_read_back_nested Ref.Number Ref.isNaN Ref.String_of_number).
  - reflexivity.
  - repeat constructor.
Defined.

(** ** The YAML merge on whole documents *)

Lemma first_occurrences_NoDup (l : list string) : NoDup l → first_occurrences l = l.
Proof.
  induction 1 as [|x l Hx _ IH]; [done|]. cbn [first_occurrences]. rewrite IH.
  f_equal. apply filter_all. intros y Hy ->. done.
Qed.

Section YamlDocuments.
Context {number : Type}.
Variable Number : string → number.
Variable isNaN : number → bool.
Variable String_of_number : number → string.
Implicit Types (o e g r : obj number) (v : value number) (k key : string).

Lemma obj_set_wf o k v :
  wf_value (VObj o) = true → wf_value v = true → wf_value (VObj (obj_set o k v)) = true.
Proof.
  intros Ho Hv. destruct (wf_value_obj _ Ho) as [Hnd Hall].
  apply wf_value_intro.
  - rewrite keys_obj_set. by apply key_set_NoDup.
  - rewrite keys_obj_set. by apply own_order_key_set, wf_value_order.
  - intros k' v'. rewrite obj_get_set. destruct (decide (k' = k)); [by intros [= <-]|].
    apply Hall.
Qed.

Lemma update_at_wf r p (f : obj number → obj number) :
  (∀ o, wf_value (VObj o) = true → wf_value (VObj (f o)) = true) →
  wf_value (VObj r) = true → wf_value (VObj (update_at r p f)) = true.
Proof.
  intros Hf. revert r. induction p as [|k p IH]; intros r Hr; cbn [update_at].
  - by apply Hf.
  - destruct (obj_get r k) as [[| | | | |o']|] eqn:Hk; try done.
    apply obj_set_wf; [done|]. apply IH.
    by apply (proj2 (wf_value_obj _ Hr) k).
Qed.

Lemma parseYamlValue_wf s : wf_value (parseYamlValue Number isNaN s) = true.
Proof. unfold parseYamlValue. by repeat case_match. Qed.

Lemma push_item_wf o k v :
  wf_value v = true → wf_value (VObj o) = true → wf_value (VObj (push_item k v o)) = true.
Proof.
  intros Hv Ho. unfold push_item.
  destruct (obj_get o k) as [[| | | |items|]|] eqn:Hk;
    try (apply obj_set_wf; [done|]; cbn [wf_value forallb]; by rewrite Hv).
  apply obj_set_wf; [done|]. cbn [wf_value]. rewrite forallb_app. cbn [forallb].
  rewrite Hv. pose proof (proj2 (wf_value_obj _ Ho) k _ Hk) as Hi.
  cbn [wf_value] in Hi. by rewrite Hi.
Qed.

Lemma yaml_line_wf st l :
  wf_value (VObj st.1) = true → wf_value (VObj (yaml_line Number isNaN st l).1) = true.
Proof.
  destruct st as [result stack]. cbn [fst]. intros Hr. unfold yaml_line.
  repeat case_match; cbn [fst]; try done; apply update_at_wf; try done; intros o Ho.
  - apply push_item_wf; [apply parseYamlValue_wf | done].
  - by apply obj_set_wf.
  - apply obj_set_wf; [done | apply parseYamlValue_wf].
Qed.

Lemma parseSimpleYaml_wf text :
  wf_value (VObj (parseSimpleYaml Number isNaN text)) = true.
Proof.
  unfold parseSimpleYaml.
  generalize (split LF text). intros lines.
  assert (∀ st, wf_value (VObj st.1) = true →
                wf_value (VObj (fold_left (yaml_line Number isNaN) lines st).1) = true)
    as H.
  { induction lines as [|l ls IH]; intros st Hst; [done|].
    cbn [fold_left]. by apply IH, yaml_line_wf. }
  by apply H.
Qed.

(** The merged mapping of the YAML path is well formed. *)
Lemma deepMergePreserveExisting_wf e g path p a :
  wf_value (VObj e) = true → wf_value (VObj g) = true →
  wf_value (VObj (deepMergePreserveExisting e g path p a).1.1) = true.
Proof.
  intros He Hg.
  rewrite <- (merged_mapping_agrees e g path p a He Hg).
  unfold ownMergeJson.
  rewrite (proj1 (ownMergeJson_rec_closed (VObj e)) g path p a). cbn [fst].
  by apply (ownMergeJson_rec_wf (VObj e) e).
Qed.

(** X19: an existing YAML document that holds only comments and blank
    lines, but is not blank, is merged as the empty mapping: when no
    key of the generated document is a property name of
    [Object.prototype], the content is the generated mapping,
    serialized again, every top-level key of it is reported as added,
    and the comments are gone. *)
Theorem mergeYaml_comments_only (existing generated : string) :
  is_blank existing = false →
  is_blank generated = false →
  Forall (λ l, skipped l = true) (split LF existing) →
  plain_value (VObj (parseSimpleYaml Number isNaN generated)) = true →
  mergeYaml Number isNaN String_of_number existing generated =
    {| content :=
         stringifyYaml String_of_number
           (VObj (parseSimpleYaml Number isNaN generated)) 0 +:+ str1 LF;
       preserved := [];
       added := keys (parseSimpleYaml Number isNaN generated) |}.
Proof.
  intros He Hg Hall _. unfold mergeYaml. rewrite He, Hg.
  rewrite (parseSimpleYaml_all_skipped Number isNaN existing Hall).
  pose proof (parseSimpleYaml_wf generated) as Hw.
  rewrite (deepMergePreserveExisting_empty_existing
             (parseSimpleYaml Number isNaN generated) "" [] [] Hw).
  cbn [app]. rewrite !unique_first_occurrences. cbn [first_occurrences].
  rewrite first_occurrences_NoDup.
  - f_equal. unfold fullPath. cbn [nonempty]. apply list_fmap_id.
  - unfold fullPath. cbn [nonempty]. rewrite list_fmap_id.
    by apply (wf_value_obj _ Hw).
Qed.

Lemma tree_text_head (o : obj number) x :
  yaml_tree Number isNaN String_of_number (VObj (x :: o)) →
  ∃ c rest, stringifyYaml String_of_number (VObj (x :: o)) 0 = String c rest
            ∧ is_ws c = false.
Proof.
  intros Ht.
  destruct (stringifyYaml_tree Number isNaN String_of_number (VObj (x :: o)) (x :: o)
              eq_refl Ht 0) as (-> & _ & _).
  destruct Ht as [[Hk Hv] _].
  apply safe_key_inv in Hk as (c & k' & Hk & Hc & _).
  cbn [tree_lines]. rewrite bind_cons.
  assert (∃ tail ls, entry_lines String_of_number (tree_lines String_of_number) 0 x
                     = String c tail :: ls) as (tail & ls & ->).
  { unfold entry_lines. rewrite Hk. cbn [str_repeat]. rewrite append_nil_l.
    destruct x.2; eauto. }
  exists c. rewrite <- app_comm_cons.
  destruct (ls ++ _) as [|l' ls'] eqn:E; [by eauto|].
  rewrite join_cons by done. rewrite append_cons. eauto.
Qed.

Lemma parseSimpleYaml_trailing_newline text :
  parseSimpleYaml Number isNaN (text +:+ str1 LF) = parseSimpleYaml Number isNaN text.
Proof.
  unfold parseSimpleYaml. rewrite split_snoc, fold_left_app. cbn [fold_left].
  by rewrite yaml_line_skipped.
Qed.

(** X20: the YAML merge is idempotent when the merged mapping is one
    that the serializer writes and the parser reads back and none of
    its keys is a property name of [Object.prototype]: a second run
    against the same generated document returns the same content and
    adds nothing. *)
Theorem mergeYaml_idempotent (existing generated : string) :
  is_blank existing = false →
  is_blank generated = false →
  let merged :=
    (deepMergePreserveExisting (parseSimpleYaml Number isNaN existing)
       (parseSimpleYaml Number isNaN generated) "" [] []).1.1 in
  let first := mergeYaml Number isNaN String_of_number existing generated in
  merged ≠ [] →
  yaml_tree Number isNaN String_of_number (VObj merged) →
  plain_value (VObj merged) = true →
  content (mergeYaml Number isNaN String_of_number (content first) generated)
    = content first
  ∧ added (mergeYaml Number isNaN String_of_number (content first) generated) = [].
Proof.
  intros He Hg merged first Hne Ht _.
  pose proof (parseSimpleYaml_wf existing) as Hwe.
  pose proof (parseSimpleYaml_wf generated) as Hwg.
  pose proof (deepMergePreserveExisting_wf _ _ "" [] [] Hwe Hwg) as Hwm.
  fold merged in Hwm.
  pose proof (deepMergePreserveExisting_idem _ _ "" "" Hwe Hwg) as Hidem.
  cbn zeta in Hidem. fold merged in Hidem. destruct Hidem as [H1 H2].
  assert (content first
          = stringifyYaml String_of_number (VObj merged) 0 +:+ str1 LF) as Hc.
  { subst first merged. unfold mergeYaml. rewrite He, Hg.
    by destruct (deepMergePreserveExisting _ _ "" [] []) as [[m pres] add]. }
  set (c := content first) in *. clearbody c. clear first. subst c.
  assert (is_blank (stringifyYaml String_of_number (VObj merged) 0 +:+ str1 LF) = false)
    as Hb.
  { destruct merged as [|x o]; [done|].
    destruct (tree_text_head o x Ht) as (c & rest & -> & Hc).
    unfold is_blank. apply bool_decide_eq_false. unfold trim, trimStart.
    rewrite append_cons. cbn [drop_while]. rewrite Hc.
    destruct (trimEnd_head c (rest +:+ str1 LF) Hc) as [r ->]. done. }
  unfold mergeYaml at 1 2. rewrite Hb, Hg.
  rewrite parseSimpleYaml_trailing_newline.
  assert (parseSimpleYaml Number isNaN (stringifyYaml String_of_number (VObj merged) 0)
          = merged) as ->.
  { destruct (stringifyYaml_tree Number isNaN String_of_number (VObj merged) merged
                eq_refl Ht 0) as (-> & Hall & _).
    rewrite parseSimpleYaml_lines by done. by apply parse_tree_lines. }
  destruct (deepMergePreserveExisting merged _ "" [] []) as [[m pres] add].
  cbn [fst snd content added] in *. subst m add. done.
Qed.

End YamlDocuments.

Lemma mergeYaml_comments_only_example :
  Ref.mergeYaml (nl "# only a comment|") (nl "a: 1|b:|  c: 2|")
  = {| content := nl "a: 1|b:|  c: 2|"; preserved := []; added := ["a"; "b"] |}.
Proof.
  unfold Ref.mergeYaml.
  rewrite (mergeYaml_comments_only Ref.Number Ref.isNaN Ref.String_of_number
             (nl "# only a comment|") (nl "a: 1|b:|  c: 2|")).
  - vm_compute; reflexivity.
  - vm_compute; reflexivity.
  - vm_compute; reflexivity.
  - match goal with
    | |- Forall _ ?l => let l' := eval vm_compute in l in change l with l'
    end.
    repeat constructor.
  - vm_compute; reflexivity.
Defined.

Lemma mergeYaml_idempotent_example :
  content (Ref.mergeYaml
             (content (Ref.mergeYaml (nl "a: 1|b:|  c: 2|") (nl "a: 5|b:|  d: 2|e: x")))
             (nl "a: 5|b:|  d: 2|e: x"))
  = content (Ref.mergeYaml (nl "a: 1|b:|  c: 2|") (nl "a: 5|b:|  d: 2|e: x")).
Proof.
  refine (proj1 (mergeYaml_idempotent Ref.Number Ref.isNaN Ref.String_of_number
                   (nl "a: 1|b:|  c: 2|") (nl "a: 5|b:|  d: 2|e: x") _ _ _ _ _)).
  - vm_compute; reflexivity.
  - vm_compute; reflexivity.
  - vm_compute; discriminate.
  - match goal with
    | |- yaml_tree _ _ _ (VObj ?m) => let m' := eval vm_compute in m in change m with m'
    end.
    cbn [yaml_tree tree_entries tree_entry stable_scalar fst snd].
    split_and!; try done; vm_compute; reflexivity || discriminate.
  - vm_compute; reflexivity.
Defined.

(** ** Flat YAML documents *)

Section YamlFlat.
Context {number : Type}.
Variable Number : string → number.
Variable isNaN : number → bool.
Variable String_of_number : number → string.
Implicit Types (o e g r : obj number) (v : value number) (k key : string).

Lemma obj_get_fold_last (f : string * string → value number)
    (es : list (string * string)) (r0 : obj number) k :
  obj_get (fold_left (λ r x, obj_set r x.1 (f x)) es r0) k =
    match last (filter (λ x, x.1 = k) es) with
    | Some x => Some (f x)
    | None => obj_get r0 k
    end.
Proof.
  revert r0. induction es as [|x es IH]; intros r0; [done|].
  cbn [fold_left]. rewrite IH, filter_cons, obj_get_set.
  destruct (decide (x.1 = k)) as [Hk|Hk].
  - rewrite last_cons. destruct (last _); [done|]. by rewrite decide_True.
  - destruct (last _); [done|]. by rewrite decide_False.
Qed.

Lemma parse_flat_lines (es : list (string * string)) (result : obj number) :
  Forall (λ x, safe_key x.1 = true ∧ plain_text x.2 = true
               ∧ x.2 ≠ "|" ∧ x.2 ≠ ">") es →
  fold_left (yaml_line Number isNaN) ((λ x, x.1 +:+ ": " +:+ x.2) <$> es)
    (result, [{| f_indent := -1; f_path := []; f_key := None |}])
  = (fold_left (λ r x, obj_set r x.1 (parseYamlValue Number isNaN x.2)) es result,
     [{| f_indent := -1; f_path := []; f_key := None |}]).
Proof.
  intros Hall. revert result.
  induction Hall as [|[k t] es (Hk & Ht & Hbar & Hgt) _ IH]; intros result; [done|].
  rewrite fmap_cons. cbn [fold_left fst snd] in *.
  change (k +:+ ": " +:+ t) with (str_repeat "  " 0 +:+ k +:+ ": " +:+ t).
  rewrite (yaml_line_scalar Number isNaN result
             [{| f_indent := -1; f_path := []; f_key := None |}] 0 k t
             {| f_indent := -1; f_path := []; f_key := None |} []) by done.
  cbn [f_path update_at]. apply IH.
Qed.

Lemma parse_flat_document (es : list (string * string)) :
  Forall (λ x, safe_key x.1 = true ∧ plain_text x.2 = true
               ∧ x.2 ≠ "|" ∧ x.2 ≠ ">") es →
  parseSimpleYaml Number isNaN (join (str1 LF) ((λ x, x.1 +:+ ": " +:+ x.2) <$> es))
  = fold_left (λ r x, obj_set r x.1 (parseYamlValue Number isNaN x.2)) es [].
Proof.
  intros Hall. rewrite parseSimpleYaml_lines.
  - by rewrite parse_flat_lines.
  - apply Forall_fmap. eapply Forall_impl; [exact Hall|].
    intros [k t] (Hk & Ht & _). unfold compose. cbn [fst snd] in *.
    apply plain_text_inv in Ht as (_ & Hlf & _).
    change (k +:+ ": " +:+ t) with (str_repeat "  " 0 +:+ k +:+ ":" +:+ " " +:+ t).
    apply entry_line_plain; [done|]. by rewrite includes_app, Hlf.
Qed.

(** X21: the YAML parser on a flat document, one line [key: value] for
    every entry: the result is built by assigning the entries in order,
    so a key that occurs more than once keeps its first place and takes
    the value of its last line. *)
Theorem parseSimpleYaml_flat (es : list (string * string)) :
  Forall (λ x, safe_key x.1 = true ∧ plain_text x.2 = true
               ∧ x.2 ≠ "|" ∧ x.2 ≠ ">") es →
  let result :=
    parseSimpleYaml Number isNaN (join (str1 LF) ((λ x, x.1 +:+ ": " +:+ x.2) <$> es)) in
  result = fold_left (λ r x, obj_set r x.1 (parseYamlValue Number isNaN x.2)) es []
  ∧ ∀ k, obj_get result k =
         (λ x, parseYamlValue Number isNaN x.2) <$> last (filter (λ x, x.1 = k) es).
Proof.
  intros Hall result.
  assert (result
          = fold_left (λ r x, obj_set r x.1 (parseYamlValue Number isNaN x.2)) es [])
    as Hr by (by apply parse_flat_document).
  split; [done|]. intros k. rewrite Hr.
  rewrite (obj_get_fold_last (λ x, parseYamlValue Number isNaN x.2)).
  by destruct (last _).
Qed.

(** X22: empty containers are not read back either: the serializer
    writes an empty mapping as [{}] and an empty array as [[]] after the
    key, and the parser, for which these are no numbers, reads the two
    texts as strings. *)
Theorem yaml_empty_containers_read_back_as_text (k : string) :
  safe_key k = true →
  isNaN (Number "{}") = true →
  isNaN (Number "[]") = true →
  parseSimpleYaml Number isNaN (stringifyYaml String_of_number (VObj [(k, VObj [])]) 0)
    = [(k, VStr "{}")]
  ∧ parseSimpleYaml Number isNaN (stringifyYaml String_of_number (VObj [(k, VArr [])]) 0)
    = [(k, VStr "[]")].
Proof.
  intros Hk Hobj Harr.
  assert (∀ t, plain_text t = true → t ≠ "|" → t ≠ ">" →
               parseSimpleYaml Number isNaN (k +:+ ": " +:+ t)
               = [(k, parseYamlValue Number isNaN t)]) as Hline.
  { intros t Ht Hbar Hgt.
    apply (parse_flat_document [(k, t)]). by repeat constructor. }
  split.
  - change (stringifyYaml String_of_number (VObj [(k, VObj [])]) 0)
      with (k +:+ ": " +:+ "{}").
    rewrite Hline by done.
    rewrite (parseYamlValue_plain Number isNaN "{}"); [by rewrite Hobj|done|].
    apply (bool_decide_unpack _). vm_compute. exact I.
  - change (stringifyYaml String_of_number (VObj [(k, VArr [])]) 0)
      with (k +:+ ": " +:+ "[]").
    rewrite Hline by done.
    rewrite (parseYamlValue_plain Number isNaN "[]"); [by rewrite Harr|done|].
    apply (bool_decide_unpack _). vm_compute. exact I.
Qed.

End YamlFlat.

Lemma parseSimpleYaml_flat_example :
  Ref.parseSimpleYaml (nl "port: 80|name: app|port: 8080")
  = [("port", num 8080); ("name", VStr "app")].
Proof.
  refine (eq_trans
            (proj1 (parseSimpleYaml_flat Ref.Number Ref.isNaN
                      [("port", "80"); ("name", "app"); ("port", "8080")] _)) _).
  - repeat constructor; vm_compute; discriminate.
  - vm_compute; reflexivity.
Defined.

Lemma yaml_empty_containers_read_back_as_text_example :
  Ref.parseSimpleYaml (stringifyYaml Ref.String_of_number (VObj [("opts", VObj [])]) 0)
  = [("opts", VStr "{}")].
Proof.
  refine (proj1 (yaml_empty_containers_read_back_as_text Ref.Number Ref.isNaN
                   Ref.String_of_number "opts" _ _ _)); reflexivity.
Defined.

(** ** Preserved and added paths do not meet *)

Section DisjointPaths.
Context {number : Type}.
Implicit Types (o e g : obj number) (v : value number) (k key path : string).

Lemma ownMergeJson_rec_disjoint (x : value number) :
  ∀ e, x = VObj e → wf_value x = true → clean_value x = true →
  ∀ g path, wf_value (VObj g) = true → clean_value (VObj g) = true →
  ∀ s, s ∈ (ownMergeJson_rec x g path [] []).1.2 →
       s ∈ (ownMergeJson_rec x g path [] []).2 → False.
Proof.
  induction x as [| | | | |es IH] using value_ind'; intros e Hx; try done.
  injection Hx as <-. intros Hw Hc g path Hwg Hcg s.
  rewrite (proj2 (ownMergeJson_rec_closed (VObj es)) es eq_refl).
  cbn [fst snd app]. rewrite Forall_forall in IH.
  destruct (wf_value_obj _ Hw) as [Hnd _].
  assert (∀ y t, y ∈ es →
            t ∈ (json_entry ownMergeJson_rec g path y).1.2
                ++ (json_entry ownMergeJson_rec g path y).2 →
            below path y.1 t) as Hbelow.
  { intros [k ve] t Hy. destruct (clean_value_obj _ _ _ Hc Hy) as [Hck Hcv].
    rewrite json_entry_eq. cbn [fst snd].
    assert (t ∈ [fullPath path k] ++ [] → below path k t) as Hplain.
    { rewrite app_nil_r. intros ->%list_elem_of_singleton. by left. }
    destruct (obj_get g k) as [[| | | | |go]|] eqn:Hgk; try exact Hplain.
    destruct ve as [| | | | |eo]; cbn [is_mapping fst snd]; try exact Hplain.
    apply obj_get_In in Hgk.
    destruct (clean_value_obj _ _ _ Hcg Hgk) as [_ Hcgo].
    destruct (ownMergeJson_rec_nodup (VObj eo) eo eq_refl (wf_value_elem _ _ _ Hw Hy)
                Hcv go (fullPath path k) (wf_value_elem _ _ _ Hwg Hgk) Hcgo)
      as (_ & _ & Hu).
    intros Ht. destruct (Hu t Ht) as [k2 Hb]. by eapply below_nested. }
  intros (y1 & Hs1 & Hy1)%list_elem_of_bind [Hs2|Hs2]%elem_of_app.
  - apply list_elem_of_bind in Hs2 as (y2 & Hs2 & Hy2).
    assert (y1 = y2) as <-.
    { apply (entry_eq es); [done..|]. apply (below_inj path _ _ s).
      - destruct y1. by destruct (clean_value_obj _ _ _ Hc Hy1).
      - destruct y2. by destruct (clean_value_obj _ _ _ Hc Hy2).
      - apply (Hbelow y1 s Hy1). apply elem_of_app. by left.
      - apply (Hbelow y2 s Hy2). apply elem_of_app. by right. }
    destruct y1 as [k ve]. destruct (clean_value_obj _ _ _ Hc Hy1) as [Hck Hcv].
    rewrite json_entry_eq in Hs1, Hs2. cbn [fst snd] in Hs1, Hs2.
    destruct (obj_get g k) as [[| | | | |go]|] eqn:Hgk; cbn [fst snd] in Hs2;
      try by inv Hs2.
    destruct ve as [| | | | |eo]; cbn [is_mapping fst snd] in Hs1, Hs2;
      try by inv Hs2.
    apply obj_get_In in Hgk.
    destruct (clean_value_obj _ _ _ Hcg Hgk) as [_ Hcgo].
    exact (IH (k, VObj eo) Hy1 eo eq_refl (wf_value_elem _ _ _ Hw Hy1) Hcv
              go (fullPath path k) (wf_value_elem _ _ _ Hwg Hgk) Hcgo s Hs1 Hs2).
  - apply list_elem_of_fmap in Hs2 as (k' & -> & Hk').
    rewrite keys_new_entries in Hk'.
    apply list_elem_of_filter in Hk' as [Hfresh Hk'g].
    assert (below path y1.1 (fullPath path k')) as Hb.
    { apply (Hbelow y1 _ Hy1). apply elem_of_app. by left. }
    assert (y1.1 = k') as Hyk.
    { apply (below_inj path _ _ (fullPath path k')); [| |done|by left].
      - destruct y1. by destruct (clean_value_obj _ _ _ Hc Hy1).
      - by eapply clean_value_key. }
    apply obj_has_false in Hfresh. apply Hfresh. rewrite <- Hyk.
    by apply (list_elem_of_fmap_2 fst).
Qed.

(** X23: when the keys of both mappings are non-empty and free of dots,
    no path is reported both as preserved and as added, by either deep
    merge. *)
Theorem deepMerge_paths_disjoint (existing generated : obj number) (path s : string) :
  wf_value (VObj existing) = true → clean_value (VObj existing) = true →
  wf_value (VObj generated) = true → clean_value (VObj generated) = true →
  ¬ (s ∈ (deepMergeJson existing generated path [] []).1.2
     ∧ s ∈ (deepMergeJson existing generated path [] []).2)
  ∧ ¬ (s ∈ (deepMergePreserveExisting existing generated path [] []).1.2
       ∧ s ∈ (deepMergePreserveExisting existing generated path [] []).2).
Proof.
  intros Hwe Hce Hwg Hcg.
  destruct (deep_merges_agree_rec (VObj existing) existing eq_refl Hwe generated path Hwg)
    as (_ & Hp & Ha).
  pose proof (ownMergeJson_rec_disjoint (VObj existing) existing eq_refl Hwe Hce
                generated path Hwg Hcg s) as Hd.
  destruct (deepMergeJson_rec_lists (VObj existing) existing eq_refl Hwe Hce
              (Parsed generated) path Hwg Hcg) as (_ & _ & _ & Hj).
  unfold deepMergeJson, deepMergePreserveExisting.
  split; intros [H1 H2].
  - by apply (Hj s).
  - apply Hd; [by rewrite Hp | by rewrite Ha].
Qed.

End DisjointPaths.

Lemma deepMerge_paths_disjoint_example :
  ¬ ("b.c" ∈ (deepMergeJson existing_tree generated_tree "" [] []).1.2
     ∧ "b.c" ∈ (deepMergeJson existing_tree generated_tree "" [] []).2)
  ∧ ¬ ("b.c" ∈ (deepMergePreserveExisting existing_tree generated_tree "" [] []).1.2
       ∧ "b.c" ∈ (deepMergePreserveExisting existing_tree generated_tree "" [] []).2).
Proof.
  apply (deepMerge_paths_disjoint existing_tree generated_tree "" "b.c"); reflexivity.
Defined.


Section YamlNoRepeats.
Context {number : Type}.
Variable Number : string → number.
Variable isNaN : number → bool.
Variable String_of_number : number → string.

(** X24: when no key of the two parsed documents is empty or holds a
    dot, the lists the YAML deep merge accumulates have no repeated
    path, so the removal of duplicates in [mergeYaml] changes nothing:
    the result carries the accumulated lists as they are. *)
Theorem mergeYaml_dedupe_is_identity (existing generated : string) :
  is_blank existing = false → is_blank generated = false →
  clean_value (VObj (parseSimpleYaml Number isNaN existing)) = true →
  clean_value (VObj (parseSimpleYaml Number isNaN generated)) = true →
  NoDup (deepMergePreserveExisting (parseSimpleYaml Number isNaN existing)
           (parseSimpleYaml Number isNaN generated) "" [] []).1.2
  ∧ NoDup (deepMergePreserveExisting (parseSimpleYaml Number isNaN existing)
             (parseSimpleYaml Number isNaN generated) "" [] []).2
  ∧ preserved (mergeYaml Number isNaN String_of_number existing generated)
    = (deepMergePreserveExisting (parseSimpleYaml Number isNaN existing)
         (parseSimpleYaml Number isNaN generated) "" [] []).1.2
  ∧ added (mergeYaml Number isNaN String_of_number existing generated)
    = (deepMergePreserveExisting (parseSimpleYaml Number isNaN existing)
         (parseSimpleYaml Number isNaN generated) "" [] []).2.
Proof.
  intros He Hg Hce Hcg.
  pose proof (parseSimpleYaml_wf Number isNaN existing) as Hwe.
  pose proof (parseSimpleYaml_wf Number isNaN generated) as Hwg.
  destruct (deep_merges_agree_rec _ _ eq_refl Hwe _ "" Hwg) as (_ & Hp & Ha).
  destruct (ownMergeJson_rec_nodup _ _ eq_refl Hwe Hce _ "" Hwg Hcg) as (Np & Na & _).
  rewrite Hp in Np. rewrite Ha in Na.
  unfold mergeYaml. rewrite He, Hg. unfold deepMergePreserveExisting.
  destruct (deepMergePreserveExisting_rec _ _ "" [] []) as [[merged pres] add].
  cbn [preserved added fst snd] in *.
  by rewrite !unique_first_occurrences, !first_occurrences_NoDup.
Qed.

End YamlNoRepeats.

Lemma mergeYaml_dedupe_is_identity_example :
  NoDup (deepMergePreserveExisting (Ref.parseSimpleYaml "a:
  b: 1
") (Ref.parseSimpleYaml "a:
  b: 2
  c: 3
d: 4
") "" [] []).1.2
  ∧ NoDup (deepMergePreserveExisting (Ref.parseSimpleYaml "a:
  b: 1
") (Ref.parseSimpleYaml "a:
  b: 2
  c: 3
d: 4
") "" [] []).2
  ∧ preserved (Ref.mergeYaml "a:
  b: 1
" "a:
  b: 2
  c: 3
d: 4
") = ["a.b"]
  ∧ added (Ref.mergeYaml "a:
  b: 1
" "a:
  b: 2
  c: 3
d: 4
") = ["a.c"; "d"].
Proof.
  apply (mergeYaml_dedupe_is_identity Ref.Number Ref.isNaN Ref.String_of_number "a:
  b: 1
" "a:
  b: 2
  c: 3
d: 4
"); reflexivity.
Defined.
